(** * Weighted prefix trees: a shallow embedding of [ACS_prefix_tree.py]

    The development embeds the class [SimplePrefixTree] (and its subclass
    [CompressedPrefixTree], which overrides nothing) and proves or refutes
    the properties stated for it.  It then embeds the three engines of
    [ACS_autocomplete_engines.py], which feed the lines of a file to a tree,
    and proves further properties of the tree and of the engines.

    Modelling conventions.
    - A tree object is the value [Node root weight subtrees].  The objects of
      one tree are never shared between two parents: [insert] only links
      nodes it has just allocated, so in-place mutation of a node is a
      functional update of the corresponding sub-term.
    - The attribute [root] is dynamically typed: a list of symbols (a prefix)
      or a stored value.  Values are assumed not to be lists (they are strings
      or [Melody] objects in the three engines), so a value never compares
      equal to a prefix and [value + list] raises [TypeError].
    - Weights are Python floats, binary64 numbers.  The methods are embedded
      twice.  In the first embedding a weight is the exact rational [Qc]
      that the binary64 number stands for, and [+] and [-] do not round;
      this is the program on the calls that compute without rounding
      ([exact_calls]: the inserted weights are multiples of one [2^-e] and
      add up to at most [2^53 * 2^-e]), and a statement that depends on the
      arithmetic of weights has such calls among its hypotheses ([built]).
      The module [Float64] embeds the same methods on binary64 numbers
      ([PrimFloat]); the calls on which a rounded weight changes what the
      program does are evaluated there.
    - [list.sort(key=..., reverse=True)] is stable; it is modelled by a stable
      insertion sort, the result of a stable sort being unique.
    - The classes are decorated with [check_contracts]: on entry to a method
      the documented preconditions that are Python expressions are checked,
      and [AssertionError] is raised when one is false.  These are
      [weight > 0] for [insert] and [limit is None or limit > 0] for
      [autocomplete]; they are embedded in [insert] and
      [autocomplete_call].  The representation invariants of [Melody] are
      checked when an object is created ([parse]).  The precondition of
      [insert] on the value (absent, or inserted before with the same prefix
      sequence) is prose; it is the hypothesis [insert_pre].  The line
      [prefix[0:len(self.root)] == self.root] holds for every call on a
      whole tree, whose [root] is [[]]; the calls that [insert] makes on
      subtrees pass [prefix[1:]], and the bundled tests expect them to
      return.
    - An engine is embedded from the content of its file on: opening the
      file, [csv.reader] and [float] are not modelled, and [str.isalnum],
      [str.lower] and [int] are parameters.  A [Melody] object carries the
      position of its row, which stands for the identity of the object. *)

From stdpp Require Import base option list numbers strings sorting.
From Stdlib Require Import QArith Qcanon Lqa PrimFloat.

Local Open Scope Qc_scope.

(** ** Python lists *)

Section py_list.
Context {A : Type}.

(** [insert_desc key x l] puts [x] in front of the first element whose key
    is not strictly greater: [x] stays ahead of the equal keys that were
    behind it. *)
Fixpoint insert_desc (key : A → Qc) (x : A) (l : list A) : list A :=
  match l with
  | [] => [x]
  | y :: l' =>
      if bool_decide (key x < key y) then y :: insert_desc key x l'
      else x :: y :: l'
  end.

(** [l.sort(key=key, reverse=True)] *)
Definition sort_desc (key : A → Qc) (l : list A) : list A :=
  foldr (insert_desc key) [] l.

(** The order that [sort_desc key] establishes. *)
Definition desc (key : A → Qc) : relation A := λ x y, key y ≤ key x.

(** [l.index(x)]: the first position of [x]; [None] stands for
    [ValueError]. *)
Definition py_index `{EqDecision A} (x : A) (l : list A) : option nat :=
  fst <$> list_find (λ y, y = x) l.
End py_list.

(** ** The tree objects *)

Section prefix_tree.
Context {sym val : Type} `{EqDecision sym, EqDecision val}.

Inductive root_t :=
| RPrefix (p : list sym)
| RValue (v : val).

#[global] Instance root_t_eq_dec : EqDecision root_t.
Proof. solve_decision. Defined.

#[local] Unset Elimination Schemes.
Inductive tree := Node {
  root : root_t;
  weight : Qc;
  subtrees : list tree
}.
#[local] Set Elimination Schemes.

(** [SimplePrefixTree()] *)
Definition empty : tree := Node (RPrefix []) 0 [].

Definition is_empty (t : tree) : bool := bool_decide (weight t = 0).

Definition is_leaf (t : tree) : bool :=
  match subtrees t with [] => bool_decide (0 < weight t) | _ => false end.

(** [__len__] *)
Fixpoint len (t : tree) : nat :=
  match t with
  | Node r w ts =>
      if is_empty (Node r w ts) then 0%nat
      else if is_leaf (Node r w ts) then 1%nat
      else sum_list (len <$> ts)
  end.

Definition get_subtree_roots (ts : list tree) : list root_t := root <$> ts.

Fixpoint get_leaf_value (t : tree) : list root_t :=
  match t with
  | Node r w ts =>
      if is_empty (Node r w ts) then []
      else if is_leaf (Node r w ts) then [r]
      else ts ≫= get_leaf_value
  end.

Fixpoint get_leaves (t : tree) : list tree :=
  match t with
  | Node r w ts =>
      if is_empty (Node r w ts) then []
      else if is_leaf (Node r w ts) then [Node r w ts]
      else ts ≫= get_leaves
  end.

(** [create_node]: [initial + value] is list concatenation; on a leaf's
    [root] it raises [TypeError], rendered by [None]. *)
Definition create_node (initial : root_t) (value : list sym) (w : Qc)
    : option tree :=
  match initial with
  | RPrefix r => Some (Node (RPrefix (r ++ value)) w [])
  | RValue _ => None
  end.

Definition sort_subtrees (t : tree) : tree :=
  Node (root t) (weight t) (sort_desc weight (subtrees t)).

(** The loop of [insert] over [self.subtrees] when the value is already a
    leaf value of [self]: it returns the new [self.weight] and the updated
    subtrees. *)
Fixpoint bump (value : val) (w : Qc) (self_weight : Qc) (ts : list tree)
    : Qc * list tree :=
  match ts with
  | [] => (self_weight, [])
  | c :: ts' =>
      if bool_decide (root c = RValue value) then
        let '(sw, ts'') := bump value w (self_weight + w) ts' in
        (sw, Node (root c) (weight c + w) (subtrees c) :: ts'')
      else
        let '(sw, ts'') := bump value w self_weight ts' in
        (sw, c :: ts'')
  end.

(** [insert].  [None] stands for an exception: the [AssertionError] that
    the decorator [check_contracts] raises on entry when the documented
    precondition [weight > 0] fails, or the [TypeError] of [create_node].
    Both are raised before the call has assigned anything. *)
Fixpoint insert (t : tree) (value : val) (w : Qc) (prefix : list sym)
    {struct prefix} : option tree :=
  if bool_decide (0 < w) then
    match prefix with
    | [] =>
        let leaf := Node (RValue value) w [] in
        let t' :=
          match subtrees t with
          | [] => Node (root t) w [leaf]
          | _ :: _ =>
              if bool_decide (RValue value ∉ get_leaf_value t) then
                Node (root t) (weight t + w) (subtrees t ++ [leaf])
              else
                let '(sw, ts) := bump value w (weight t) (subtrees t) in
                Node (root t) sw ts
          end in
        Some (sort_subtrees t')
    | s :: prefix' =>
        node ← create_node (root t) [s] w;
        if bool_decide (root node ∉ get_subtree_roots (subtrees t)) then
          let ts := subtrees t ++ [node] in
          let w' :=
            if bool_decide (length ts ≤ 1)%nat then w else weight t + w in
          new ← insert node value w prefix';
          Some (sort_subtrees (Node (root t) w' (subtrees t ++ [new])))
        else
          index ← py_index (root node) (get_subtree_roots (subtrees t));
          c ← subtrees t !! index;
          c' ← insert c value w prefix';
          Some (sort_subtrees
                  (Node (root t) (weight t + w) (<[index := c']> (subtrees t))))
    end
  else None.

(** The loop of [remove].  Python's list iterator keeps an index; when the
    body deletes the current element the list shifts left and the element
    that followed it is never visited. *)
Fixpoint remove_loop (rm : tree → tree) (self_weight : Qc) (ts : list tree)
    : Qc * list tree :=
  match ts with
  | [] => (self_weight, [])
  | c :: rest =>
      let subtree_wt := weight c in
      let c' := rm c in
      if is_empty c' then
        match rest with
        | [] => (self_weight - subtree_wt, [])
        | skipped :: rest' =>
            let '(sw, ts') := remove_loop rm (self_weight - subtree_wt) rest' in
            (sw, skipped :: ts')
        end
      else
        let '(sw, ts') := remove_loop rm self_weight rest in
        (sw, c' :: ts')
  end.

Fixpoint remove (t : tree) (prefix : list sym) : tree :=
  match t with
  | Node r w ts =>
      match prefix with
      | [] => empty
      | _ :: _ =>
          if bool_decide (r = RPrefix prefix) then empty
          else
            let '(sw, ts') := remove_loop (λ c, remove c prefix) w ts in
            Node r sw ts'
      end
  end.

Definition leaf_pair (leaf : tree) : root_t * Qc := (root leaf, weight leaf).

(** [limit] is [None] or a Python int. *)
Fixpoint autocomplete (t : tree) (prefix : list sym) (limit : option Z)
    : list (root_t * Qc) :=
  match t with
  | Node r w ts =>
      if bool_decide (r = RPrefix prefix) then
        let leaves := get_leaves (Node r w ts) in
        match limit with
        | None => sort_desc snd (leaf_pair <$> leaves)
        | Some n =>
            leaf_pair <$>
              take (Z.to_nat (Z.min n (Z.of_nat (length leaves)))) leaves
        end
      else ts ≫= (λ c, autocomplete c prefix limit)
  end.

(** *** Reading methods as state transformers

    [get_leaves] and [autocomplete] are also embedded as methods that
    return their result together with the receiver as the call leaves
    it, every call on a subtree handing back that subtree; this is the form
    in which "the call does not change the tree" is a statement. *)
Definition method (R : Type) : Type := tree → R * tree.

(** [for subtree in self.subtrees: acc.extend(subtree.m())] *)
Fixpoint for_subtrees {R} (m : method (list R)) (ts : list tree)
    : list R * list tree :=
  match ts with
  | [] => ([], [])
  | c :: ts' =>
      let '(r, c') := m c in
      let '(rs, ts'') := for_subtrees m ts' in
      (r ++ rs, c' :: ts'')
  end.

Fixpoint get_leaves_st (t : tree) : list tree * tree :=
  match t with
  | Node r w ts =>
      if is_empty (Node r w ts) then ([], Node r w ts)
      else if is_leaf (Node r w ts) then ([Node r w ts], Node r w ts)
      else
        let '(leaves, ts') := for_subtrees get_leaves_st ts in
        (leaves, Node r w ts')
  end.

Fixpoint autocomplete_st (prefix : list sym) (limit : option Z) (t : tree)
    : list (root_t * Qc) * tree :=
  match t with
  | Node r w ts =>
      if bool_decide (r = RPrefix prefix) then
        let '(leaves, self) := get_leaves_st (Node r w ts) in
        match limit with
        | None => (sort_desc snd (leaf_pair <$> leaves), self)
        | Some n =>
            (leaf_pair <$>
               take (Z.to_nat (Z.min n (Z.of_nat (length leaves)))) leaves,
             self)
        end
      else
        let '(lst, ts') := for_subtrees (autocomplete_st prefix limit) ts in
        (lst, Node r w ts')
  end.

(** [insert] as a method, with the assignments in the order of the source:
    the result is [None] when the call raises, and the tree is the receiver
    as the call (or the exception) leaves it. *)
Fixpoint insert_st (value : val) (w : Qc) (prefix : list sym) (t : tree)
    {struct prefix} : option () * tree :=
  if bool_decide (0 < w) then
    match prefix with
    | [] =>
        let leaf := Node (RValue value) w [] in
        let t' :=
          match subtrees t with
          | [] => Node (root t) w [leaf]
          | _ :: _ =>
              if bool_decide (RValue value ∉ get_leaf_value t) then
                Node (root t) (weight t + w) (subtrees t ++ [leaf])
              else
                let '(sw, ts) := bump value w (weight t) (subtrees t) in
                Node (root t) sw ts
          end in
        (Some (), sort_subtrees t')
    | s :: prefix' =>
        match create_node (root t) [s] w with
        | None => (None, t)
        | Some node =>
            if bool_decide (root node ∉ get_subtree_roots (subtrees t)) then
              let ts := subtrees t ++ [node] in
              let w' :=
                if bool_decide (length ts ≤ 1)%nat then w else weight t + w in
              let '(r, new) := insert_st value w prefix' node in
              let t' := Node (root t) w' (subtrees t ++ [new]) in
              match r with
              | Some _ => (Some (), sort_subtrees t')
              | None => (None, t')
              end
            else
              let self := Node (root t) (weight t + w) (subtrees t) in
              match py_index (root node) (get_subtree_roots (subtrees t)) with
              | None => (None, self)
              | Some index =>
                  match subtrees t !! index with
                  | None => (None, self)
                  | Some c =>
                      let '(r, c') := insert_st value w prefix' c in
                      let t' :=
                        Node (root t) (weight t + w)
                             (<[index := c']> (subtrees t)) in
                      match r with
                      | Some _ => (Some (), sort_subtrees t')
                      | None => (None, t')
                      end
                  end
              end
        end
    end
  else (None, t).

(** ** Specification vocabulary *)

(** Sum of the [weight] attributes of a list of subtrees. *)
Definition sum_weights (ts : list tree) : Qc :=
  foldr (λ c acc, weight c + acc) 0 ts.

(** The prefix sequence of a node: its own [root] when that is a prefix,
    otherwise (the node holds a value) the [root] of its parent. *)
Definition path_of (par : list sym) (t : tree) : list sym :=
  match root t with RPrefix q => q | RValue _ => par end.

(** The leaves of a tree in depth-first pre-order, children visited in
    their stored order, each with its prefix sequence. *)
Fixpoint leaf_paths (par : list sym) (t : tree) : list (list sym * tree) :=
  match t with
  | Node r w ts =>
      if is_empty (Node r w ts) then []
      else if is_leaf (Node r w ts) then [(path_of par (Node r w ts), Node r w ts)]
      else ts ≫= leaf_paths (path_of par (Node r w ts))
  end.

(** The leaves whose prefix sequence begins with [prefix], in pre-order. *)
Definition matching_in (par prefix : list sym) (t : tree) : list tree :=
  snd <$> filter (λ x, prefix `prefix_of` x.1) (leaf_paths par t).

Definition matching_leaves (prefix : list sym) (t : tree) : list tree :=
  matching_in [] prefix t.

(** The stored values: the leaves that hold a value, with their prefix
    sequence and weight. *)
Definition stored (t : tree) : list (list sym * val * Qc) :=
  omap (λ x, match root x.2 with
             | RValue v => Some (x.1, v, weight x.2)
             | RPrefix _ => None
             end) (leaf_paths [] t).

(** The documented preconditions of [insert]: a positive weight, and a
    value that is either absent or stored under the same prefix sequence. *)
Definition insert_pre (t : tree) (value : val) (w : Qc) (prefix : list sym)
    : Prop :=
  0 < w ∧ Forall (λ x, x.1.2 = value → x.1.1 = prefix) (stored t).

#[global] Instance insert_pre_dec t value w prefix :
  Decision (insert_pre t value w prefix).
Proof. unfold insert_pre. apply _. Defined.

(** Trees that the public interface can build from the empty tree. *)
Inductive reachable : tree → Prop :=
| reachable_empty : reachable empty
| reachable_insert t value w prefix t' :
    reachable t →
    insert_pre t value w prefix →
    insert t value w prefix = Some t' →
    reachable t'
| reachable_remove t prefix :
    reachable t → reachable (remove t prefix).

(** Trees built by insertions only. *)
Inductive insert_reachable : tree → Prop :=
| insert_reachable_empty : insert_reachable empty
| insert_reachable_insert t value w prefix t' :
    insert_reachable t →
    insert_pre t value w prefix →
    insert t value w prefix = Some t' →
    insert_reachable t'.

(** *** Sequences of calls *)

Inductive op :=
| Insert (value : val) (w : Qc) (prefix : list sym)
| Remove (prefix : list sym).

Definition run_op (t : tree) (o : op) : option tree :=
  match o with
  | Insert value w prefix => insert t value w prefix
  | Remove prefix => Some (remove t prefix)
  end.

(** [run_from t ops]: the calls [ops] made in order on the tree [t]. *)
Fixpoint run_from (t : tree) (ops : list op) : option tree :=
  match ops with
  | [] => Some t
  | o :: ops' => t' ← run_op t o; run_from t' ops'
  end.

(** [run ops]: the calls [ops] made on a new [SimplePrefixTree()]. *)
Definition run (ops : list op) : option tree := run_from empty ops.

(** [legal t ops]: every call of [ops] meets its preconditions when it is
    made. *)
Fixpoint legal (t : tree) (ops : list op) : bool :=
  match ops with
  | [] => true
  | o :: ops' =>
      match o with
      | Insert value w prefix => bool_decide (insert_pre t value w prefix)
      | Remove _ => true
      end
      && match run_op t o with
         | Some t' => legal t' ops'
         | None => false
         end
  end.

(** The tree left by the calls [ops] ([empty] if one of them raises). *)
Definition tree_of (ops : list op) : tree := default empty (run ops).

(** Representation invariant: the weight of every non-empty non-leaf node
    is the sum of the weights of its subtrees. *)
Fixpoint weights_consistent (t : tree) : bool :=
  match t with
  | Node r w ts =>
      (is_empty (Node r w ts) || is_leaf (Node r w ts)
       || bool_decide (w = sum_weights ts))
      && forallb weights_consistent ts
  end.

(** [sorted_desc ts]: the weights of [ts] are non-increasing. *)
Fixpoint sorted_desc (ts : list tree) : bool :=
  match ts with
  | [] => true
  | c :: ts' =>
      match ts' with
      | [] => true
      | d :: _ => bool_decide (weight d ≤ weight c) && sorted_desc ts'
      end
  end.

(** Representation invariant: every [subtrees] list is sorted. *)
Fixpoint subtrees_sorted (t : tree) : bool :=
  match t with
  | Node r w ts => sorted_desc ts && forallb subtrees_sorted ts
  end.

(** A compressible node: an internal node below the root with exactly one
    subtree. *)
Definition single_child (t : tree) : bool :=
  negb (is_empty t) && negb (is_leaf t) && bool_decide (length (subtrees t) = 1%nat).

Fixpoint has_compressible (t : tree) : bool :=
  match t with
  | Node r w ts =>
      existsb (λ c, single_child c) ts || existsb has_compressible ts
  end.

(** ** Structural invariant of reachable trees *)

(** [inner q w ts]: [ts] is a legal list of subtrees for a node of prefix
    [q] and weight [w].  [wf par t]: [t] is a legal subtree of a node of
    prefix [par]. *)
Fixpoint wf (par : list sym) (t : tree) : Prop :=
  match t with
  | Node r w ts =>
      0 < w ∧
      match r with
      | RValue _ => ts = []
      | RPrefix q =>
          (∃ s, q = par ++ [s]) ∧
          sum_weights ts ≤ w ∧
          NoDup (root <$> ts) ∧
          (fix all (ts : list tree) : Prop :=
             match ts with
             | [] => True
             | c :: ts' => wf q c ∧ all ts'
             end) ts
      end
  end.

Definition inner (q : list sym) (w : Qc) (ts : list tree) : Prop :=
  sum_weights ts ≤ w ∧ NoDup (root <$> ts) ∧ Forall (wf q) ts.

Definition wf_top (t : tree) : Prop :=
  root t = RPrefix [] ∧ inner [] (weight t) (subtrees t).

(** What one call on a subtree may do to it: empty it, or keep its [root]
    and not increase its weight. *)
Definition shrinks (q : list sym) (rm : tree → tree) (c : tree) : Prop :=
  weight (rm c) = 0 ∨
  (wf q (rm c) ∧ root (rm c) = root c ∧ weight (rm c) ≤ weight c).

(** [has_child c]: a node whose [root] is a prefix has a subtree. *)
Definition has_child (c : tree) : Prop :=
  match root c with RPrefix _ => subtrees c ≠ [] | RValue _ => True end.

(** [tight t]: in [t], every node with subtrees weighs exactly their sum, and
    every node below the top whose [root] is a prefix has a subtree.  This
    is what insertions alone maintain. *)
Fixpoint tight (t : tree) : Prop :=
  match t with
  | Node r w ts =>
      (ts ≠ [] → w = sum_weights ts) ∧
      (fix all (ts : list tree) : Prop :=
         match ts with
         | [] => True
         | c :: ts' => (has_child c ∧ tight c) ∧ all ts'
         end) ts
  end.

(** What [autocomplete] makes of the list of matching leaves. *)
Definition result_of (limit : option Z) (leaves : list tree)
    : list (root_t * Qc) :=
  match limit with
  | None => sort_desc snd (leaf_pair <$> leaves)
  | Some n =>
      leaf_pair <$> take (Z.to_nat (Z.min n (Z.of_nat (length leaves)))) leaves
  end.
End prefix_tree.

Arguments root_t : clear implicits.
Arguments tree : clear implicits.
Arguments method : clear implicits.
Arguments op : clear implicits.
Arguments sum_weights : simpl never.

(** The documented precondition of [autocomplete]:
    [limit is None or limit > 0]. *)
Definition limit_ok (limit : option Z) : Prop :=
  match limit with
  | None => True
  | Some n => (0 < n)%Z
  end.

#[global] Instance limit_ok_dec limit : Decision (limit_ok limit).
Proof. destruct limit; apply _. Defined.

(** [autocomplete] as it is called: [check_contracts] raises
    [AssertionError] ([None]) on entry unless [limit_ok limit]; otherwise
    the call returns what [autocomplete] computes, the calls on the subtrees
    carrying the same limit. *)
Definition autocomplete_call {sym val : Type} `{EqDecision sym, EqDecision val}
    (t : tree sym val) (prefix : list sym) (limit : option Z)
    : option (list (root_t sym val * Qc)) :=
  if decide (limit_ok limit) then Some (autocomplete t prefix limit) else None.

(** ** [CompressedPrefixTree]

    [class CompressedPrefixTree(SimplePrefixTree)] declares the type of
    [subtrees] and nothing else: every method is the inherited one, and the
    nodes that [insert] allocates are those of [create_node]. *)
Module CompressedPrefixTree.
Section methods.
Context {sym val : Type} `{EqDecision sym, EqDecision val}.

Definition insert : tree sym val → val → Qc → list sym → option (tree sym val) :=
  insert.
Definition remove : tree sym val → list sym → tree sym val := remove.
Definition autocomplete
    : tree sym val → list sym → option Z → list (root_t sym val * Qc) :=
  autocomplete.

Definition run_op (t : tree sym val) (o : op sym val) : option (tree sym val) :=
  match o with
  | Insert value w prefix => insert t value w prefix
  | Remove prefix => Some (remove t prefix)
  end.

Fixpoint run_from (t : tree sym val) (ops : list (op sym val))
    : option (tree sym val) :=
  match ops with
  | [] => Some t
  | o :: ops' => t' ← run_op t o; run_from t' ops'
  end.

(** The tree left by the calls [ops] on a new [CompressedPrefixTree()]. *)
Definition tree_of (ops : list (op sym val)) : tree sym val :=
  default empty (run_from empty ops).
End methods.
End CompressedPrefixTree.

(** ** The methods on binary64 weights

    The same methods once more, with the [weight] attribute a binary64
    number as in Python: [+] and [-] round to nearest, ties to even, and
    [==] and [>] are the comparisons of IEEE 754.  A method is the method of
    the same name above with [PrimFloat.add], [PrimFloat.sub],
    [PrimFloat.eqb] and [PrimFloat.ltb] in the place of the operations of
    [Qc].  [sort_desc] describes [list.sort] on keys none of which is a
    NaN. *)
Module Float64.
Section methods.
Context {sym val : Type} `{EqDecision sym, EqDecision val}.

#[local] Unset Elimination Schemes.
Inductive tree := Node {
  root : root_t sym val;
  weight : PrimFloat.float;
  subtrees : list tree
}.
#[local] Set Elimination Schemes.

Fixpoint insert_desc {A : Type} (key : A → PrimFloat.float) (x : A) (l : list A)
    : list A :=
  match l with
  | [] => [x]
  | y :: l' =>
      if PrimFloat.ltb (key x) (key y) then y :: insert_desc key x l'
      else x :: y :: l'
  end.

Definition sort_desc {A : Type} (key : A → PrimFloat.float) (l : list A) : list A :=
  foldr (insert_desc key) [] l.

Definition empty : tree := Node (RPrefix []) 0%float [].

Definition is_empty (t : tree) : bool := PrimFloat.eqb (weight t) 0%float.

Definition is_leaf (t : tree) : bool :=
  match subtrees t with [] => PrimFloat.ltb 0%float (weight t) | _ => false end.

Fixpoint len (t : tree) : nat :=
  match t with
  | Node r w ts =>
      if is_empty (Node r w ts) then 0%nat
      else if is_leaf (Node r w ts) then 1%nat
      else sum_list (len <$> ts)
  end.

Definition get_subtree_roots (ts : list tree) : list (root_t sym val) :=
  root <$> ts.

Fixpoint get_leaf_value (t : tree) : list (root_t sym val) :=
  match t with
  | Node r w ts =>
      if is_empty (Node r w ts) then []
      else if is_leaf (Node r w ts) then [r]
      else ts ≫= get_leaf_value
  end.

Fixpoint get_leaves (t : tree) : list tree :=
  match t with
  | Node r w ts =>
      if is_empty (Node r w ts) then []
      else if is_leaf (Node r w ts) then [Node r w ts]
      else ts ≫= get_leaves
  end.

Definition create_node (initial : root_t sym val) (value : list sym)
    (w : PrimFloat.float) : option tree :=
  match initial with
  | RPrefix r => Some (Node (RPrefix (r ++ value)) w [])
  | RValue _ => None
  end.

Definition sort_subtrees (t : tree) : tree :=
  Node (root t) (weight t) (sort_desc weight (subtrees t)).

Fixpoint bump (value : val) (w : PrimFloat.float) (self_weight : PrimFloat.float)
    (ts : list tree) : PrimFloat.float * list tree :=
  match ts with
  | [] => (self_weight, [])
  | c :: ts' =>
      if bool_decide (root c = RValue value) then
        let '(sw, ts'') := bump value w (self_weight + w)%float ts' in
        (sw, Node (root c) (weight c + w)%float (subtrees c) :: ts'')
      else
        let '(sw, ts'') := bump value w self_weight ts' in
        (sw, c :: ts'')
  end.

Fixpoint insert (t : tree) (value : val) (w : PrimFloat.float) (prefix : list sym)
    {struct prefix} : option tree :=
  if PrimFloat.ltb 0%float w then
    match prefix with
    | [] =>
        let leaf := Node (RValue value) w [] in
        let t' :=
          match subtrees t with
          | [] => Node (root t) w [leaf]
          | _ :: _ =>
              if bool_decide (RValue value ∉ get_leaf_value t) then
                Node (root t) (weight t + w)%float (subtrees t ++ [leaf])
              else
                let '(sw, ts) := bump value w (weight t) (subtrees t) in
                Node (root t) sw ts
          end in
        Some (sort_subtrees t')
    | s :: prefix' =>
        node ← create_node (root t) [s] w;
        if bool_decide (root node ∉ get_subtree_roots (subtrees t)) then
          let ts := subtrees t ++ [node] in
          let w' :=
            if bool_decide (length ts ≤ 1)%nat then w
            else (weight t + w)%float in
          new ← insert node value w prefix';
          Some (sort_subtrees (Node (root t) w' (subtrees t ++ [new])))
        else
          index ← py_index (root node) (get_subtree_roots (subtrees t));
          c ← subtrees t !! index;
          c' ← insert c value w prefix';
          Some (sort_subtrees
                  (Node (root t) (weight t + w)%float
                        (<[index := c']> (subtrees t))))
    end
  else None.

Fixpoint remove_loop (rm : tree → tree) (self_weight : PrimFloat.float)
    (ts : list tree) : PrimFloat.float * list tree :=
  match ts with
  | [] => (self_weight, [])
  | c :: rest =>
      let subtree_wt := weight c in
      let c' := rm c in
      if is_empty c' then
        match rest with
        | [] => ((self_weight - subtree_wt)%float, [])
        | skipped :: rest' =>
            let '(sw, ts') :=
              remove_loop rm (self_weight - subtree_wt)%float rest' in
            (sw, skipped :: ts')
        end
      else
        let '(sw, ts') := remove_loop rm self_weight rest in
        (sw, c' :: ts')
  end.

Fixpoint remove (t : tree) (prefix : list sym) : tree :=
  match t with
  | Node r w ts =>
      match prefix with
      | [] => empty
      | _ :: _ =>
          if bool_decide (r = RPrefix prefix) then empty
          else
            let '(sw, ts') := remove_loop (λ c, remove c prefix) w ts in
            Node r sw ts'
      end
  end.

Definition leaf_pair (leaf : tree) : root_t sym val * PrimFloat.float :=
  (root leaf, weight leaf).

Fixpoint autocomplete (t : tree) (prefix : list sym) (limit : option Z)
    : list (root_t sym val * PrimFloat.float) :=
  match t with
  | Node r w ts =>
      if bool_decide (r = RPrefix prefix) then
        let leaves := get_leaves (Node r w ts) in
        match limit with
        | None => sort_desc snd (leaf_pair <$> leaves)
        | Some n =>
            leaf_pair <$>
              take (Z.to_nat (Z.min n (Z.of_nat (length leaves)))) leaves
        end
      else ts ≫= (λ c, autocomplete c prefix limit)
  end.

(** The call with its contract, as [autocomplete_call] above. *)
Definition autocomplete_call (t : tree) (prefix : list sym) (limit : option Z)
    : option (list (root_t sym val * PrimFloat.float)) :=
  if decide (limit_ok limit) then Some (autocomplete t prefix limit) else None.

Inductive op :=
| Insert (value : val) (w : PrimFloat.float) (prefix : list sym)
| Remove (prefix : list sym).

Definition run_op (t : tree) (o : op) : option tree :=
  match o with
  | Insert value w prefix => insert t value w prefix
  | Remove prefix => Some (remove t prefix)
  end.

Fixpoint run_from (t : tree) (ops : list op) : option tree :=
  match ops with
  | [] => Some t
  | o :: ops' => t' ← run_op t o; run_from t' ops'
  end.

Definition run (ops : list op) : option tree := run_from empty ops.

(** The values that the tree holds: the leaves whose [root] is a value,
    with their prefix sequence and weight, whatever
    the weights of the nodes above them. *)
Fixpoint held (par : list sym) (t : tree) : list (list sym * val * PrimFloat.float) :=
  match t with
  | Node r w ts =>
      match r with
      | RValue v => [(par, v, w)]
      | RPrefix q => ts ≫= held q
      end
  end.
End methods.

Arguments tree : clear implicits.
Arguments op : clear implicits.
End Float64.

(** ** The scenarios of the test suite *)

(** A float literal. *)
Definition float (q : Q) : Qc := Q2Qc q.
Arguments float q%_Q_scope.

Definition cat : op string string := Insert "cat" (float 2.0) ["c"; "a"; "t"].
Definition car : op string string := Insert "car" (float 3.0) ["c"; "a"; "r"].
Definition dog : op string string := Insert "dog" (float 4.0) ["d"; "o"; "g"].
Definition cow : op string string := Insert "cow" (float 4.0) ["c"; "o"; "w"].

Definition star (w : Qc) : op string string :=
  Insert "a star is born" w ["a"; "star"; "is"; "born"].

(** [test_simple_prefix_tree_structure] *)
Definition scenario_A : list (op string string) := [cat; car; dog].
(** [test_simple_prefix_tree_autocomplete] *)
Definition scenario_B : list (op string string) := [dog; cat; car].
(** [test_simple_prefix_tree_remove] *)
Definition scenario_C : list (op string string) :=
  [cat; car; dog; Remove ["c"; "a"]].
(** [test_sentence_autocompleter]: one sentence inserted twice *)
Definition scenario_D : list (op string string) :=
  [star (float 15.0); star (float 6.5)].

(** Calls after which an ancestor keeps a stale weight. *)
Definition stale_weight_calls : list (op string string) :=
  [cat; car; Remove ["c"; "a"; "t"]].
(** Calls after which a subtrees list is out of order. *)
Definition unsorted_calls : list (op string string) :=
  [cat; car; cow; Remove ["c"; "a"; "r"]].
(** Calls that remove every value and leave a node behind. *)
Definition stray_node_calls : list (op string string) :=
  [cat; car; Remove ["c"; "a"; "t"]; Remove ["c"; "a"; "r"]].

(** Calls in which a binary64 addition rounds: [1.0 + 2.0 ** -60] is
    [1.0].  The value "y" is inserted under [["b"]]; under the empty prefix
    sequence; under the empty prefix sequence and once more after the
    removal. *)
Definition absorbed_weight_calls : list (Float64.op string string) :=
  [Float64.Insert "x" 1%float ["a"];
   Float64.Insert "y" 0x1p-60%float ["b"];
   Float64.Remove ["a"]].
Definition absorbed_leaf_calls : list (Float64.op string string) :=
  [Float64.Insert "x" 1%float ["a"];
   Float64.Insert "y" 0x1p-60%float [];
   Float64.Remove ["a"]].
Definition second_leaf_calls : list (Float64.op string string) :=
  absorbed_leaf_calls ++ [Float64.Insert "y" 0x1p-60%float []].

(** The prefix sequence of a word in the letter engine: its letters. *)
Definition letters (word : string) : list string :=
  (λ c, String c EmptyString) <$> String.list_ascii_of_string word.

(** A Python string as the list of its characters. *)
Definition chars (s : string) : list Ascii.ascii :=
  String.list_ascii_of_string s.

(** A call of the sentence engine. *)
Definition star_chars : op (list Ascii.ascii) (list Ascii.ascii) :=
  Insert (chars "a star") (float 15.0) [chars "a"; chars "star"].

(** ** Vocabulary for the further properties *)

(** The sum of a list of weights, and a count as a weight. *)
Definition sum_list (ws : list Qc) : Qc := foldr Qcplus 0 ws.
Definition Qc_of_nat (n : nat) : Qc := Q2Qc (inject_Z (Z.of_nat n)).

Section more_vocabulary.
Context {sym val : Type} `{EqDecision sym, EqDecision val}.

(** Every node of a tree, the tree itself first. *)
Fixpoint nodes (t : tree sym val) : list (tree sym val) :=
  match t with
  | Node r w ts => Node r w ts :: (ts ≫= nodes)
  end.

(** [extends_parent n c]: how the [root] of a subtree [c] relates to the
    [root] of its parent [n]: one more symbol, or a value without subtrees. *)
Definition extends_parent (n c : tree sym val) : Prop :=
  match root c with
  | RPrefix q' => ∃ q s, root n = RPrefix q ∧ q' = q ++ [s]
  | RValue _ => subtrees c = []
  end.

(** What holds at every node of a subtree of a reachable tree. *)
Definition node_ok (n : tree sym val) : Prop :=
  0 < weight n ∧
  sum_weights (subtrees n) ≤ weight n ∧
  Forall (λ c, 0 < weight c) (subtrees n) ∧
  NoDup (root <$> subtrees n) ∧
  Forall (extends_parent n) (subtrees n).

(** The stored values below a subtree [t] of a node of prefix [par]. *)
Definition stored_in (par : list sym) (t : tree sym val)
    : list (list sym * val * Qc) :=
  omap (λ x, match root x.2 with
             | RValue v => Some (x.1, v, weight x.2)
             | RPrefix _ => None
             end) (leaf_paths par t).

(** [untouched prefix q c]: [remove(prefix)] leaves the subtree [c] of a
    node of prefix [q] alone, and no leaf of [c] begins with [prefix]. *)
Definition untouched (prefix q : list sym) (c : tree sym val) : Prop :=
  remove c prefix = c ∧ is_empty c = false ∧
  ∀ x, x ∈ leaf_paths q c → ¬ prefix `prefix_of` x.1.

(** *** The stored values as a dictionary

    [model_op] is what a call does to the list of stored values, seen as
    entries (prefix sequence, value, weight). *)
Definition model_insert (m : list (list sym * val * Qc))
    (value : val) (w : Qc) (prefix : list sym) : list (list sym * val * Qc) :=
  if bool_decide (value ∈ (λ e, e.1.2) <$> m) then
    (λ e, if bool_decide (e.1.2 = value) then (e.1, e.2 + w) else e) <$> m
  else m ++ [(prefix, value, w)].

Definition model_remove (m : list (list sym * val * Qc)) (prefix : list sym)
    : list (list sym * val * Qc) :=
  filter (λ e, ¬ prefix `prefix_of` e.1.1) m.

Definition model_op (m : list (list sym * val * Qc)) (o : op sym val)
    : list (list sym * val * Qc) :=
  match o with
  | Insert value w prefix => model_insert m value w prefix
  | Remove prefix => model_remove m prefix
  end.

Definition model (ops : list (op sym val)) : list (list sym * val * Qc) :=
  foldl model_op [] ops.

(** The weight inserted for [value] by the calls [ops]. *)
Fixpoint total (value : val) (ops : list (op sym val)) : Qc :=
  match ops with
  | [] => 0
  | Insert v w _ :: ops' =>
      if bool_decide (v = value) then w + total value ops' else total value ops'
  | Remove _ :: ops' => total value ops'
  end.

(** The weight inserted by the calls [ops]. *)
Fixpoint inserted_weight (ops : list (op sym val)) : Qc :=
  match ops with
  | [] => 0
  | Insert _ w _ :: ops' => w + inserted_weight ops'
  | Remove _ :: ops' => inserted_weight ops'
  end.

Definition is_insert (o : op sym val) : Prop :=
  match o with Insert _ _ _ => True | Remove _ => False end.

(** [keyed_op pf o]: an insertion has a positive weight and passes the
    prefix sequence [pf value], a function of the value, as the three
    engines do. *)
Definition keyed_op (pf : val → list sym) (o : op sym val) : Prop :=
  match o with
  | Insert value w prefix => 0 < w ∧ prefix = pf value
  | Remove _ => True
  end.

(** *** Calls on which binary64 arithmetic is exact

    The numbers [k * 2^-e] with [k] an integer, [|k| ≤ 2^53] and [e ≤ 1074]
    are binary64 numbers, and a sum or a difference of two of them that is
    again one of them is computed without rounding.  [exact_weights e ws]:
    every weight of [ws] is a multiple of [2^-e], and the weights add up to
    at most [2^53 * 2^-e]; [exact_calls e ops]: so are the weights that the
    calls [ops] insert.  The weights in a tree built by
    such calls, and the intermediate values of the loops, are then
    multiples of [2^-e] between 0 and that bound ([built_weights] below):
    the Python objects hold the rationals computed here. *)

(** [2 ^ n] as a weight. *)
Definition pow2 (n : nat) : Qc := Q2Qc (inject_Z (2 ^ Z.of_nat n)).

(** [grid e w]: [w * 2^e] is an integer. *)
Definition grid (e : nat) (w : Qc) : Prop :=
  Qden (this (w * pow2 e)%Qc) = 1%positive.

Definition exact_weights (e : nat) (ws : list Qc) : Prop :=
  (e ≤ 1074)%nat ∧ Forall (grid e) ws ∧ sum_list ws * pow2 e ≤ pow2 53.

(** The weights that the calls [ops] insert. *)
Definition weights_of (ops : list (op sym val)) : list Qc :=
  omap (λ o, match o with Insert _ w _ => Some w | Remove _ => None end) ops.

Definition exact_calls (e : nat) (ops : list (op sym val)) : Prop :=
  exact_weights e (weights_of ops).

Definition exact (ops : list (op sym val)) : Prop := ∃ e, exact_calls e ops.

(** [built ops t]: the calls [ops], made on a new [SimplePrefixTree()],
    meet their preconditions, compute without rounding, and leave the
    tree [t]. *)
Definition built (ops : list (op sym val)) (t : tree sym val) : Prop :=
  legal empty ops = true ∧ exact ops ∧ run ops = Some t.

#[global] Instance grid_dec e w : Decision (grid e w).
Proof. unfold grid. apply _. Defined.

#[global] Instance exact_weights_dec e ws : Decision (exact_weights e ws).
Proof. unfold exact_weights. apply _. Defined.

#[global] Instance exact_calls_dec e ops : Decision (exact_calls e ops).
Proof. unfold exact_calls. apply _. Defined.
End more_vocabulary.

(** ** The engines of [ACS_autocomplete_engines.py]

    An engine reads a file, turns every line or row into one call of
    [insert] with a prefix sequence computed from the value, and hands the
    later calls to its tree.  The content of the file is the argument here:
    the lines of a text file, or the rows that [csv.reader] yields, with the
    weights already converted by [float].  [str.isalnum], [str.lower] and
    [int] are parameters.  Both values of [config['autocompleter']] give a
    tree with the methods of [SimplePrefixTree]. *)

Section py_list_methods.
Context {A : Type} `{EqDecision A}.

(** [l.count(x)] *)
Definition py_count (x : A) (l : list A) : nat :=
  length (filter (λ y, y = x) l).

(** [l.remove(x)] deletes the first element equal to [x]; [None] stands for
    [ValueError]. *)
Fixpoint py_remove (x : A) (l : list A) : option (list A) :=
  match l with
  | [] => None
  | y :: l' => if decide (y = x) then Some l' else (y ::.) <$> py_remove x l'
  end.

(** [for _ in range(n): l.remove(x)] *)
Fixpoint remove_times (n : nat) (x : A) (l : list A) : option (list A) :=
  match n with
  | O => Some l
  | S n' => l' ← py_remove x l; remove_times n' x l'
  end.
End py_list_methods.

Section text.
Context {char : Type} `{EqDecision char}.
(** [str.isalnum] on one character, the character [' '], [str.lower]. *)
Variable isalnum : char → bool.
Variable space : char.
Variable lower : list char → list char.

(** The loop that both text engines run on a line: the alphanumeric
    characters and the spaces are kept, then the string is lowered. *)
Definition sanitize (line : list char) : list char :=
  lower (foldl (λ new_word c,
                  if isalnum c || bool_decide (c = space)
                  then new_word ++ [c] else new_word) [] line).

(** [s.split(' ')] *)
Fixpoint split (s : list char) : list (list char) :=
  match s with
  | [] => [[]]
  | c :: s' =>
      if decide (c = space) then [] :: split s'
      else match split s' with
           | word :: words => (c :: word) :: words
           | [] => [[c]]
           end
  end.

(** The prefix sequence of a sentence: [s.split(' ')], from which the empty
    strings are deleted one at a time. *)
Definition sentence_prefix (s : list char) : option (list (list char)) :=
  let prefix := split s in
  remove_times (py_count [] prefix) [] prefix.
End text.

Module LetterAutocompleteEngine.
Section methods.
Context {char : Type} `{EqDecision char}.
Variable isalnum : char → bool.
Variable space : char.
Variable lower : list char → list char.

(** [__init__], given the lines of the file: a string is its own prefix
    sequence, one character at a time. *)
Definition init (lines : list (list char)) : option (tree char (list char)) :=
  let words := sanitize isalnum space lower <$> lines in
  foldl (λ self word, t ← self; insert t word (float 1.0) word)
        (Some empty) words.

(** The engines state the precondition of [autocomplete] again. *)
Definition autocomplete (t : tree char (list char)) (prefix : list char)
    (limit : option Z) : option (list (root_t char (list char) * Qc)) :=
  if decide (limit_ok limit) then autocomplete_call t prefix limit else None.

Definition remove (t : tree char (list char)) (prefix : list char)
    : tree char (list char) :=
  remove t prefix.
End methods.
End LetterAutocompleteEngine.

Module SentenceAutocompleteEngine.
Section methods.
Context {char : Type} `{EqDecision char}.
Variable isalnum : char → bool.
Variable space : char.
Variable lower : list char → list char.

(** [__init__], given the rows of the file as pairs of [line[0]] and
    [float(line[1])]; [sentences[i]] and [weights[i]] are read in step. *)
Definition init (rows : list (list char * Qc))
    : option (tree (list char) (list char)) :=
  let sentences := (λ line, sanitize isalnum space lower line.1) <$> rows in
  let weights := snd <$> rows in
  foldl (λ self row,
           t ← self;
           prefix ← sentence_prefix space row.1;
           insert t row.1 row.2 prefix)
        (Some empty) (zip sentences weights).

Definition autocomplete (t : tree (list char) (list char)) (prefix : list char)
    (limit : option Z) : option (list (root_t (list char) (list char) * Qc)) :=
  if decide (limit_ok limit) then
    prefix_2 ← sentence_prefix space prefix;
    autocomplete_call t prefix_2 limit
  else None.

Definition remove (t : tree (list char) (list char)) (prefix : list char)
    : option (tree (list char) (list char)) :=
  prefix_2 ← sentence_prefix space prefix;
  Some (remove t prefix_2).
End methods.
End SentenceAutocompleteEngine.

(** A [Melody] object of [ACS_melody.py].  The class defines no [__eq__]:
    two melodies are equal when they are the same object, which the
    position of the row that created the object stands for. *)
Record Melody {entry : Type} := {
  melody_id : nat;
  name : entry;
  notes : list (Z * Z)
}.
Arguments Melody : clear implicits.

#[global] Instance Melody_eq_dec {entry : Type} `{EqDecision entry} :
  EqDecision (Melody entry).
Proof. solve_decision. Defined.

(** The representation invariants that the class documents; [blank] is the
    string ['']. *)
Definition melody_ok {entry : Type} (blank : entry) (m : Melody entry) : Prop :=
  name m ≠ blank ∧ notes m ≠ [] ∧
  Forall (λ note, (21 ≤ note.1 ≤ 108)%Z) (notes m) ∧
  Forall (λ note, (0 < note.2)%Z) (notes m).

#[global] Instance melody_ok_dec {entry : Type} `{EqDecision entry}
    (blank : entry) (m : Melody entry) : Decision (melody_ok blank m).
Proof. unfold melody_ok. apply _. Defined.

Module MelodyAutocompleteEngine.
Section methods.
Context {entry : Type} `{EqDecision entry}.
(** The entry [''], and [int(s)] with [None] for [ValueError]. *)
Variable blank : entry.
Variable int : entry → option Z.

(** The pairs (pitch, duration) of a row.  On an odd number of entries
    [line[i + 1]] raises [IndexError] (or [int(line[i])] raises first). *)
Fixpoint notes_of (line : list entry) : option (list (Z * Z)) :=
  match line with
  | [] => Some []
  | a :: line' =>
      match line' with
      | [] => None
      | b :: line'' =>
          pitch ← int a;
          duration ← int b;
          notes ← notes_of line'';
          Some ((pitch, duration) :: notes)
      end
  end.

(** One row: the name, then the entries up to the first blank one.
    [line[0]] raises [IndexError] on an empty row, and [Melody(name, notes)]
    raises [AssertionError] when the new object does not meet the
    representation invariants of the class, which [check_contracts]
    checks. *)
Definition parse (i : nat) (line : list entry) : option (Melody entry) :=
  name ← head line;
  let line' := match py_index blank line with
               | Some index => take (index - 1) (drop 1 line)
               | None => drop 1 line
               end in
  notes ← notes_of line';
  let melody := {| melody_id := i; name := name; notes := notes |} in
  if decide (melody_ok blank melody) then Some melody else None.

(** The melodies of the rows from position [i] on. *)
Fixpoint parse_rows (i : nat) (rows : list (list entry))
    : option (list (Melody entry)) :=
  match rows with
  | [] => Some []
  | line :: rows' =>
      melody ← parse i line;
      melodies ← parse_rows (S i) rows';
      Some (melody :: melodies)
  end.

(** The interval sequence: the differences of consecutive pitches. *)
Fixpoint interval (notes : list (Z * Z)) : list Z :=
  match notes with
  | [] => []
  | a :: rest =>
      match rest with
      | [] => []
      | b :: _ => (b.1 - a.1)%Z :: interval rest
      end
  end.

(** [__init__], given the rows of the file. *)
Definition init (rows : list (list entry)) : option (tree Z (Melody entry)) :=
  melodies ← parse_rows 0 rows;
  foldl (λ self melody,
           t ← self; insert t melody (float 1.0) (interval (notes melody)))
        (Some empty) melodies.

Definition autocomplete (t : tree Z (Melody entry)) (prefix : list Z)
    (limit : option Z) : option (list (root_t Z (Melody entry) * Qc)) :=
  if decide (limit_ok limit) then autocomplete_call t prefix limit else None.

Definition remove (t : tree Z (Melody entry)) (prefix : list Z)
    : tree Z (Melody entry) :=
  remove t prefix.
End methods.
End MelodyAutocompleteEngine.

(** * Proofs *)

Lemma Qc_eq_Qeq (a b : Qc) : a = b ↔ (a == b)%Q.
Proof. split; [by intros ->|apply Qc_is_canon]. Qed.

(** Linear arithmetic over [Qc], by translation to [Q]. *)
Ltac qc_arith :=
  intros; cbn [weight] in *;
  repeat match goal with
  | |- context [sum_weights ?l] =>
      let s := fresh "s" in set (s := sum_weights l) in *; clearbody s
  | H : context [sum_weights ?l] |- _ =>
      let s := fresh "s" in set (s := sum_weights l) in *; clearbody s
  | |- context [weight ?t] =>
      let s := fresh "s" in set (s := weight t) in *; clearbody s
  | H : context [weight ?t] |- _ =>
      let s := fresh "s" in set (s := weight t) in *; clearbody s
  end;
  repeat match goal with
  | H : @eq Qc _ _ |- _ => apply Qc_eq_Qeq in H
  | H : ¬ @eq Qc _ _ |- _ => rewrite Qc_eq_Qeq in H
  | H : ¬ Qcle _ _ |- _ => apply Qcnot_le_lt in H
  | H : ¬ Qclt _ _ |- _ => apply Qcnot_lt_le in H
  | |- @eq Qc _ _ => apply Qc_is_canon
  | |- ¬ @eq Qc _ _ => rewrite Qc_eq_Qeq
  | |- ¬ Qcle _ _ => apply Qclt_not_le
  | |- ¬ Qclt _ _ => apply Qcle_not_lt
  end;
  unfold Qcle, Qclt, Qcminus, Qcopp, Qcplus, Q2Qc in *; cbn [this] in *;
  rewrite ?Qred_correct in *; lra.

Section py_list_facts.
Context {A : Type} (key : A → Qc).

Lemma insert_desc_perm x l : insert_desc key x l ≡ₚ x :: l.
Proof.
  induction l as [|y l IH]; simpl; [done|].
  case_bool_decide; [|done].
  rewrite IH. apply Permutation_swap.
Qed.

Lemma sort_desc_perm l : sort_desc key l ≡ₚ l.
Proof.
  induction l as [|x l IH]; simpl; [done|].
  by rewrite insert_desc_perm, IH.
Qed.

Lemma insert_desc_sorted x l :
  StronglySorted (desc key) l → StronglySorted (desc key) (insert_desc key x l).
Proof.
  induction 1 as [|y l Hl IH Hy]; simpl.
  { repeat constructor. }
  case_bool_decide as Hlt.
  - constructor; [done|].
    rewrite insert_desc_perm. constructor; [|done].
    unfold desc. by apply Qclt_le_weak.
  - constructor; [by constructor|].
    assert (key y ≤ key x) as Hyx by by apply Qcnot_lt_le.
    constructor; [done|].
    eapply Forall_impl; [exact Hy|].
    unfold desc. intros z Hz. by trans (key y).
Qed.

Lemma sort_desc_sorted l : StronglySorted (desc key) (sort_desc key l).
Proof.
  induction l; simpl; [constructor|by apply insert_desc_sorted].
Qed.

Lemma insert_desc_id x l :
  Forall (λ y, key y ≤ key x) l → insert_desc key x l = x :: l.
Proof.
  destruct 1 as [|y l Hy _]; simpl; [done|].
  case_bool_decide; [|done]. by destruct (Qclt_not_le (key x) (key y)).
Qed.

(** A sorted list is left alone: the sort is stable. *)
Lemma sort_desc_id l : StronglySorted (desc key) l → sort_desc key l = l.
Proof.
  induction 1 as [|x l _ IH Hx]; simpl; [done|].
  rewrite IH. by apply insert_desc_id.
Qed.

Lemma sort_desc_nil_inv l : sort_desc key l = [] → l = [].
Proof.
  intros Hl. apply Permutation_nil_r. by rewrite <-Hl, sort_desc_perm.
Qed.
End py_list_facts.

Section prefix_tree_facts.
Context {sym val : Type} `{EqDecision sym, EqDecision val}.
Abbreviation tree := (tree sym val).
Abbreviation root_t := (root_t sym val).
Implicit Types (t c : tree) (ts : list tree) (p q par prefix : list sym).
Implicit Types (w : Qc) (v value : val) (r : root_t).

(** Induction on trees, with the hypothesis for every subtree. *)
Lemma tree_ind (P : tree → Prop) :
  (∀ r w ts, Forall P ts → P (Node r w ts)) → ∀ t, P t.
Proof.
  intros Hnode. fix IH 1. intros [r w ts]. apply Hnode.
  induction ts as [|c ts IHts]; constructor; [apply IH|apply IHts].
Qed.

(** *** Sums of weights *)

Lemma sum_weights_nil : sum_weights ([] : list tree) = 0.
Proof. done. Qed.

Lemma sum_weights_cons c ts : sum_weights (c :: ts) = weight c + sum_weights ts.
Proof. done. Qed.

Lemma sum_weights_app ts1 ts2 :
  sum_weights (ts1 ++ ts2) = sum_weights ts1 + sum_weights ts2.
Proof.
  induction ts1 as [|c ts1 IH]; simpl.
  - unfold sum_weights at 2. simpl. by rewrite Qcplus_0_l.
  - rewrite !sum_weights_cons, IH. ring.
Qed.

Lemma sum_weights_perm ts1 ts2 :
  ts1 ≡ₚ ts2 → sum_weights ts1 = sum_weights ts2.
Proof.
  induction 1 as [|c ts1 ts2 _ IH|c d ts|ts1 ts2 ts3 _ IH1 _ IH2];
    rewrite ?sum_weights_cons; [done|by rewrite IH|ring|congruence].
Qed.

Lemma sum_weights_nonneg ts :
  Forall (λ c, 0 < weight c) ts → 0 ≤ sum_weights ts.
Proof.
  induction 1 as [|c ts Hc _ IH]; [done|].
  rewrite sum_weights_cons. qc_arith.
Qed.

Lemma sum_weights_pos ts :
  Forall (λ c, 0 < weight c) ts → ts ≠ [] → 0 < sum_weights ts.
Proof.
  destruct 1 as [|c ts Hc Hts]; [done|]. intros _.
  apply sum_weights_nonneg in Hts. rewrite sum_weights_cons. qc_arith.
Qed.

Lemma sum_weights_insert ts i c c' :
  ts !! i = Some c →
  sum_weights (<[i:=c']> ts) + weight c = sum_weights ts + weight c'.
Proof.
  revert i. induction ts as [|d ts IH]; intros [|i] Hi; simplify_eq/=.
  - rewrite !sum_weights_cons. ring.
  - rewrite !sum_weights_cons. specialize (IH _ Hi). qc_arith.
Qed.

(** *** The structural invariant *)

Lemma wf_unfold par r w ts :
  wf par (Node r w ts) ↔
  0 < w ∧ match r with
          | RValue _ => ts = []
          | RPrefix q => (∃ s, q = par ++ [s]) ∧ inner q w ts
          end.
Proof.
  unfold inner. simpl. destruct r as [q|v]; [|done].
  assert (∀ l : list tree,
    (fix all (ts : list tree) : Prop :=
       match ts with [] => True | c :: ts' => wf q c ∧ all ts' end) l
    ↔ Forall (wf q) l) as Hall.
  { induction l as [|c l IH]; [by split; [constructor|]|].
    rewrite Forall_cons, IH. done. }
  rewrite Hall. done.
Qed.

Lemma wf_weight_pos par c : wf par c → 0 < weight c.
Proof. destruct c. rewrite wf_unfold. by intros [? _]. Qed.

Lemma wf_leaf par v w : 0 < w → wf par (Node (RValue v) w []).
Proof. by rewrite wf_unfold. Qed.

Lemma wf_children_pos q ts : Forall (wf q) ts → Forall (λ c, 0 < weight c) ts.
Proof. intros Hts. eapply Forall_impl; [done|]. apply wf_weight_pos. Qed.

Lemma inner_nonneg q w ts : inner q w ts → 0 ≤ w.
Proof.
  intros (Hsum & _ & Hts).
  apply wf_children_pos, sum_weights_nonneg in Hts. qc_arith.
Qed.

Lemma inner_pos q w ts : inner q w ts → ts ≠ [] → 0 < w.
Proof.
  intros (Hsum & _ & Hts) Hne.
  apply wf_children_pos in Hts. apply sum_weights_pos in Hts; [|done].
  qc_arith.
Qed.

Lemma inner_nil q w : 0 ≤ w → inner q w ([] : list tree).
Proof. intros. split_and!; [done|constructor|constructor]. Qed.

Lemma inner_perm q w ts ts' : ts ≡ₚ ts' → inner q w ts → inner q w ts'.
Proof.
  intros Hp (Hsum & Hnd & Hts). split_and!.
  - by rewrite <-(sum_weights_perm _ _ Hp).
  - by rewrite <-Hp.
  - by rewrite <-Hp.
Qed.

Lemma inner_sort q w ts : inner q w ts → inner q w (sort_desc weight ts).
Proof. apply inner_perm. by rewrite sort_desc_perm. Qed.

(** *** [insert] preserves the invariant *)

Lemma wf_node par s w ts :
  wf par (Node (RPrefix (par ++ [s])) w ts) ↔ 0 < w ∧ inner (par ++ [s]) w ts.
Proof.
  rewrite wf_unfold. split; [by intros (? & _ & ?)|].
  intros [? ?]. split_and!; [done|by exists s|done].
Qed.

Lemma wf_inv par c :
  wf par c →
  (∃ v w, c = Node (RValue v) w [] ∧ 0 < w) ∨
  (∃ s w ts, c = Node (RPrefix (par ++ [s])) w ts ∧ 0 < w ∧
             inner (par ++ [s]) w ts).
Proof.
  destruct c as [[q|v] w ts]; rewrite wf_unfold.
  - intros (? & [s ->] & ?). right. by exists s, w, ts.
  - intros [? ->]. left. by exists v, w.
Qed.

Lemma bump_no_match v w sw ts :
  RValue v ∉ root <$> ts → bump v w sw ts = (sw, ts).
Proof.
  revert sw. induction ts as [|c ts IH]; intros sw Hn; simpl; [done|].
  rewrite fmap_cons, not_elem_of_cons in Hn. destruct Hn as [Hc Hts].
  rewrite bool_decide_eq_false_2 by done. by rewrite IH.
Qed.

Lemma bump_spec q v w sw ts :
  0 < w → NoDup (root <$> ts) → Forall (wf q) ts →
  ∃ sw' ts', bump v w sw ts = (sw', ts') ∧
    root <$> ts' = root <$> ts ∧ Forall (wf q) ts' ∧
    sum_weights ts' + sw = sum_weights ts + sw' ∧ sw' ≤ sw + w ∧ sw ≤ sw'.
Proof.
  intros Hw. revert sw. induction ts as [|c ts IH]; intros sw Hnd Hwf.
  { exists sw, []. split_and!; try done; qc_arith. }
  rewrite fmap_cons, NoDup_cons in Hnd. destruct Hnd as [Hc Hnd].
  apply Forall_cons in Hwf as [Hwfc Hwf]. simpl.
  case_bool_decide as Hroot.
  - rewrite Hroot in Hc. rewrite (bump_no_match _ _ _ _ Hc).
    eexists _, _. split; [done|].
    destruct c as [r wc tsc]. simpl in Hroot. subst r.
    apply wf_unfold in Hwfc as [Hwc ->].
    split_and!; [done| |rewrite !sum_weights_cons; simpl|..]; try qc_arith.
    constructor; [|done]. apply wf_leaf. qc_arith.
  - destruct (IH sw Hnd Hwf) as (sw' & ts' & -> & Hr & Hwf' & Hsum & Hle).
    eexists _, _. split; [done|].
    split_and!; [by rewrite !fmap_cons, Hr|by constructor| |apply Hle..].
    rewrite !sum_weights_cons. qc_arith.
Qed.

Lemma is_empty_pos t : 0 < weight t → is_empty t = false.
Proof.
  intros Hw. unfold is_empty. apply bool_decide_eq_false_2.
  intros Heq. rewrite Heq in Hw. by apply Qclt_not_eq in Hw.
Qed.

Lemma is_leaf_cons r w c ts : is_leaf (Node r w (c :: ts)) = false.
Proof. done. Qed.

Lemma is_leaf_nil r w : 0 < w → is_leaf (Node r w []) = true.
Proof. intros. by apply bool_decide_eq_true_2. Qed.

Lemma get_leaf_value_leaf r w : 0 < w → get_leaf_value (Node r w []) = [r].
Proof.
  intros Hw. simpl. by rewrite is_empty_pos, is_leaf_nil.
Qed.

Lemma get_leaf_value_node r w ts :
  0 < w → ts ≠ [] → get_leaf_value (Node r w ts) = ts ≫= get_leaf_value.
Proof.
  intros Hw Hts. destruct ts as [|c ts]; [done|].
  cbn [get_leaf_value]. by rewrite is_empty_pos, is_leaf_cons.
Qed.

Lemma direct_leaf_value q r w ts v :
  0 < w → Forall (wf q) ts → RValue v ∈ root <$> ts →
  RValue v ∈ get_leaf_value (Node r w ts).
Proof.
  intros Hw Hwf (c & Hroot & Hc)%list_elem_of_fmap.
  rewrite get_leaf_value_node; [|done|by intros ->; inversion Hc].
  apply list_elem_of_bind. exists c. split; [|done].
  rewrite Forall_forall in Hwf.
  destruct (wf_inv _ _ (Hwf _ Hc)) as [(v' & wc & -> & Hwc)|(s & wc & tsc & -> & _)];
    [|done].
  simpl in Hroot. rewrite get_leaf_value_leaf by done. rewrite Hroot. by left.
Qed.

Lemma py_index_Some {A} `{EqDecision A} (x : A) (l : list A) :
  x ∈ l → ∃ i, py_index x l = Some i ∧ l !! i = Some x.
Proof.
  intros Hx. unfold py_index.
  destruct (list_find_elem_of (λ y, y = x) l x Hx eq_refl) as [[i y] Hfind].
  rewrite Hfind. apply list_find_Some in Hfind as (Hi & -> & _).
  by exists i.
Qed.

Lemma extend_weight {A} (l : list A) (x : A) w0 w :
  (if bool_decide (length (l ++ [x]) ≤ 1)%nat then w else w0 + w)
  = match l with [] => w | _ :: _ => w0 + w end.
Proof.
  destruct l; simpl; [done|].
  rewrite length_app. simpl. by rewrite bool_decide_eq_false_2 by lia.
Qed.

Lemma insert_inner prefix : ∀ q w0 ts v w,
  0 < w → inner q w0 ts →
  ∃ t', insert (Node (RPrefix q) w0 ts) v w prefix = Some t' ∧
    root t' = RPrefix q ∧ inner q (weight t') (subtrees t') ∧
    0 < weight t' ∧
    match ts with [] => weight t' = w | _ :: _ => weight t' ≤ w0 + w end.
Proof.
  induction prefix as [|s prefix IH]; intros q w0 ts v w Hw Hin.
  - pose proof (inner_nonneg _ _ _ Hin) as Hw0.
    cbn [insert subtrees root weight]; rewrite (bool_decide_eq_true_2 (0 < _)) by done. destruct ts as [|c0 ts0].
    { eexists. split; [done|]. cbn. unfold inner. split_and!; try done.
      - rewrite sum_weights_cons, sum_weights_nil. qc_arith.
      - apply NoDup_singleton.
      - apply Forall_singleton. by apply wf_leaf. }
    set (ts := c0 :: ts0) in *.
    assert (0 < w0) as Hw0' by by apply (inner_pos _ _ _ Hin).
    destruct Hin as (Hsum & Hnd & Hwf).
    case_bool_decide as Hnew.
    + eexists. split; [done|]. cbn [sort_subtrees root weight subtrees].
      split_and!; try done; [|qc_arith..].
      apply inner_sort. unfold inner. split_and!.
      * rewrite sum_weights_app, sum_weights_cons, sum_weights_nil. qc_arith.
      * rewrite fmap_app. apply NoDup_app. split_and!; [done| |apply NoDup_singleton].
        intros r Hr ->%list_elem_of_singleton. apply Hnew.
        by eapply direct_leaf_value.
      * apply Forall_app. split; [done|]. apply Forall_singleton. by apply wf_leaf.
    + destruct (bump_spec q v w w0 ts Hw Hnd Hwf)
        as (sw & ts' & -> & Hr & Hwf' & Hs & Hle & Hge).
      eexists. split; [done|]. cbn [sort_subtrees root weight subtrees].
      split_and!; try done; [|qc_arith..].
      apply inner_sort. unfold inner. split_and!; [qc_arith|by rewrite Hr|done].
  - pose proof (inner_nonneg _ _ _ Hin) as Hw0.
    cbn [insert create_node root weight subtrees mbind option_bind]; rewrite (bool_decide_eq_true_2 (0 < _)) by done.
    case_bool_decide as Hnew.
    + destruct (IH (q ++ [s]) w [] v w Hw) as (new & -> & Hroot & Hin' & Hpos & Hwn).
      { apply inner_nil. qc_arith. }
      cbn [mbind option_bind]. eexists. split; [done|].
      destruct Hin as (Hsum & Hnd & Hwf).
      assert (wf q new) as Hwfn.
      { destruct new as [rn wn tsn]. simpl in *. subst rn. by apply wf_node. }
      cbn [sort_subtrees root weight subtrees]. rewrite extend_weight.
      split_and!; [done| | |].
      * apply inner_sort. unfold inner. split_and!.
        -- rewrite sum_weights_app, sum_weights_cons, sum_weights_nil.
           destruct ts as [|c0 ts0]; [rewrite sum_weights_nil|]; qc_arith.
        -- rewrite fmap_app. apply NoDup_app. split_and!; [done| |apply NoDup_singleton].
           intros r Hr ->%list_elem_of_singleton. apply Hnew.
           cbn. by rewrite <-Hroot.
        -- apply Forall_app. split; [done|]. by apply Forall_singleton.
      * destruct ts; qc_arith.
      * destruct ts; qc_arith.
    + unfold get_subtree_roots in Hnew |- *.
      destruct (py_index_Some _ _ Hnew) as (i & -> & Hi).
      cbn [mbind option_bind].
      apply list_lookup_fmap_Some in Hi as (c & Hc & Hi).
      rewrite Hi. cbn [mbind option_bind].
      destruct Hin as (Hsum & Hnd & Hwf).
      assert (wf q c) as Hwfc by by eapply Forall_lookup_1.
      apply wf_inv in Hwfc as [(v' & wc & -> & _)|(s' & wc & tsc & -> & Hwc & Hinc)];
        [done|].
      cbn in Hc. simplify_eq.
      destruct (IH (q ++ [s']) wc tsc v w Hw Hinc)
        as (c' & -> & Hroot & Hin' & Hpos & Hwc').
      cbn [mbind option_bind]. eexists. split; [done|].
      assert (wf q c') as Hwfc'.
      { destruct c' as [rn wn tsn]. simpl in *. subst rn. by apply wf_node. }
      assert (weight c' ≤ wc + w) as Hle.
      { destruct tsc; [|done]. qc_arith. }
      cbn [sort_subtrees root weight subtrees]. split_and!; [done| | |].
      * apply inner_sort. unfold inner. split_and!.
        -- pose proof (sum_weights_insert _ _ _ c' Hi) as Hs. cbn in Hs. qc_arith.
        -- rewrite list_fmap_insert, Hroot.
           rewrite list_insert_id; [done|].
           by rewrite list_lookup_fmap, Hi.
        -- by apply Forall_insert.
      * qc_arith.
      * destruct ts; [done|]. qc_arith.
Qed.

(** *** [remove] preserves the invariant *)

Lemma is_empty_false t : is_empty t = false ↔ weight t ≠ 0.
Proof. unfold is_empty. by rewrite bool_decide_eq_false. Qed.

Lemma remove_loop_spec q rm ts : ∀ w0,
  Forall (wf q) ts → Forall (shrinks q rm) ts →
  ∃ sw ts', remove_loop rm w0 ts = (sw, ts') ∧
    Forall (wf q) ts' ∧ (root <$> ts') `sublist_of` (root <$> ts) ∧
    sum_weights ts' + w0 ≤ sum_weights ts + sw ∧ sw ≤ w0.
Proof.
  cut (∀ w0,
    (Forall (wf q) ts → Forall (shrinks q rm) ts →
     ∃ sw ts', remove_loop rm w0 ts = (sw, ts') ∧
       Forall (wf q) ts' ∧ (root <$> ts') `sublist_of` (root <$> ts) ∧
       sum_weights ts' + w0 ≤ sum_weights ts + sw ∧ sw ≤ w0) ∧
    (∀ c, Forall (wf q) (c :: ts) → Forall (shrinks q rm) (c :: ts) →
     ∃ sw ts', remove_loop rm w0 (c :: ts) = (sw, ts') ∧
       Forall (wf q) ts' ∧ (root <$> ts') `sublist_of` (root <$> (c :: ts)) ∧
       sum_weights ts' + w0 ≤ sum_weights (c :: ts) + sw ∧ sw ≤ w0)).
  { intros Hcut w0. apply Hcut. }
  assert (∀ w0 c ts0,
    (∀ w1, Forall (wf q) ts0 → Forall (shrinks q rm) ts0 →
     ∃ sw ts', remove_loop rm w1 ts0 = (sw, ts') ∧
       Forall (wf q) ts' ∧ (root <$> ts') `sublist_of` (root <$> ts0) ∧
       sum_weights ts' + w1 ≤ sum_weights ts0 + sw ∧ sw ≤ w1) →
    (∀ w1, Forall (wf q) (tail ts0) → Forall (shrinks q rm) (tail ts0) →
     ∃ sw ts', remove_loop rm w1 (tail ts0) = (sw, ts') ∧
       Forall (wf q) ts' ∧ (root <$> ts') `sublist_of` (root <$> tail ts0) ∧
       sum_weights ts' + w1 ≤ sum_weights (tail ts0) + sw ∧ sw ≤ w1) →
    Forall (wf q) (c :: ts0) → Forall (shrinks q rm) (c :: ts0) →
    ∃ sw ts', remove_loop rm w0 (c :: ts0) = (sw, ts') ∧
      Forall (wf q) ts' ∧ (root <$> ts') `sublist_of` (root <$> (c :: ts0)) ∧
      sum_weights ts' + w0 ≤ sum_weights (c :: ts0) + sw ∧ sw ≤ w0) as Hstep.
  { intros w0 c ts0 IH1 IH2 Hwf Hsh.
    apply Forall_cons in Hwf as [Hwfc Hwf].
    apply Forall_cons in Hsh as [Hshc Hsh].
    pose proof (wf_weight_pos _ _ Hwfc) as Hwc.
    cbn [remove_loop]. destruct (is_empty (rm c)) eqn:Hemp.
    - destruct ts0 as [|d ts0].
      { eexists _, _. split; [done|]. split_and!.
        - constructor.
        - apply sublist_nil_l.
        - rewrite sum_weights_cons, !sum_weights_nil. qc_arith.
        - qc_arith. }
      apply Forall_cons in Hwf as [Hwfd Hwf].
      apply Forall_cons in Hsh as [_ Hsh].
      destruct (IH2 (w0 - weight c) Hwf Hsh)
        as (sw & ts' & Hloop & Hwf' & Hsub & Hsum & Hle).
      cbn [tail] in Hloop, Hsub, Hsum. rewrite Hloop.
      eexists _, _. split; [done|]. split_and!.
      + by constructor.
      + rewrite !fmap_cons. by apply sublist_cons, sublist_skip.
      + rewrite !sum_weights_cons. qc_arith.
      + qc_arith.
    - apply is_empty_false in Hemp.
      destruct Hshc as [?|(Hwfc' & Hroot & Hlec)]; [done|].
      destruct (IH1 w0 Hwf Hsh) as (sw & ts' & -> & Hwf' & Hsub & Hsum & Hle).
      eexists _, _. split; [done|]. split_and!.
      + by constructor.
      + rewrite !fmap_cons, Hroot. by apply sublist_skip.
      + rewrite !sum_weights_cons. qc_arith.
      + done. }
  induction ts as [|c ts IH]; intros w0.
  - split.
    + intros _ _. exists w0, []. split_and!; try done; qc_arith.
    + intros c. apply Hstep.
      * intros w1 _ _. exists w1, []. split_and!; try done; qc_arith.
      * intros w1 _ _. exists w1, []. split_and!; try done; qc_arith.
  - split; [apply IH|]. intros d. apply Hstep.
    + intros w1. apply IH.
    + intros w1. apply IH.
Qed.

Lemma remove_loop_inner q rm w ts :
  inner q w ts → Forall (shrinks q rm) ts →
  ∃ sw ts', remove_loop rm w ts = (sw, ts') ∧ inner q sw ts' ∧ sw ≤ w.
Proof.
  intros (Hsum & Hnd & Hwf) Hsh.
  destruct (remove_loop_spec q rm ts w Hwf Hsh)
    as (sw & ts' & Hloop & Hwf' & Hsub & Hsum' & Hle).
  exists sw, ts'. split_and!; [done| |done].
  unfold inner. split_and!; [qc_arith| |done].
  by eapply sublist_NoDup.
Qed.

Lemma remove_wf s p c : ∀ par,
  wf par c → shrinks par (λ c, remove c (s :: p)) c.
Proof.
  induction c as [r w ts IH] using tree_ind. intros par Hwf.
  unfold shrinks. cbn [remove]. case_bool_decide as Hr; [by left|].
  apply wf_inv in Hwf as [(v & w' & ? & Hw)|(s' & w' & ts0 & ? & Hw & Hin)];
    simplify_eq.
  { right. cbn [remove_loop root weight]. split_and!; [by apply wf_leaf|done..]. }
  destruct (remove_loop_inner _ (λ c, remove c (s :: p)) _ _ Hin)
    as (sw & ts' & -> & Hin' & Hle).
  { destruct Hin as (_ & _ & Hwf). rewrite Forall_forall in IH, Hwf |- *.
    intros c Hc. apply IH; [done|]. by apply Hwf. }
  destruct (decide (sw = 0)) as [->|Hsw]; [by left|]. right.
  cbn [root weight]. split_and!; [|done..].
  apply wf_node. split; [|done].
  apply inner_nonneg in Hin'. qc_arith.
Qed.

Lemma wf_top_empty : wf_top (empty : tree).
Proof. split; [done|]. by apply inner_nil. Qed.

Lemma remove_wf_top t p : wf_top t → wf_top (remove t p).
Proof.
  destruct t as [r w ts]. intros [Hr Hin]. cbn in Hr, Hin. subst r.
  destruct p as [|s p]; [apply wf_top_empty|].
  cbn [remove]. rewrite bool_decide_eq_false_2 by done.
  destruct (remove_loop_inner _ (λ c, remove c (s :: p)) _ _ Hin)
    as (sw & ts' & -> & Hin' & Hle).
  { destruct Hin as (_ & _ & Hwf). eapply Forall_impl; [exact Hwf|].
    intros c. apply remove_wf. }
  by split.
Qed.

Lemma insert_wf_top t v w prefix :
  0 < w → wf_top t → ∃ t', insert t v w prefix = Some t' ∧ wf_top t'.
Proof.
  destruct t as [r w0 ts]. intros Hw [Hr Hin]. cbn in Hr, Hin. subst r.
  destruct (insert_inner prefix [] w0 ts v w Hw Hin) as (t' & Hins & Hr & Hin' & _).
  exists t'. by split; [|split].
Qed.

(** Every reachable tree satisfies the structural invariant. *)
Lemma reachable_wf_top t : reachable t → wf_top t.
Proof.
  induction 1 as [|t v w prefix t' _ IH [Hw _] Hins|t prefix _ IH].
  - apply wf_top_empty.
  - destruct (insert_wf_top t v w prefix Hw IH) as (t'' & Hins' & Hwf).
    by simplify_eq.
  - by apply remove_wf_top.
Qed.

(** On a reachable tree [insert] raises no error. *)
Lemma reachable_insert_total t v w prefix :
  reachable t → 0 < w → is_Some (insert t v w prefix).
Proof.
  intros Ht%reachable_wf_top Hw.
  destruct (insert_wf_top t v w prefix Hw Ht) as (t' & -> & _). done.
Qed.

(** *** The leaves of a tree and their prefix sequences *)

Lemma fmap_bind_list {A B C} (f : B → C) (g : A → list B) (l : list A) :
  f <$> (l ≫= g) = l ≫= (λ x, f <$> g x).
Proof.
  induction l as [|x l IH]; [done|].
  by rewrite !bind_cons, fmap_app, IH.
Qed.

Lemma filter_bind_list {A B} (P : B → Prop) `{∀ x, Decision (P x)}
    (g : A → list B) (l : list A) :
  filter P (l ≫= g) = l ≫= (λ x, filter P (g x)).
Proof.
  induction l as [|x l IH]; [done|].
  by rewrite !bind_cons, filter_app, IH.
Qed.

Lemma bind_nil_all {A B} (g : A → list B) (l : list A) :
  (∀ x, x ∈ l → g x = []) → l ≫= g = [].
Proof.
  induction l as [|x l IH]; intros Hg; [done|].
  rewrite bind_cons, Hg, IH; [done| |left].
  intros y Hy. apply Hg. by right.
Qed.

Lemma leaf_paths_leaf par r w :
  0 < w → leaf_paths par (Node r w []) = [(path_of par (Node r w []), Node r w [])].
Proof. intros Hw. cbn [leaf_paths]. by rewrite is_empty_pos, is_leaf_nil. Qed.

Lemma leaf_paths_node par r w ts :
  0 < w → ts ≠ [] →
  leaf_paths par (Node r w ts) = ts ≫= leaf_paths (path_of par (Node r w ts)).
Proof.
  intros Hw Hts. destruct ts as [|c ts]; [done|].
  cbn [leaf_paths]. by rewrite is_empty_pos, is_leaf_cons.
Qed.

Lemma leaf_paths_snd t : ∀ par, snd <$> leaf_paths par t = get_leaves t.
Proof.
  induction t as [r w ts IH] using tree_ind. intros par.
  cbn [leaf_paths get_leaves].
  destruct (is_empty _); [done|]. destruct (is_leaf _); [done|].
  rewrite fmap_bind_list. apply Forall_bind_ext.
  eapply Forall_impl; [exact IH|]. intros c Hc. apply Hc.
Qed.

Lemma path_of_child q c : wf q c → q `prefix_of` path_of q c.
Proof.
  intros [(v & w & -> & _)|(s & w & ts & -> & _)]%wf_inv; cbn; [done|].
  by apply prefix_app_r.
Qed.

(** Every leaf below a node carries a prefix sequence that extends the
    prefix of the node. *)
Lemma leaf_paths_extend c : ∀ par x,
  wf par c → x ∈ leaf_paths par c → path_of par c `prefix_of` x.1.
Proof.
  induction c as [r w ts IH] using tree_ind. intros par x Hwf.
  pose proof (wf_weight_pos _ _ Hwf) as Hw. cbn [weight] in Hw.
  destruct ts as [|c0 ts0].
  { rewrite leaf_paths_leaf by done. by intros ->%list_elem_of_singleton. }
  rewrite leaf_paths_node by done.
  intros (c & Hx & Hc)%list_elem_of_bind.
  apply wf_inv in Hwf as [(? & ? & ? & _)|(s & w' & ts' & ? & _ & Hin)];
    simplify_eq.
  cbn [path_of root] in *. destruct Hin as (_ & _ & Hwf).
  rewrite Forall_forall in IH, Hwf.
  trans (path_of (par ++ [s]) c).
  - apply path_of_child. by apply Hwf.
  - apply IH; [done|by apply Hwf|done].
Qed.

Lemma leaf_paths_extend_node par q w ts x :
  inner q w ts → x ∈ leaf_paths par (Node (RPrefix q) w ts) → q `prefix_of` x.1.
Proof.
  intros Hin. cbn [leaf_paths].
  destruct (is_empty _); [by intros ?%elem_of_nil|].
  destruct (is_leaf _); [by intros ->%list_elem_of_singleton|].
  intros (c & Hx & Hc)%list_elem_of_bind. cbn [path_of root] in Hx.
  destruct Hin as (_ & _ & Hwf). rewrite Forall_forall in Hwf.
  trans (path_of q c).
  - apply path_of_child. by apply Hwf.
  - apply leaf_paths_extend; [by apply Hwf|done].
Qed.

(** *** [autocomplete] finds the leaves whose prefix sequence matches *)

Lemma result_of_nil limit : result_of limit ([] : list tree) = [].
Proof. destruct limit; [|done]. cbn. by rewrite take_nil. Qed.

Lemma result_of_bind limit (M : tree → list tree) r0 ts :
  NoDup (root <$> ts) →
  (∀ c, c ∈ ts → M c ≠ [] → root c = r0) →
  result_of limit (ts ≫= M) = ts ≫= (λ c, result_of limit (M c)).
Proof.
  induction ts as [|c ts IH]; intros Hnd Hone.
  { apply result_of_nil. }
  rewrite fmap_cons, NoDup_cons in Hnd. destruct Hnd as [Hc Hnd].
  rewrite !bind_cons. destruct (M c) as [|l0 l] eqn:HM.
  - rewrite result_of_nil. cbn [app]. apply IH; [done|].
    intros c' Hc'. apply Hone. by right.
  - assert (root c = r0) as Hr0.
    { apply Hone; [by left|]. by rewrite HM. }
    assert (∀ c', c' ∈ ts → M c' = []) as Hnil.
    { intros c' Hc'. destruct (M c') eqn:HM'; [done|]. exfalso.
      apply Hc. rewrite Hr0, <-(Hone c'); [|by right|by rewrite HM'].
      by apply list_elem_of_fmap_2. }
    rewrite (bind_nil_all M ts Hnil), app_nil_r.
    rewrite (bind_nil_all (λ c, result_of limit (M c)) ts), app_nil_r; [done|].
    intros c' Hc'. by rewrite Hnil, result_of_nil.
Qed.

Lemma prefix_snoc_inv {A} (l k : list A) x :
  l `prefix_of` k ++ [x] → l `prefix_of` k ∨ l = k ++ [x].
Proof.
  intros [m Hm]. destruct m as [|y m _] using rev_ind.
  - right. by rewrite app_nil_r in Hm.
  - left. rewrite app_assoc in Hm. apply app_inj_tail in Hm as [-> _].
    by apply prefix_app_r.
Qed.

Lemma filter_all {A} (P : A → Prop) `{∀ x, Decision (P x)} (l : list A) :
  Forall P l → filter P l = l.
Proof.
  induction 1 as [|x l Hx _ IH]; [done|].
  by rewrite filter_cons_True, IH.
Qed.

Lemma matching_in_child p q c :
  ¬ p `prefix_of` q → wf q c → matching_in q p c ≠ [] →
  root c = RPrefix (take (S (length q)) p).
Proof.
  intros Hpq Hwf Hne. unfold matching_in in Hne.
  destruct (filter _ (leaf_paths q c)) as [|x l] eqn:Hf; [done|]. clear Hne.
  assert (x ∈ filter (λ x, p `prefix_of` x.1) (leaf_paths q c)) as Hx.
  { rewrite Hf. by left. }
  apply list_elem_of_filter in Hx as [Hpx Hx].
  pose proof (leaf_paths_extend _ _ _ Hwf Hx) as Hext.
  apply wf_inv in Hwf as [(v & w & -> & Hw)|(s & w & ts & -> & _)].
  { rewrite leaf_paths_leaf in Hx by done.
    apply list_elem_of_singleton in Hx as ->. done. }
  cbn [path_of root] in Hext. f_equal.
  assert (q ++ [s] `prefix_of` p) as [k ->].
  { destruct (prefix_weak_total _ _ _ Hpx Hext) as [Hp|Hp]; [|done].
    apply prefix_snoc_inv in Hp as [?| ->]; done. }
  rewrite take_app_length'; [done|]. rewrite length_app. cbn. lia.
Qed.

Lemma autocomplete_node p limit par q w ts :
  Forall (λ c, ∀ par, wf par c → ¬ p `prefix_of` par →
            autocomplete c p limit = result_of limit (matching_in par p c)) ts →
  inner q w ts → (p `prefix_of` q → p = q) →
  autocomplete (Node (RPrefix q) w ts) p limit
  = result_of limit (matching_in par p (Node (RPrefix q) w ts)).
Proof.
  intros IH Hin Hpq. unfold matching_in.
  cbn [autocomplete]. case_bool_decide as Hq.
  - simplify_eq. rewrite filter_all.
    + rewrite leaf_paths_snd. by destruct limit.
    + apply Forall_forall. intros x Hx. by eapply leaf_paths_extend_node.
  - assert (¬ p `prefix_of` q) as Hnp by (intros ?%Hpq; congruence).
    destruct (decide (w = 0)) as [->|Hw0].
    { destruct ts as [|c ts].
      - by rewrite result_of_nil.
      - by destruct (Qclt_not_eq _ _ (inner_pos _ _ _ Hin ltac:(done))). }
    assert (0 < w) as Hw by (apply inner_nonneg in Hin; qc_arith).
    destruct (decide (ts = [])) as [->|Hts].
    { rewrite leaf_paths_leaf by done. cbn [path_of root].
      rewrite filter_cons_False by done. by rewrite result_of_nil. }
    rewrite leaf_paths_node by done. cbn [path_of root].
    rewrite filter_bind_list, fmap_bind_list.
    destruct Hin as (_ & Hnd & Hwf).
    rewrite (result_of_bind limit _ (RPrefix (take (S (length q)) p))); [|done|].
    + apply Forall_bind_ext. rewrite Forall_forall in IH, Hwf |- *.
      intros c Hc. apply IH; [done|by apply Hwf|done].
    + rewrite Forall_forall in Hwf.
      intros c Hc. apply matching_in_child; [done|by apply Hwf].
Qed.

Lemma autocomplete_wf p limit c : ∀ par,
  wf par c → ¬ p `prefix_of` par →
  autocomplete c p limit = result_of limit (matching_in par p c).
Proof.
  induction c as [r w ts IH] using tree_ind. intros par Hwf Hpar.
  pose proof (wf_weight_pos _ _ Hwf) as Hw.
  apply wf_inv in Hwf as [(v & w' & ? & _)|(s & w' & ts' & ? & _ & Hin)];
    simplify_eq.
  - cbn [autocomplete]. rewrite bool_decide_eq_false_2 by done.
    unfold matching_in. rewrite leaf_paths_leaf by done. cbn [path_of root].
    rewrite filter_cons_False by done. by rewrite result_of_nil.
  - apply autocomplete_node; [done..|].
    by intros [?| ->]%prefix_snoc_inv.
Qed.

(** On a reachable tree, [autocomplete] returns the leaves whose prefix
    sequence begins with [prefix], in pre-order, sorted when there is no
    limit and truncated otherwise. *)
Lemma autocomplete_matching t prefix limit :
  wf_top t →
  autocomplete t prefix limit = result_of limit (matching_leaves prefix t).
Proof.
  destruct t as [r w ts]. intros [Hr Hin]. cbn in Hr, Hin. subst r.
  unfold matching_leaves. apply autocomplete_node; [|done|by intros ->%prefix_nil_inv].
  apply Forall_forall. intros c _ par. apply autocomplete_wf.
Qed.

(** *** Inserting a value that is already stored *)

Lemma leaf_paths_is_leaf t : ∀ par x,
  x ∈ leaf_paths par t → subtrees x.2 = [] ∧ 0 < weight x.2.
Proof.
  induction t as [r w ts IH] using tree_ind. intros par x.
  cbn [leaf_paths]. destruct (is_empty _); [by intros ?%elem_of_nil|].
  destruct (is_leaf _) eqn:Hleaf.
  - intros ->%list_elem_of_singleton. cbn. unfold is_leaf in Hleaf.
    cbn in Hleaf. destruct ts; [|done]. by apply bool_decide_eq_true in Hleaf.
  - intros (c & Hx & Hc)%list_elem_of_bind. rewrite Forall_forall in IH.
    by eapply IH.
Qed.

Lemma len_leaf_paths t : ∀ par, len t = length (leaf_paths par t).
Proof.
  induction t as [r w ts IH] using tree_ind. intros par.
  cbn [len leaf_paths]. destruct (is_empty _); [done|].
  destruct (is_leaf _); [done|].
  generalize (path_of par (Node r w ts)). intros q.
  induction IH as [|c ts Hc _ IHts]; [done|].
  rewrite fmap_cons, bind_cons, length_app. cbn. by rewrite (Hc q), IHts.
Qed.

Lemma bind_lookup_split {A B} (f : A → list B) (l : list A) i x :
  l !! i = Some x →
  l ≫= f = (take i l ≫= f) ++ f x ++ (drop (S i) l ≫= f).
Proof.
  intros Hi. rewrite <-(take_drop_middle l i x Hi) at 1.
  by rewrite bind_app, bind_cons.
Qed.

Lemma bind_insert_split {A B} (f : A → list B) (l : list A) i x :
  (i < length l)%nat →
  <[i:=x]> l ≫= f = (take i l ≫= f) ++ f x ++ (drop (S i) l ≫= f).
Proof.
  intros Hi. rewrite insert_take_drop by done.
  by rewrite bind_app, bind_cons.
Qed.

Lemma leaf_paths_sort_node par q w ts :
  0 < w → ts ≠ [] →
  leaf_paths par (sort_subtrees (Node (RPrefix q) w ts)) ≡ₚ ts ≫= leaf_paths q.
Proof.
  intros Hw Hts. unfold sort_subtrees. cbn [root weight subtrees].
  rewrite leaf_paths_node; [|done|by intros ?%sort_desc_nil_inv].
  cbn [path_of root]. by rewrite sort_desc_perm.
Qed.

Lemma bump_at v w sw ts i c :
  NoDup (root <$> ts) → ts !! i = Some c → root c = RValue v →
  bump v w sw ts
  = (sw + w, <[i := Node (root c) (weight c + w) (subtrees c)]> ts).
Proof.
  revert i sw. induction ts as [|d ts IH]; intros i sw Hnd Hi Hr; [done|].
  rewrite fmap_cons, NoDup_cons in Hnd. destruct Hnd as [Hd Hnd].
  destruct i as [|i]; simplify_eq/=.
  - rewrite bool_decide_eq_true_2 by done.
    rewrite bump_no_match; [done|]. by rewrite <-Hr.
  - rewrite bool_decide_eq_false_2.
    + by rewrite (IH i sw Hnd Hi Hr).
    + intros Hd'. apply Hd. rewrite Hd', <-Hr.
      apply list_elem_of_fmap_2. by eapply list_elem_of_lookup_2.
Qed.

(** A leaf whose prefix sequence is [q ++ prefix], found below a node of
    prefix [q], lies in a direct subtree. *)
Lemma leaf_below_node par q w ts prefix leaf :
  inner q w ts → (∃ v, root leaf = RValue v) →
  (q ++ prefix, leaf) ∈ leaf_paths par (Node (RPrefix q) w ts) →
  0 < w ∧ ∃ i c, ts !! i = Some c ∧ (q ++ prefix, leaf) ∈ leaf_paths q c ∧
    match prefix with
    | [] => c = leaf
    | s :: prefix' => ∃ wc tsc, c = Node (RPrefix (q ++ [s])) wc tsc ∧
                       0 < wc ∧ inner (q ++ [s]) wc tsc
    end.
Proof.
  intros Hin [v Hv]. cbn [leaf_paths].
  destruct (is_empty _) eqn:Hemp; [by intros ?%elem_of_nil|].
  destruct (is_leaf _).
  { intros ?%list_elem_of_singleton. simplify_eq/=. }
  assert (0 < w) as Hw.
  { apply is_empty_false in Hemp. apply inner_nonneg in Hin. qc_arith. }
  intros (c & Hx & Hc)%list_elem_of_bind. cbn [path_of root] in Hx.
  split; [done|].
  apply list_elem_of_lookup_1 in Hc as [i Hi]. exists i, c.
  split_and!; [done..|].
  destruct Hin as (_ & _ & Hwf).
  pose proof (Forall_lookup_1 _ _ _ _ Hwf Hi) as Hwfc.
  pose proof (leaf_paths_extend _ _ _ Hwfc Hx) as Hext.
  apply wf_inv in Hwfc as [(v' & wc & -> & Hwc)|(s' & wc & tsc & -> & Hwc & Hinc)].
  - rewrite leaf_paths_leaf in Hx by done.
    apply list_elem_of_singleton in Hx. cbn [path_of root] in Hx.
    simplify_eq. assert (prefix = []) as ->; [|done].
    apply (inj (app q)). by rewrite app_nil_r.
  - cbn [path_of root fst] in Hext. apply prefix_app_inv in Hext.
    destruct prefix as [|s prefix].
    + by apply prefix_nil_not in Hext.
    + apply prefix_cons_inv_1 in Hext as ->. by exists wc, tsc.
Qed.

Lemma insert_existing prefix : ∀ par q w0 ts v w wl,
  0 < w → inner q w0 ts →
  (q ++ prefix, Node (RValue v) wl []) ∈ leaf_paths par (Node (RPrefix q) w0 ts) →
  ∃ t' rest,
    insert (Node (RPrefix q) w0 ts) v w prefix = Some t' ∧
    leaf_paths par (Node (RPrefix q) w0 ts)
      ≡ₚ (q ++ prefix, Node (RValue v) wl []) :: rest ∧
    leaf_paths par t' ≡ₚ (q ++ prefix, Node (RValue v) (wl + w) []) :: rest.
Proof.
  induction prefix as [|s prefix IH]; intros par q w0 ts v w wl Hw Hin Hleaf.
  - destruct (leaf_below_node _ _ _ _ _ (Node (RValue v) wl []) Hin
                (ex_intro _ v eq_refl) Hleaf)
      as (Hw0 & i & c & Hi & Hx & ->).
    assert (0 < wl) as Hwl by (by apply leaf_paths_is_leaf in Hx as [_ ?]).
    pose proof Hin as (_ & Hnd & Hwf).
    assert (ts ≠ []) as Hts by (by intros ->).
    cbn [insert subtrees root weight]; rewrite (bool_decide_eq_true_2 (0 < _)) by done. destruct ts as [|c0 ts0]; [done|].
    set (ts := c0 :: ts0) in *.
    rewrite bool_decide_eq_false_2; last first.
    { intros Hnot. apply Hnot. eapply direct_leaf_value; [done..|].
      apply list_elem_of_fmap. eexists. split; [|by eapply list_elem_of_lookup_2].
      done. }
    rewrite (bump_at v w w0 ts i _ Hnd Hi eq_refl). cbn [root weight subtrees].
    eexists _, ((take i ts ≫= leaf_paths q) ++ (drop (S i) ts ≫= leaf_paths q)).
    split; [done|]. split.
    + rewrite leaf_paths_node by done. cbn [path_of root].
      rewrite (bind_lookup_split _ _ _ _ Hi), app_nil_r.
      rewrite leaf_paths_leaf by done.
      cbn [path_of root]. by rewrite Permutation_middle.
    + rewrite leaf_paths_sort_node; [|qc_arith|]; last first.
      { intros Hnil. apply (f_equal length) in Hnil.
        rewrite length_insert in Hnil. done. }
      rewrite bind_insert_split by (by eapply lookup_lt_Some).
      rewrite leaf_paths_leaf by qc_arith.
      cbn [path_of root]. by rewrite app_nil_r, Permutation_middle.
  - destruct (leaf_below_node _ _ _ _ _ (Node (RValue v) wl []) Hin
                (ex_intro _ v eq_refl) Hleaf)
      as (Hw0 & i & c & Hi & Hx & wc & tsc & -> & Hwc & Hinc).
    pose proof Hin as (_ & Hnd & Hwf).
    assert (ts ≠ []) as Hts by (by intros ->).
    cbn [insert create_node root weight subtrees mbind option_bind]; rewrite (bool_decide_eq_true_2 (0 < _)) by done.
    assert (RPrefix (q ++ [s]) ∈ root <$> ts) as Hroot.
    { apply list_elem_of_fmap. eexists. split; [|by eapply list_elem_of_lookup_2].
      done. }
    unfold get_subtree_roots.
    rewrite bool_decide_eq_false_2 by (by intros Hnot; apply Hnot).
    destruct (py_index_Some _ _ Hroot) as (j & -> & Hj).
    cbn [mbind option_bind].
    assert (j = i) as ->.
    { eapply NoDup_lookup; [exact Hnd|exact Hj|].
      by rewrite list_lookup_fmap, Hi. }
    rewrite Hi. cbn [mbind option_bind].
    replace (q ++ s :: prefix) with ((q ++ [s]) ++ prefix) in *
      by (by rewrite <-app_assoc).
    destruct (IH q (q ++ [s]) wc tsc v w wl Hw Hinc Hx)
      as (c' & rest & -> & Hp & Hp').
    cbn [mbind option_bind].
    eexists _, ((take i ts ≫= leaf_paths q) ++ rest
                ++ (drop (S i) ts ≫= leaf_paths q)).
    split; [done|]. split.
    + rewrite leaf_paths_node by done. cbn [path_of root].
      rewrite (bind_lookup_split _ _ _ _ Hi), Hp.
      cbn [app]. symmetry. apply Permutation_middle.
    + rewrite leaf_paths_sort_node; [|qc_arith|]; last first.
      { intros Hnil. apply (f_equal length) in Hnil.
        rewrite length_insert in Hnil. by destruct ts. }
      rewrite bind_insert_split by (by eapply lookup_lt_Some).
      rewrite Hp'. cbn [app]. symmetry. apply Permutation_middle.
Qed.

Lemma stored_elem_of t prefix value w0 :
  (prefix, value, w0) ∈ stored t ↔
  (prefix, Node (RValue value) w0 []) ∈ leaf_paths [] t.
Proof.
  unfold stored. rewrite list_elem_of_omap. split.
  - intros ([path [r w ts]] & Hx & Hf).
    apply leaf_paths_is_leaf in Hx as Hleaf. cbn in Hf, Hleaf.
    destruct Hleaf as [-> _]. destruct r; simplify_eq. done.
  - intros Hx. by eexists.
Qed.

(** Inserting a stored value again under its prefix sequence: the leaves
    are the same except that the leaf of the value has gained [w]. *)
Lemma insert_stored_again t prefix value w0 w :
  wf_top t → (prefix, value, w0) ∈ stored t → 0 < w →
  ∃ t' rest,
    insert t value w prefix = Some t' ∧
    stored t ≡ₚ (prefix, value, w0) :: rest ∧
    stored t' ≡ₚ (prefix, value, w0 + w) :: rest ∧
    len t' = len t ∧
    (RValue value, w0 + w) ∈ autocomplete t' prefix None.
Proof.
  intros Hwf Hst%stored_elem_of Hw.
  destruct (insert_wf_top t value w prefix Hw Hwf) as (t' & Hins & Hwf').
  destruct t as [r w1 ts]. destruct Hwf as [Hr Hin]. cbn in Hr, Hin. subst r.
  destruct (insert_existing prefix [] [] w1 ts value w w0 Hw Hin Hst)
    as (t'' & rest & Hins' & Hp & Hp').
  cbn [app] in Hp, Hp'. simplify_eq.
  exists t', (omap (λ x, match root x.2 with
                        | RValue v => Some (x.1, v, weight x.2)
                        | RPrefix _ => None
                        end) rest).
  split_and!; [done| | | |].
  - unfold stored. by rewrite Hp.
  - unfold stored. by rewrite Hp'.
  - rewrite !(len_leaf_paths _ []). by rewrite Hp, Hp'.
  - rewrite autocomplete_matching by done. cbn [result_of].
    rewrite sort_desc_perm.
    apply (list_elem_of_fmap_2' leaf_pair _ (Node (RValue value) (w0 + w) []));
      [|done].
    unfold matching_leaves, matching_in.
    apply (list_elem_of_fmap_2' snd _ (prefix, Node (RValue value) (w0 + w) []));
      [|done].
    apply list_elem_of_filter. split; [done|]. rewrite Hp'. by left.
Qed.

(** *** When [insert] returns and when it raises *)

Lemma bump_length v w sw ts : length (bump v w sw ts).2 = length ts.
Proof.
  revert sw. induction ts as [|c ts IH]; intros sw; [done|].
  cbn [bump]. case_bool_decide.
  - specialize (IH (sw + w)). destruct (bump _ _ _ _). cbn in *. by rewrite IH.
  - specialize (IH sw). destruct (bump _ _ _ _). cbn in *. by rewrite IH.
Qed.

Lemma insert_returns prefix : ∀ t value w,
  0 < w → (∃ q, root t = RPrefix q) →
  ∃ t', insert t value w prefix = Some t' ∧ root t' = root t ∧ subtrees t' ≠ [].
Proof.
  induction prefix as [|s prefix IH]; intros [r w0 ts] v w Hw [q Hq];
    cbn in Hq; subst r.
  - cbn [insert root weight subtrees]; rewrite (bool_decide_eq_true_2 (0 < _)) by done. destruct ts as [|c ts].
    { eexists. split; [done|]. by split. }
    case_bool_decide.
    + eexists. split; [done|]. split; [done|].
      cbn [sort_subtrees subtrees]. intros Hnil%sort_desc_nil_inv.
      by destruct ts.
    + pose proof (bump_length v w w0 (c :: ts)) as Hlen.
      destruct (bump _ _ _ _) as [sw ts'].
      eexists. split; [done|]. split; [done|].
      cbn [sort_subtrees subtrees]. intros Hnil%sort_desc_nil_inv.
      by subst ts'.
  - cbn [insert create_node root weight subtrees mbind option_bind]; rewrite (bool_decide_eq_true_2 (0 < _)) by done.
    case_bool_decide as Hnew.
    + destruct (IH (Node (RPrefix (q ++ [s])) w []) v w Hw) as (new & -> & _);
        [by eexists|].
      cbn [mbind option_bind]. eexists. split; [done|]. split; [done|].
      cbn [sort_subtrees subtrees]. intros Hnil%sort_desc_nil_inv.
      by destruct ts.
    + unfold get_subtree_roots in Hnew |- *.
      destruct (py_index_Some _ _ Hnew) as (i & -> & Hi).
      cbn [mbind option_bind].
      apply list_lookup_fmap_Some in Hi as (c & Hc & Hi).
      rewrite Hi. cbn [mbind option_bind].
      destruct (IH c v w Hw) as (c' & -> & _); [by eexists|].
      cbn [mbind option_bind]. eexists. split; [done|]. split; [done|].
      cbn [sort_subtrees subtrees]. intros Hnil%sort_desc_nil_inv.
      apply (f_equal length) in Hnil.
      rewrite length_insert in Hnil. by destruct ts.
Qed.

(** The contract [weight > 0]: with another weight the call raises. *)
Lemma insert_raises t value w prefix :
  ¬ 0 < w → insert t value w prefix = None.
Proof.
  intros Hw. destruct prefix; cbn [insert]; by rewrite bool_decide_eq_false_2.
Qed.

Lemma insert_st_raises t value w prefix :
  ¬ 0 < w → insert_st value w prefix t = (None, t).
Proof.
  intros Hw. destruct prefix; cbn [insert_st]; by rewrite bool_decide_eq_false_2.
Qed.

(** The method returns exactly when the function does, with the same tree. *)
Lemma insert_st_insert prefix : ∀ t value w,
  (insert_st value w prefix t).1 = (λ _, ()) <$> insert t value w prefix ∧
  ∀ t', insert t value w prefix = Some t' →
        insert_st value w prefix t = (Some (), t').
Proof.
  induction prefix as [|s prefix IH]; intros t v w; cbn [insert_st insert].
  - case_bool_decide; [|done]. split; [done|]. by intros t' [= <-].
  - case_bool_decide; [|done].
    destruct (create_node (root t) [s] w) as [node|]; [|done].
    cbn [mbind option_bind]. case_bool_decide.
    + destruct (IH node v w) as [Hfst Hsnd].
      destruct (insert node v w prefix) as [new|] eqn:Hnew.
      * rewrite (Hsnd new eq_refl). cbn. split; [done|]. by intros t' [= <-].
      * destruct (insert_st v w prefix node) as [[[]|] new']; [done|].
        cbn. by split.
    + destruct (py_index _ _) as [index|]; [|done]. cbn [mbind option_bind].
      destruct (subtrees t !! index) as [c|]; [|done]. cbn [mbind option_bind].
      destruct (IH c v w) as [Hfst Hsnd].
      destruct (insert c v w prefix) as [c'|] eqn:Hc.
      * rewrite (Hsnd c' eq_refl). cbn. split; [done|]. by intros t' [= <-].
      * destruct (insert_st v w prefix c) as [[[]|] c'']; [done|].
        cbn. by split.
Qed.

(** *** Reading methods leave the receiver as it is *)

Lemma for_subtrees_pure {R} (m : method sym val (list R)) (f : tree → list R) ts :
  Forall (λ c, m c = (f c, c)) ts → for_subtrees m ts = (ts ≫= f, ts).
Proof.
  induction 1 as [|c ts Hc _ IH]; [done|].
  cbn [for_subtrees]. by rewrite Hc, IH.
Qed.

Lemma get_leaves_st_pure t : get_leaves_st t = (get_leaves t, t).
Proof.
  induction t as [r w ts IH] using tree_ind.
  cbn [get_leaves_st get_leaves].
  destruct (is_empty _); [done|]. destruct (is_leaf _); [done|].
  by rewrite (for_subtrees_pure _ get_leaves).
Qed.

Lemma autocomplete_st_pure prefix limit t :
  autocomplete_st prefix limit t = (autocomplete t prefix limit, t).
Proof.
  induction t as [r w ts IH] using tree_ind.
  cbn [autocomplete_st autocomplete]. case_bool_decide.
  - rewrite get_leaves_st_pure. by destruct limit.
  - by rewrite (for_subtrees_pure _ (λ c, autocomplete c prefix limit)).
Qed.

(** *** Sequences of calls *)

Lemma run_from_reachable ops : ∀ t,
  reachable t → legal t ops = true →
  ∃ t', run_from t ops = Some t' ∧ reachable t'.
Proof.
  induction ops as [|o ops IH]; intros t Ht Hlegal.
  { by exists t. }
  cbn [legal] in Hlegal. apply andb_true_iff in Hlegal as [Ho Hlegal].
  cbn [run_from]. destruct (run_op t o) as [t1|] eqn:Hop; [|done].
  cbn [mbind option_bind]. apply IH; [|done].
  destruct o as [v w p|p]; cbn in Hop.
  - apply bool_decide_eq_true in Ho. by eapply reachable_insert.
  - simplify_eq. by apply reachable_remove.
Qed.

Lemma run_reachable ops :
  legal empty ops = true → ∃ t, run ops = Some t ∧ reachable t.
Proof. apply run_from_reachable, reachable_empty. Qed.

(** *** [insert] keeps every [subtrees] list sorted *)

Lemma sorted_desc_spec ts :
  StronglySorted (desc weight) ts → sorted_desc ts = true.
Proof.
  induction 1 as [|c ts _ IH Hc]; [done|].
  cbn [sorted_desc]. destruct ts as [|d ts]; [done|].
  apply Forall_cons in Hc as [Hd _]. unfold desc in Hd.
  by rewrite bool_decide_eq_true_2, IH.
Qed.

Lemma subtrees_sorted_unfold r w ts :
  subtrees_sorted (Node r w ts) = true ↔
  sorted_desc ts = true ∧ Forall (λ c, subtrees_sorted c = true) ts.
Proof.
  cbn [subtrees_sorted]. rewrite andb_true_iff.
  assert (forallb subtrees_sorted ts = true
          ↔ Forall (λ c, subtrees_sorted c = true) ts) as ->; [|done].
  induction ts as [|c ts IH]; cbn [forallb]; [by split; [constructor|]|].
  by rewrite andb_true_iff, Forall_cons, IH.
Qed.

Lemma sort_subtrees_sorted r w ts :
  Forall (λ c, subtrees_sorted c = true) ts →
  subtrees_sorted (sort_subtrees (Node r w ts)) = true.
Proof.
  intros Hts. unfold sort_subtrees. cbn [root weight subtrees].
  apply subtrees_sorted_unfold. split.
  - apply sorted_desc_spec, sort_desc_sorted.
  - by rewrite sort_desc_perm.
Qed.

Lemma bump_sorted v w sw ts :
  Forall (λ c, subtrees_sorted c = true) ts →
  Forall (λ c, subtrees_sorted c = true) (bump v w sw ts).2.
Proof.
  revert sw. induction ts as [|c ts IH]; intros sw Hts; [done|].
  apply Forall_cons in Hts as [Hc Hts]. cbn [bump]. case_bool_decide.
  - specialize (IH (sw + w) Hts). destruct (bump _ _ _ _). cbn in *.
    constructor; [|done]. by destruct c.
  - specialize (IH sw Hts). destruct (bump _ _ _ _). cbn in *.
    by constructor.
Qed.

Lemma insert_sorted prefix : ∀ t v w t',
  subtrees_sorted t = true → insert t v w prefix = Some t' →
  subtrees_sorted t' = true.
Proof.
  induction prefix as [|s prefix IH]; intros [r w0 ts] v w t' Hsorted Hins.
  - apply subtrees_sorted_unfold in Hsorted as [_ Hts].
    cbn [insert root weight subtrees] in Hins.
    case_bool_decide as Hw; [|done]. simplify_eq.
    destruct ts as [|c ts].
    { apply sort_subtrees_sorted. by apply Forall_singleton. }
    case_bool_decide.
    + apply sort_subtrees_sorted, Forall_app. split; [done|].
      by apply Forall_singleton.
    + pose proof (bump_sorted v w w0 (c :: ts) Hts) as Hb.
      destruct (bump _ _ _ _). by apply sort_subtrees_sorted.
  - apply subtrees_sorted_unfold in Hsorted as [_ Hts].
    cbn [insert root weight subtrees] in Hins.
    case_bool_decide as Hw; [|done].
    destruct r as [q|?]; [|done].
    cbn [create_node mbind option_bind root] in Hins.
    case_bool_decide.
    + destruct (insert _ v w prefix) as [new|] eqn:Hnew; [|done].
      cbn [mbind option_bind] in Hins. simplify_eq.
      apply sort_subtrees_sorted, Forall_app. split; [done|].
      apply Forall_singleton. by eapply IH; [|exact Hnew].
    + destruct (py_index _ _) as [i|]; [|done].
      cbn [mbind option_bind] in Hins.
      destruct (ts !! i) as [c|] eqn:Hi; [|done].
      cbn [mbind option_bind] in Hins.
      destruct (insert c v w prefix) as [c'|] eqn:Hc'; [|done].
      cbn [mbind option_bind] in Hins. simplify_eq.
      apply sort_subtrees_sorted, Forall_insert; [done|].
      eapply IH; [|exact Hc']. by eapply Forall_lookup_1 in Hts.
Qed.

Lemma insert_reachable_sorted t : insert_reachable t → subtrees_sorted t = true.
Proof.
  induction 1 as [|t v w prefix t' _ IH _ Hins]; [done|].
  by eapply insert_sorted.
Qed.

(** *** [insert] keeps the weights exact *)

Lemma tight_unfold r w ts :
  tight (Node r w ts) ↔
  (ts ≠ [] → w = sum_weights ts) ∧ Forall (λ c, has_child c ∧ tight c) ts.
Proof.
  cbn [tight].
  assert (∀ l : list tree,
    (fix all (ts : list tree) : Prop :=
       match ts with
       | [] => True
       | c :: ts' => (has_child c ∧ tight c) ∧ all ts'
       end) l
    ↔ Forall (λ c, has_child c ∧ tight c) l) as Hall.
  { induction l as [|c l IH]; [by split; [constructor|]|].
    by rewrite Forall_cons, IH. }
  by rewrite Hall.
Qed.

Lemma tight_leaf v w : tight (Node (RValue v) w [] : tree).
Proof. by apply tight_unfold. Qed.

Lemma tight_sort r w ts :
  tight (Node r w ts) → tight (sort_subtrees (Node r w ts)).
Proof.
  unfold sort_subtrees. cbn [root weight subtrees]. rewrite !tight_unfold.
  intros [Hw Hts]. split.
  - intros Hne. rewrite (sum_weights_perm _ ts) by apply sort_desc_perm.
    apply Hw. by intros ->.
  - by rewrite sort_desc_perm.
Qed.

Lemma get_leaf_value_leaves t : get_leaf_value t = root <$> get_leaves t.
Proof.
  induction t as [r w ts IH] using tree_ind.
  cbn [get_leaf_value get_leaves].
  destruct (is_empty _); [done|]. destruct (is_leaf _); [done|].
  rewrite fmap_bind_list. by apply Forall_bind_ext.
Qed.

Lemma leaf_value_path par t v :
  RValue v ∈ get_leaf_value t →
  ∃ path w, (path, Node (RValue v) w []) ∈ leaf_paths par t.
Proof.
  rewrite get_leaf_value_leaves, <-(leaf_paths_snd t par), <-list_fmap_compose.
  intros ([path [r w ts]] & Hr & Hx)%list_elem_of_fmap. cbn in Hr. subst r.
  apply leaf_paths_is_leaf in Hx as Hleaf. cbn in Hleaf.
  destruct Hleaf as [-> _]. by exists path, w.
Qed.

Lemma insert_tight prefix : ∀ par q w0 ts v w,
  0 < w → inner q w0 ts → tight (Node (RPrefix q) w0 ts) →
  (∀ x, x ∈ leaf_paths par (Node (RPrefix q) w0 ts) →
        root x.2 = RValue v → x.1 = q ++ prefix) →
  ∃ t', insert (Node (RPrefix q) w0 ts) v w prefix = Some t' ∧
    tight t' ∧ subtrees t' ≠ [] ∧
    weight t' = match ts with [] => w | _ :: _ => w0 + w end.
Proof.
  induction prefix as [|s prefix IH]; intros par q w0 ts v w Hw Hin Hti Hpre.
  - apply tight_unfold in Hti as [Hsum Hts].
    cbn [insert subtrees root weight]; rewrite (bool_decide_eq_true_2 (0 < _)) by done. destruct ts as [|c0 ts0].
    { eexists. split; [done|]. unfold sort_subtrees.
      cbn [root weight subtrees sort_desc foldr insert_desc].
      split_and!; [|done..]. apply tight_unfold. split.
      - intros _. rewrite sum_weights_cons, sum_weights_nil. qc_arith.
      - apply Forall_singleton. split; [done|apply tight_leaf]. }
    set (ts := c0 :: ts0) in *. specialize (Hsum ltac:(done)).
    case_bool_decide as Hnew.
    + eexists. split; [done|]. split_and!; [|by intros ?%sort_desc_nil_inv|done].
      apply tight_sort, tight_unfold. split.
      * intros _. rewrite sum_weights_app, sum_weights_cons, sum_weights_nil.
        qc_arith.
      * apply Forall_app. split; [done|].
        apply Forall_singleton. split; [done|apply tight_leaf].
    + destruct (leaf_value_path par _ _ Hnew) as (path & wl & Hx).
      pose proof (Hpre _ Hx eq_refl) as Hpath. cbn in Hpath. subst path.
      destruct (leaf_below_node _ _ _ _ _ (Node (RValue v) wl []) Hin
                  (ex_intro _ v eq_refl) Hx) as (_ & i & c & Hi & _ & ->).
      destruct Hin as (_ & Hnd & _).
      rewrite (bump_at v w w0 ts i _ Hnd Hi eq_refl). cbn [root weight subtrees].
      eexists. split; [done|]. split_and!; [| |done].
      * apply tight_sort, tight_unfold. split.
        -- intros _.
           pose proof (sum_weights_insert _ _ _ (Node (RValue v) (wl + w) []) Hi)
             as Hs.
           qc_arith.
        -- apply Forall_insert; [done|]. split; [done|apply tight_leaf].
      * cbn [sort_subtrees subtrees]. intros Hnil%sort_desc_nil_inv.
        apply (f_equal length) in Hnil. rewrite length_insert in Hnil. done.
  - apply tight_unfold in Hti as [Hsum Hts].
    cbn [insert create_node root weight subtrees mbind option_bind]; rewrite (bool_decide_eq_true_2 (0 < _)) by done.
    case_bool_decide as Hnew.
    + destruct (IH q (q ++ [s]) w [] v w Hw) as (new & -> & Htn & Hne & Hwn).
      { apply inner_nil. qc_arith. }
      { by apply tight_unfold. }
      { intros x. rewrite leaf_paths_leaf by done.
        by intros ->%list_elem_of_singleton. }
      cbn [mbind option_bind]. eexists. split; [done|].
      cbn [sort_subtrees root weight subtrees]. rewrite extend_weight.
      split_and!; [|intros ?%sort_desc_nil_inv; by destruct ts|done].
      apply (tight_sort (RPrefix q)), tight_unfold. split.
      * intros _. rewrite sum_weights_app, sum_weights_cons, sum_weights_nil.
        destruct ts as [|c0 ts0]; [rewrite sum_weights_nil; qc_arith|].
        specialize (Hsum ltac:(done)). qc_arith.
      * apply Forall_app. split; [done|]. apply Forall_singleton.
        split; [|done]. unfold has_child. by destruct (root new).
    + unfold get_subtree_roots in Hnew |- *.
      destruct (py_index_Some _ _ Hnew) as (i & -> & Hi).
      cbn [mbind option_bind].
      apply list_lookup_fmap_Some in Hi as (c & Hc & Hi).
      rewrite Hi. cbn [mbind option_bind].
      pose proof Hin as (_ & _ & Hwf).
      pose proof (Forall_lookup_1 _ _ _ _ Hwf Hi) as Hwfc.
      pose proof (Forall_lookup_1 _ _ _ _ Hts Hi) as [Hchild Htc].
      apply wf_inv in Hwfc as [(v' & wc & -> & _)|(s' & wc & tsc & -> & Hwc & Hinc)];
        [done|].
      cbn in Hc. simplify_eq. unfold has_child in Hchild. cbn in Hchild.
      assert (ts ≠ []) as Hne by (by intros ->).
      assert (0 < w0) as Hw0 by by eapply inner_pos.
      destruct (IH q (q ++ [s']) wc tsc v w Hw Hinc Htc)
        as (c' & -> & Htc' & Hnec' & Hwc').
      { intros x Hx Hr. rewrite <-app_assoc. apply Hpre; [|done].
        rewrite leaf_paths_node by done. apply list_elem_of_bind.
        exists (Node (RPrefix (q ++ [s'])) wc tsc).
        split; [done|by eapply list_elem_of_lookup_2]. }
      cbn [mbind option_bind]. eexists. split; [done|].
      cbn [sort_subtrees root weight subtrees].
      split_and!.
      * apply (tight_sort (RPrefix q)), tight_unfold. split.
        -- intros _. pose proof (sum_weights_insert _ _ _ c' Hi) as Hs.
           specialize (Hsum Hne). cbn in Hs. destruct tsc; [done|]. qc_arith.
        -- apply Forall_insert; [done|]. split; [|done].
           unfold has_child. by destruct (root c').
      * intros Hnil%sort_desc_nil_inv. apply (f_equal length) in Hnil.
        rewrite length_insert in Hnil. by destruct ts.
      * by destruct ts.
Qed.

Lemma forallb_true_Forall {A} (f : A → bool) (l : list A) :
  forallb f l = true ↔ Forall (λ x, f x = true) l.
Proof.
  induction l as [|x l IH]; cbn [forallb]; [by split; [constructor|]|].
  by rewrite andb_true_iff, Forall_cons, IH.
Qed.

Lemma tight_consistent c : ∀ par,
  wf par c → tight c → weights_consistent c = true.
Proof.
  induction c as [r w ts IH] using tree_ind. intros par Hwf Hti.
  pose proof (wf_weight_pos _ _ Hwf) as Hw. cbn [weight] in Hw.
  apply tight_unfold in Hti as [Hsum Hts].
  cbn [weights_consistent]. apply andb_true_iff. split.
  - destruct ts as [|c0 ts0].
    + by rewrite is_leaf_nil, orb_true_r.
    + specialize (Hsum ltac:(done)).
      by rewrite (bool_decide_eq_true_2 _ Hsum), orb_true_r.
  - apply forallb_true_Forall.
    apply wf_inv in Hwf as [(? & ? & ? & _)|(s & w' & ts' & ? & _ & Hin)];
      simplify_eq; [done|].
    destruct Hin as (_ & _ & Hwf).
    rewrite Forall_forall in IH, Hts, Hwf |- *. intros c Hc.
    eapply IH; [done|by apply Hwf|by apply Hts].
Qed.

Lemma tight_consistent_top t :
  wf_top t → tight t → weights_consistent t = true.
Proof.
  destruct t as [r w ts]. intros [Hr Hin] Hti. cbn in Hr, Hin. subst r.
  apply tight_unfold in Hti as [Hsum Hts].
  cbn [weights_consistent]. apply andb_true_iff. split.
  - destruct ts as [|c0 ts0].
    + destruct (decide (w = 0)) as [->|Hw0]; [done|].
      rewrite is_leaf_nil, orb_true_r; [done|].
      apply inner_nonneg in Hin. qc_arith.
    + specialize (Hsum ltac:(done)).
      by rewrite (bool_decide_eq_true_2 _ Hsum), orb_true_r.
  - apply forallb_true_Forall. destruct Hin as (_ & _ & Hwf).
    rewrite Forall_forall in Hts, Hwf |- *. intros c Hc.
    eapply tight_consistent; [by apply Hwf|by apply Hts].
Qed.

Lemma insert_reachable_reachable t : insert_reachable t → reachable t.
Proof.
  induction 1; [apply reachable_empty|by eapply reachable_insert].
Qed.

(** Insertions alone keep the weights exact. *)
Lemma insert_reachable_tight t :
  insert_reachable t → tight t ∧ (subtrees t = [] → weight t = 0).
Proof.
  induction 1 as [|t v w prefix t' Ht [IH _] [Hw Hpre] Hins].
  { split; [by apply tight_unfold|done]. }
  apply insert_reachable_reachable, reachable_wf_top in Ht.
  destruct t as [r w0 ts]. destruct Ht as [Hr Hin]. cbn in Hr, Hin. subst r.
  destruct (insert_tight prefix [] [] w0 ts v w Hw Hin IH)
    as (t'' & Hins' & Hti & Hne & _).
  { intros [path leaf] Hx Hroot. cbn in Hroot |- *.
    rewrite Forall_forall in Hpre.
    apply (Hpre (path, v, weight leaf)); [|done].
    apply list_elem_of_omap. exists (path, leaf). cbn. by rewrite Hroot. }
  by simplify_eq.
Qed.

Lemma insert_reachable_consistent t :
  insert_reachable t → weights_consistent t = true.
Proof.
  intros Ht. apply tight_consistent_top.
  - by apply reachable_wf_top, insert_reachable_reachable.
  - by apply insert_reachable_tight.
Qed.

(** *** Removing a prefix that no leaf begins with *)

Lemma leaf_paths_inhabited c : ∀ par, wf par c → ∃ x, x ∈ leaf_paths par c.
Proof.
  induction c as [r w ts IH] using tree_ind. intros par Hwf.
  pose proof (wf_weight_pos _ _ Hwf) as Hw. cbn [weight] in Hw.
  destruct ts as [|c0 ts0].
  { rewrite leaf_paths_leaf by done. eexists. by left. }
  rewrite leaf_paths_node by done.
  apply wf_inv in Hwf as [(? & ? & ? & _)|(s & w' & ts' & ? & _ & Hin)];
    simplify_eq.
  destruct Hin as (_ & _ & Hwf). apply Forall_cons in Hwf as [Hwf0 _].
  apply Forall_cons in IH as [IH0 _].
  destruct (IH0 _ Hwf0) as [x Hx]. exists x.
  apply list_elem_of_bind. exists c0. split; [done|by left].
Qed.

Lemma remove_loop_id (rm : tree → tree) w ts :
  Forall (λ c, rm c = c ∧ is_empty c = false) ts →
  remove_loop rm w ts = (w, ts).
Proof.
  induction 1 as [|c ts [Hc Hemp] _ IH]; [done|].
  cbn [remove_loop]. by rewrite Hc, Hemp, IH.
Qed.

Lemma remove_children_noop q s p ts :
  Forall (λ c, ∀ par, wf par c →
            (∀ x, x ∈ leaf_paths par c → ¬ (s :: p) `prefix_of` x.1) →
            remove c (s :: p) = c) ts →
  Forall (wf q) ts →
  (∀ x, x ∈ ts ≫= leaf_paths q → ¬ (s :: p) `prefix_of` x.1) →
  Forall (λ c, remove c (s :: p) = c ∧ is_empty c = false) ts.
Proof.
  intros IH Hwf Hno. rewrite Forall_forall in IH, Hwf |- *.
  intros c Hc. split.
  - apply (IH c Hc q); [by apply Hwf|]. intros x Hx. apply Hno.
    apply list_elem_of_bind. by exists c.
  - apply is_empty_pos. eapply wf_weight_pos. by apply Hwf.
Qed.

Lemma remove_noop_wf s p c : ∀ par,
  wf par c →
  (∀ x, x ∈ leaf_paths par c → ¬ (s :: p) `prefix_of` x.1) →
  remove c (s :: p) = c.
Proof.
  induction c as [r w ts IH] using tree_ind. intros par Hwf Hno.
  pose proof (wf_weight_pos _ _ Hwf) as Hw. cbn [weight] in Hw.
  cbn [remove]. rewrite bool_decide_eq_false_2; last first.
  { intros ->. destruct (leaf_paths_inhabited _ _ Hwf) as [x Hx].
    apply (Hno x Hx). by apply (leaf_paths_extend _ _ _ Hwf Hx). }
  destruct ts as [|c0 ts0]; [done|].
  rewrite leaf_paths_node in Hno by done.
  apply wf_inv in Hwf as [(? & ? & ? & _)|(s' & w' & ts' & ? & _ & Hin)];
    simplify_eq.
  destruct Hin as (_ & _ & Hwf). cbn [path_of root] in Hno.
  by rewrite (remove_loop_id _ _ _ (remove_children_noop _ _ _ _ IH Hwf Hno)).
Qed.

(** On a reachable tree, removing a non-empty prefix that no leaf begins
    with changes nothing. *)
Lemma remove_noop t p :
  wf_top t → p ≠ [] →
  (∀ x, x ∈ leaf_paths [] t → ¬ p `prefix_of` x.1) →
  remove t p = t.
Proof.
  destruct t as [r w ts]. intros [Hr Hin] Hp Hno. cbn in Hr, Hin. subst r.
  destruct p as [|s p]; [done|].
  cbn [remove]. rewrite bool_decide_eq_false_2 by done.
  destruct ts as [|c0 ts0]; [done|].
  rewrite leaf_paths_node in Hno; [|by eapply inner_pos|done].
  destruct Hin as (_ & _ & Hwf). cbn [path_of root] in Hno.
  rewrite remove_loop_id; [done|].
  apply (remove_children_noop []); [|done..].
  apply Forall_forall. intros c _. apply remove_noop_wf.
Qed.

Lemma tight_leaves c : ∀ par x,
  wf par c → has_child c → tight c → x ∈ leaf_paths par c →
  ∃ v, root x.2 = RValue v.
Proof.
  induction c as [r w ts IH] using tree_ind. intros par x Hwf Hch Hti.
  pose proof (wf_weight_pos _ _ Hwf) as Hw. cbn [weight] in Hw.
  apply wf_inv in Hwf as [(v & w' & ? & _)|(s & w' & ts' & ? & _ & Hin)];
    simplify_eq.
  { rewrite leaf_paths_leaf by done. intros ->%list_elem_of_singleton.
    by exists v. }
  unfold has_child in Hch. cbn in Hch.
  rewrite leaf_paths_node by done. cbn [path_of root].
  intros (c & Hx & Hc)%list_elem_of_bind.
  apply tight_unfold in Hti as [_ Hts]. destruct Hin as (_ & _ & Hwf).
  rewrite Forall_forall in IH, Hts, Hwf.
  destruct (Hts c Hc). by eapply (IH c Hc); [apply Hwf|..].
Qed.

(** After insertions alone, every leaf holds a value. *)
Lemma insert_reachable_leaves t x :
  insert_reachable t → x ∈ leaf_paths [] t → ∃ v, root x.2 = RValue v.
Proof.
  intros Ht. pose proof (insert_reachable_tight t Ht) as [Hti Hnil].
  apply insert_reachable_reachable, reachable_wf_top in Ht.
  destruct t as [r w ts]. destruct Ht as [Hr Hin]. cbn in Hr, Hin, Hnil. subst r.
  destruct ts as [|c0 ts0].
  { rewrite Hnil by done. cbn. by intros ?%elem_of_nil. }
  rewrite leaf_paths_node; [|by eapply inner_pos|done]. cbn [path_of root].
  intros (c & Hx & Hc)%list_elem_of_bind.
  apply tight_unfold in Hti as [_ Hts]. destruct Hin as (_ & _ & Hwf).
  rewrite Forall_forall in Hts, Hwf. destruct (Hts c Hc).
  by eapply tight_leaves; [apply Hwf|..].
Qed.

Lemma insert_reachable_remove_noop t p :
  insert_reachable t → p ≠ [] →
  Forall (λ e, ¬ p `prefix_of` e.1.1) (stored t) →
  remove t p = t.
Proof.
  intros Ht Hp Hno. apply remove_noop; [|done|].
  { by apply reachable_wf_top, insert_reachable_reachable. }
  intros [path leaf] Hx.
  destruct (insert_reachable_leaves t _ Ht Hx) as [v Hv]. cbn in Hv |- *.
  rewrite Forall_forall in Hno. apply (Hno (path, v, weight leaf)).
  apply list_elem_of_omap. exists (path, leaf). cbn. by rewrite Hv.
Qed.

Lemma stored_matching prefix (l : list (list sym * tree)) :
  Forall (λ x, ∃ v, root x.2 = RValue v) l →
  (λ e, (RValue e.1.2, e.2))
    <$> filter (λ e, prefix `prefix_of` e.1.1)
          (omap (λ x, match root x.2 with
                      | RValue v => Some (x.1, v, weight x.2)
                      | RPrefix _ => None
                      end) l)
  = leaf_pair <$> (snd <$> filter (λ x, prefix `prefix_of` x.1) l).
Proof.
  induction 1 as [|[path leaf] l [v Hv] _ IH]; [done|].
  cbn in Hv. cbn [omap list_omap fst snd]. rewrite Hv.
  destruct (decide (prefix `prefix_of` path)) as [Hp|Hp].
  - rewrite !filter_cons_True by done. cbn [fmap list_fmap fst snd].
    rewrite <-IH. unfold leaf_pair at 1. by rewrite Hv.
  - by rewrite !filter_cons_False by done.
Qed.

(** After insertions alone, [autocomplete] returns the stored values whose
    prefix sequence begins with [prefix]. *)
Lemma insert_reachable_matching t prefix :
  insert_reachable t →
  leaf_pair <$> matching_leaves prefix t
  = (λ e, (RValue e.1.2, e.2))
      <$> filter (λ e, prefix `prefix_of` e.1.1) (stored t).
Proof.
  intros Ht. unfold stored, matching_leaves, matching_in.
  rewrite stored_matching; [done|].
  apply Forall_forall. intros x. by apply insert_reachable_leaves.
Qed.
End prefix_tree_facts.

(** * Further facts about the tree methods *)

Section further_facts.
Context {sym val : Type} `{EqDecision sym, EqDecision val}.
Abbreviation tree := (tree sym val).
Abbreviation root_t := (root_t sym val).
Implicit Types (t c n : tree) (ts : list tree) (p q par prefix : list sym).
Implicit Types (w : Qc) (v value : val) (r : root_t).

(** *** The representation invariants that every reachable tree keeps *)

Lemma nodes_unfold r w ts : nodes (Node r w ts) = Node r w ts :: (ts ≫= nodes).
Proof. done. Qed.

Lemma elem_of_nodes_self t : t ∈ nodes t.
Proof. destruct t. rewrite nodes_unfold. by left. Qed.

Lemma extends_parent_wf q w ts c :
  wf q c → extends_parent (Node (RPrefix q) w ts) c.
Proof.
  intros [(v & wc & -> & _)|(s & wc & tsc & -> & _)]%wf_inv;
    unfold extends_parent; cbn; [done|by exists q, s].
Qed.

Lemma wf_nodes c : ∀ par n, wf par c → n ∈ nodes c → node_ok n.
Proof.
  induction c as [r w ts IH] using tree_ind. intros par n Hwf.
  rewrite nodes_unfold, elem_of_cons. intros [->|Hn].
  - pose proof (wf_weight_pos _ _ Hwf) as Hw.
    apply wf_inv in Hwf as [(v & w' & ? & _)|(s & w' & ts' & ? & _ & Hin)];
      simplify_eq.
    + split_and!; [done| |constructor..]. cbn. rewrite sum_weights_nil. qc_arith.
    + destruct Hin as (Hsum & Hnd & Hwf). split_and!; cbn; [done..| | |].
      * by apply wf_children_pos in Hwf.
      * done.
      * eapply Forall_impl; [exact Hwf|]. intros c. apply extends_parent_wf.
  - apply list_elem_of_bind in Hn as (c & Hn & Hc).
    apply wf_inv in Hwf as [(v & w' & ? & _)|(s & w' & ts' & ? & _ & Hin)];
      simplify_eq; [by apply elem_of_nil in Hc|].
    destruct Hin as (_ & _ & Hwf). rewrite Forall_forall in IH, Hwf.
    eapply (IH c Hc); [by apply Hwf|done].
Qed.

Lemma wf_top_nodes t n :
  wf_top t → n ∈ nodes t →
  0 ≤ weight n ∧
  (weight n = 0 → n = t ∧ subtrees n = []) ∧
  sum_weights (subtrees n) ≤ weight n ∧
  Forall (λ c, is_empty c = false) (subtrees n) ∧
  NoDup (root <$> subtrees n) ∧
  Forall (extends_parent n) (subtrees n).
Proof.
  destruct t as [r w ts]. intros [Hr Hin] Hn. cbn in Hr, Hin. subst r.
  rewrite nodes_unfold, elem_of_cons in Hn. destruct Hn as [->|Hn].
  - pose proof (inner_nonneg _ _ _ Hin) as Hw.
    pose proof Hin as (Hsum & Hnd & Hwf). cbn. split_and!; [done| |done| |done|].
    + intros ->. split; [done|]. destruct ts; [done|].
      by destruct (Qclt_not_eq _ _ (inner_pos _ _ _ Hin ltac:(done))).
    + eapply Forall_impl; [exact Hwf|]. intros c Hc.
      by eapply is_empty_pos, wf_weight_pos.
    + eapply Forall_impl; [exact Hwf|]. intros c. apply extends_parent_wf.
  - apply list_elem_of_bind in Hn as (c & Hn & Hc).
    destruct Hin as (_ & _ & Hwf). rewrite Forall_forall in Hwf.
    destruct (wf_nodes c [] n (Hwf c Hc) Hn) as (Hw & Hsum & Hpos & Hnd & Hext).
    split_and!; [by apply Qclt_le_weak| |done| |done..].
    + intros Hw0. rewrite Hw0 in Hw. by apply Qclt_not_eq in Hw.
    + eapply Forall_impl; [exact Hpos|]. intros d. apply is_empty_pos.
Qed.

(** *** [__len__], [get_leaves] and [get_leaf_value] count the same leaves *)

Lemma len_get_leaves t : len t = length (get_leaves t).
Proof. by rewrite (len_leaf_paths t []), <-(leaf_paths_snd t []), length_fmap. Qed.

Lemma len_get_leaf_value t : len t = length (get_leaf_value t).
Proof. by rewrite get_leaf_value_leaves, length_fmap, len_get_leaves. Qed.

(** *** Edge cases of [autocomplete] *)

Lemma autocomplete_nonpositive_limit t : ∀ prefix (limit : Z),
  (limit ≤ 0)%Z → autocomplete t prefix (Some limit) = [].
Proof.
  induction t as [r w ts IH] using tree_ind. intros prefix limit Hlimit.
  cbn [autocomplete]. case_bool_decide.
  - replace (Z.to_nat _) with 0%nat by lia. done.
  - apply bind_nil_all. rewrite Forall_forall in IH. intros c Hc. by apply IH.
Qed.

Lemma result_of_length limit (l : list tree) :
  length (result_of limit l)
  = match limit with
    | None => length l
    | Some n => (Z.to_nat n `min` length l)%nat
    end.
Proof.
  destruct limit as [n|]; cbn [result_of].
  - rewrite length_fmap, length_take. lia.
  - by rewrite (Permutation_length (sort_desc_perm _ _)), length_fmap.
Qed.

Lemma autocomplete_limit_spec t prefix (n : Z) :
  wf_top t →
  length (autocomplete t prefix (Some n))
    = (Z.to_nat n `min` length (autocomplete t prefix None))%nat ∧
  autocomplete t prefix (Some n) ⊆ autocomplete t prefix None ∧
  ((length (autocomplete t prefix None) ≤ Z.to_nat n)%nat →
   autocomplete t prefix (Some n) ≡ₚ autocomplete t prefix None).
Proof.
  intros Ht. rewrite !(autocomplete_matching t prefix _ Ht).
  rewrite !result_of_length. split; [done|]. cbn [result_of]. split.
  - intros x Hx. rewrite sort_desc_perm.
    apply list_elem_of_fmap in Hx as (y & -> & Hy).
    apply list_elem_of_fmap_2. apply elem_of_take in Hy as (i & Hi & _).
    by eapply list_elem_of_lookup_2.
  - intros Hle. rewrite sort_desc_perm, take_ge; [done|]. lia.
Qed.

Lemma filter_none {A} (P : A → Prop) `{∀ x, Decision (P x)} (l : list A) :
  Forall (λ x, ¬ P x) l → filter P l = [].
Proof.
  induction 1 as [|x l Hx _ IH]; [done|].
  by rewrite filter_cons_False.
Qed.

Lemma autocomplete_no_match t prefix limit :
  wf_top t →
  (∀ x, x ∈ leaf_paths [] t → ¬ prefix `prefix_of` x.1) →
  autocomplete t prefix limit = [].
Proof.
  intros Ht Hno. rewrite (autocomplete_matching t prefix _ Ht).
  unfold matching_leaves, matching_in.
  rewrite filter_none; [by rewrite fmap_nil, result_of_nil|].
  apply Forall_forall. intros x Hx. by apply Hno.
Qed.

(** *** On trees built by insertions a weight is the sum of the leaf weights *)

Lemma sum_weights_bind (f : tree → list tree) ts :
  Forall (λ c, weight c = sum_weights (f c)) ts →
  sum_weights (ts ≫= f) = sum_weights ts.
Proof.
  induction 1 as [|c ts Hc _ IH]; [done|].
  by rewrite bind_cons, sum_weights_app, sum_weights_cons, IH, Hc.
Qed.

Lemma get_leaves_leaf r w : 0 < w → get_leaves (Node r w []) = [Node r w []].
Proof. intros Hw. cbn [get_leaves]. by rewrite is_empty_pos, is_leaf_nil. Qed.

Lemma get_leaves_node r w ts :
  0 < w → ts ≠ [] → get_leaves (Node r w ts) = ts ≫= get_leaves.
Proof.
  intros Hw Hts. destruct ts as [|c ts]; [done|].
  cbn [get_leaves]. by rewrite is_empty_pos, is_leaf_cons.
Qed.

Lemma tight_leaf_sum c : ∀ par n,
  wf par c → has_child c → tight c → n ∈ nodes c →
  weight n = sum_weights (get_leaves n).
Proof.
  induction c as [r w ts IH] using tree_ind. intros par n Hwf Hch Hti.
  pose proof (wf_weight_pos _ _ Hwf) as Hw. cbn [weight] in Hw.
  assert (Forall (λ c, ∀ n, n ∈ nodes c → weight n = sum_weights (get_leaves n))
            ts) as IH'.
  { apply wf_inv in Hwf as [(v & w' & ? & _)|(s & w' & ts' & ? & _ & Hin)];
      simplify_eq; [done|].
    apply tight_unfold in Hti as [_ Hts]. destruct Hin as (_ & _ & Hwf).
    rewrite Forall_forall in IH, Hts, Hwf |- *. intros c Hc n' Hn'.
    destruct (Hts c Hc). eapply (IH c Hc); [by apply Hwf|done..]. }
  rewrite nodes_unfold, elem_of_cons. intros [->|Hn].
  - cbn [weight]. destruct ts as [|c0 ts0].
    { rewrite get_leaves_leaf by done.
      rewrite sum_weights_cons, sum_weights_nil. qc_arith. }
    rewrite get_leaves_node by done.
    apply tight_unfold in Hti as [Hsum _]. rewrite (Hsum ltac:(done)).
    symmetry. apply sum_weights_bind.
    eapply Forall_impl; [exact IH'|]. intros c Hc. apply Hc, elem_of_nodes_self.
  - apply list_elem_of_bind in Hn as (c & Hn & Hc).
    rewrite Forall_forall in IH'. by apply (IH' c Hc).
Qed.

Lemma insert_reachable_leaf_sum t n :
  insert_reachable t → n ∈ nodes t → weight n = sum_weights (get_leaves n).
Proof.
  intros Ht. pose proof (insert_reachable_tight t Ht) as [Hti Hnil].
  apply insert_reachable_reachable, reachable_wf_top in Ht.
  destruct t as [r w ts]. destruct Ht as [Hr Hin]. cbn in Hr, Hin, Hnil. subst r.
  assert (Forall (λ c, ∀ n, n ∈ nodes c → weight n = sum_weights (get_leaves n))
            ts) as IH.
  { apply tight_unfold in Hti as [_ Hts]. destruct Hin as (_ & _ & Hwf).
    rewrite Forall_forall in Hts, Hwf |- *. intros c Hc n' Hn'.
    destruct (Hts c Hc). eapply tight_leaf_sum; [by apply Hwf|done..]. }
  rewrite nodes_unfold, elem_of_cons. intros [->|Hn].
  - cbn [weight]. destruct ts as [|c0 ts0].
    { by rewrite Hnil. }
    rewrite get_leaves_node; [|by eapply inner_pos|done].
    apply tight_unfold in Hti as [Hsum _]. rewrite (Hsum ltac:(done)).
    symmetry. apply sum_weights_bind.
    eapply Forall_impl; [exact IH|]. intros c Hc. apply Hc, elem_of_nodes_self.
  - apply list_elem_of_bind in Hn as (c & Hn & Hc).
    rewrite Forall_forall in IH. by apply (IH c Hc).
Qed.

(** *** Each insertion adds its weight to the weight of the tree *)

Lemma insert_reachable_weight t v w prefix t' :
  insert_reachable t → insert_pre t v w prefix →
  insert t v w prefix = Some t' → weight t' = weight t + w.
Proof.
  intros Ht [Hw Hpre] Hins.
  pose proof (insert_reachable_tight t Ht) as [Hti Hnil].
  apply insert_reachable_reachable, reachable_wf_top in Ht.
  destruct t as [r w0 ts]. destruct Ht as [Hr Hin]. cbn in Hr, Hin, Hnil. subst r.
  destruct (insert_tight prefix [] [] w0 ts v w Hw Hin Hti)
    as (t'' & Hins' & _ & _ & Hwt).
  { intros [path leaf] Hx Hroot. cbn in Hroot |- *.
    rewrite Forall_forall in Hpre.
    apply (Hpre (path, v, weight leaf)); [|done].
    apply list_elem_of_omap. exists (path, leaf). cbn. by rewrite Hroot. }
  simplify_eq. rewrite Hwt. cbn [weight]. destruct ts; [|done].
  rewrite Hnil by done. qc_arith.
Qed.

Lemma run_from_inserts ops : ∀ t,
  insert_reachable t → Forall is_insert ops → legal t ops = true →
  ∃ t', run_from t ops = Some t' ∧ insert_reachable t' ∧
        weight t' = weight t + inserted_weight ops.
Proof.
  induction ops as [|o ops IH]; intros t Ht Hops Hlegal.
  { exists t. split_and!; [done..|]. cbn. qc_arith. }
  apply Forall_cons in Hops as [Ho Hops].
  destruct o as [v w p|]; [|done]. cbn [legal run_op] in Hlegal.
  apply andb_true_iff in Hlegal as [Hpre%bool_decide_eq_true Hlegal].
  cbn [run_from run_op]. destruct (insert t v w p) as [t1|] eqn:Hins; [|done].
  cbn [mbind option_bind].
  assert (insert_reachable t1) as Ht1 by by eapply insert_reachable_insert.
  destruct (IH t1 Ht1 Hops Hlegal) as (t' & -> & Ht' & Hw').
  exists t'. split_and!; [done..|].
  rewrite Hw', (insert_reachable_weight t v w p t1 Ht Hpre Hins).
  cbn [inserted_weight]. qc_arith.
Qed.

(** *** The stored values below a node *)

Lemma stored_stored_in t : stored t = stored_in [] t.
Proof. done. Qed.

Lemma omap_bind_list {A B C} (f : B → option C) (g : A → list B) (l : list A) :
  omap f (l ≫= g) = l ≫= (λ x, omap f (g x)).
Proof.
  induction l as [|x l IH]; [done|].
  by rewrite !bind_cons, omap_app, IH.
Qed.

Lemma stored_in_value par v w :
  0 < w → stored_in par (Node (RValue v) w [] : tree) = [(par, v, w)].
Proof. intros Hw. unfold stored_in. by rewrite leaf_paths_leaf. Qed.

Lemma stored_in_prefix_nil par q w :
  stored_in par (Node (RPrefix q) w [] : tree) = [].
Proof.
  unfold stored_in. cbn [leaf_paths]. destruct (is_empty _); [done|].
  by destruct (is_leaf _).
Qed.

Lemma stored_in_inner par q w ts :
  inner q w ts → stored_in par (Node (RPrefix q) w ts) = ts ≫= stored_in q.
Proof.
  intros Hin. destruct ts as [|c ts]; [apply stored_in_prefix_nil|].
  unfold stored_in at 1.
  rewrite leaf_paths_node; [|by eapply inner_pos|done].
  apply omap_bind_list.
Qed.

Lemma stored_in_sort par q w ts :
  inner q w (sort_desc weight ts) →
  stored_in par (sort_subtrees (Node (RPrefix q) w ts)) ≡ₚ ts ≫= stored_in q.
Proof.
  intros Hin. unfold sort_subtrees. cbn [root weight subtrees].
  rewrite stored_in_inner by done. by rewrite sort_desc_perm.
Qed.

Lemma stored_in_elem_of par t path v w :
  (path, v, w) ∈ stored_in par t ↔ (path, Node (RValue v) w []) ∈ leaf_paths par t.
Proof.
  unfold stored_in. rewrite list_elem_of_omap. split.
  - intros ([path' [r w' ts]] & Hx & Hf).
    apply leaf_paths_is_leaf in Hx as Hleaf. cbn in Hf, Hleaf.
    destruct Hleaf as [-> _]. destruct r; simplify_eq. done.
  - intros Hx. by eexists.
Qed.

Lemma leaf_value_stored par t v :
  RValue v ∈ get_leaf_value t ↔ v ∈ (λ e, e.1.2) <$> stored_in par t.
Proof.
  split.
  - intros (path & w & Hx)%(leaf_value_path par).
    apply list_elem_of_fmap. exists (path, v, w). split; [done|].
    by apply stored_in_elem_of.
  - intros ([[path v'] w] & -> & Hx%stored_in_elem_of)%list_elem_of_fmap.
    rewrite get_leaf_value_leaves, <-(leaf_paths_snd t par), <-list_fmap_compose.
    apply list_elem_of_fmap. by exists (path, Node (RValue v') w []).
Qed.

(** *** Inserting a value that is not stored *)

Lemma insert_fresh prefix : ∀ par q w0 ts v w,
  0 < w → inner q w0 ts →
  RValue v ∉ get_leaf_value (Node (RPrefix q) w0 ts) →
  ∃ t', insert (Node (RPrefix q) w0 ts) v w prefix = Some t' ∧
    root t' = RPrefix q ∧ inner q (weight t') (subtrees t') ∧
    stored_in par t' ≡ₚ (q ++ prefix, v, w) :: stored_in par (Node (RPrefix q) w0 ts).
Proof.
  induction prefix as [|s prefix IH]; intros par q w0 ts v w Hw Hin Hnew.
  - destruct (insert_inner [] q w0 ts v w Hw Hin) as (t' & Hins & Hr & Hin' & _).
    exists t'. split_and!; [done..|]. rewrite (stored_in_inner par q w0 ts Hin).
    cbn [insert subtrees root weight] in Hins; rewrite (bool_decide_eq_true_2 (0 < _)) in Hins by done. destruct ts as [|c0 ts0].
    { simplify_eq. rewrite stored_in_sort by exact Hin'.
      rewrite (bind_cons _ _ []), stored_in_value by done.
      cbn [mbind list_bind]. by rewrite !app_nil_r. }
    rewrite bool_decide_eq_true_2 in Hins by done. simplify_eq.
    rewrite stored_in_sort by exact Hin'.
    rewrite bind_app, (bind_cons _ _ []), stored_in_value by done.
    cbn [mbind list_bind]. rewrite !app_nil_r.
    symmetry. apply Permutation_cons_append.
  - destruct (insert_inner (s :: prefix) q w0 ts v w Hw Hin)
      as (t' & Hins & Hr & Hin' & _).
    exists t'. split_and!; [done..|]. rewrite (stored_in_inner par q w0 ts Hin).
    cbn [insert create_node root weight subtrees mbind option_bind] in Hins; rewrite (bool_decide_eq_true_2 (0 < _)) in Hins by done.
    case_bool_decide as Hfresh.
    + destruct (IH q (q ++ [s]) w [] v w Hw) as (new & Hnewins & Hrn & Hinn & Hst).
      { apply inner_nil. qc_arith. }
      { rewrite get_leaf_value_leaf by done. by intros ?%list_elem_of_singleton. }
      rewrite Hnewins in Hins. cbn [mbind option_bind] in Hins. simplify_eq.
      rewrite stored_in_prefix_nil in Hst.
      rewrite stored_in_sort by exact Hin'.
      rewrite bind_app, (bind_cons _ _ []), Hst, <-app_assoc.
      cbn [mbind list_bind app]. symmetry. apply Permutation_cons_append.
    + unfold get_subtree_roots in Hfresh, Hins.
      destruct (py_index_Some _ _ Hfresh) as (i & Hidx & Hi).
      rewrite Hidx in Hins. cbn [mbind option_bind] in Hins.
      apply list_lookup_fmap_Some in Hi as (c & Hc & Hi).
      rewrite Hi in Hins. cbn [mbind option_bind] in Hins.
      pose proof Hin as (_ & _ & Hwf).
      pose proof (Forall_lookup_1 _ _ _ _ Hwf Hi) as Hwfc.
      apply wf_inv in Hwfc as [(v' & wc & -> & _)|(s' & wc & tsc & -> & Hwc & Hinc)];
        [done|].
      cbn in Hc. simplify_eq.
      assert (ts ≠ []) as Hne by (by intros ->).
      assert (0 < w0) as Hw0 by by eapply inner_pos.
      destruct (IH q (q ++ [s']) wc tsc v w Hw Hinc)
        as (c' & Hc' & Hrc & Hinc' & Hst).
      { intros Hv. apply Hnew. rewrite get_leaf_value_node by done.
        apply list_elem_of_bind. eexists. split; [exact Hv|].
        by eapply list_elem_of_lookup_2. }
      rewrite Hc' in Hins. cbn [mbind option_bind] in Hins. simplify_eq.
      rewrite stored_in_sort by exact Hin'.
      rewrite bind_insert_split by (by eapply lookup_lt_Some).
      rewrite (bind_lookup_split _ ts _ _ Hi), Hst, <-app_assoc.
      cbn [app]. symmetry. apply Permutation_middle.
Qed.

Lemma insert_fresh_top t v w prefix :
  wf_top t → 0 < w → v ∉ (λ e, e.1.2) <$> stored t →
  ∃ t', insert t v w prefix = Some t' ∧
        stored t' ≡ₚ (prefix, v, w) :: stored t.
Proof.
  destruct t as [r w0 ts]. intros [Hr Hin] Hw Hnew. cbn in Hr, Hin. subst r.
  destruct (insert_fresh prefix [] [] w0 ts v w Hw Hin) as (t' & Hins & _ & _ & Hst).
  { by rewrite (leaf_value_stored []). }
  by exists t'.
Qed.

(** *** What [remove] does to the stored values *)

Lemma leaf_paths_is_empty par t : is_empty t = true → leaf_paths par t = [].
Proof. intros He. destruct t. cbn [leaf_paths]. by rewrite He. Qed.

Lemma stored_in_is_empty par t : is_empty t = true → stored_in par t = [].
Proof. intros He. unfold stored_in. by rewrite leaf_paths_is_empty. Qed.

Lemma leaf_paths_node_elem par q w ts x :
  x ∈ leaf_paths par (Node (RPrefix q) w ts) →
  x.1 = q ∨ x ∈ ts ≫= leaf_paths q.
Proof.
  cbn [leaf_paths]. destruct (is_empty _); [by intros ?%elem_of_nil|].
  destruct (is_leaf _); [intros ->%list_elem_of_singleton; by left|].
  by right.
Qed.

Lemma untouched_stored p q (l : list tree) :
  Forall (untouched p q) l →
  filter (λ e, ¬ p `prefix_of` e.1.1) (l ≫= stored_in q) = l ≫= stored_in q.
Proof.
  intros Hl. apply filter_all, Forall_forall.
  intros [[path v] w] (c & He & Hc)%list_elem_of_bind.
  rewrite Forall_forall in Hl. destruct (Hl c Hc) as (_ & _ & Hno).
  apply stored_in_elem_of in He. by apply (Hno _ He).
Qed.

Lemma untouched_leaves p q (l : list tree) x :
  Forall (untouched p q) l → x ∈ l ≫= leaf_paths q → ¬ p `prefix_of` x.1.
Proof.
  intros Hl (c & Hx & Hc)%list_elem_of_bind.
  rewrite Forall_forall in Hl. destruct (Hl c Hc) as (_ & _ & Hno).
  by apply Hno.
Qed.

Lemma off_path_untouched s p q c :
  wf q c → ¬ (s :: p) `prefix_of` q →
  (∀ k, root c = RPrefix k → ¬ k `prefix_of` s :: p) →
  untouched (s :: p) q c.
Proof.
  intros Hwf Hq Hoff.
  assert (∀ x, x ∈ leaf_paths q c → ¬ (s :: p) `prefix_of` x.1) as Hno.
  { intros x Hx Hp. pose proof (leaf_paths_extend _ _ _ Hwf Hx) as Hext.
    apply wf_inv in Hwf as [(v & w & -> & Hw)|(s' & w & ts & -> & _ & _)].
    - rewrite leaf_paths_leaf in Hx by done.
      apply list_elem_of_singleton in Hx as ->. done.
    - cbn [path_of root] in Hext.
      destruct (prefix_weak_total _ _ _ Hp Hext) as [Hc|Hc].
      + apply prefix_snoc_inv in Hc as [Hc|Hc]; [done|].
        apply (Hoff _ eq_refl). by rewrite Hc.
      + by apply (Hoff _ eq_refl). }
  split_and!; [by eapply remove_noop_wf| |done].
  apply is_empty_pos. by eapply wf_weight_pos.
Qed.

Lemma children_split q s p ts :
  ¬ (s :: p) `prefix_of` q → Forall (wf q) ts → NoDup (root <$> ts) →
  Forall (untouched (s :: p) q) ts ∨
  ∃ l1 c l2, ts = l1 ++ c :: l2 ∧
    Forall (untouched (s :: p) q) l1 ∧ Forall (untouched (s :: p) q) l2.
Proof.
  intros Hq. induction ts as [|c0 ts IH]; intros Hwf Hnd; [by left|].
  apply Forall_cons in Hwf as [Hwf0 Hwf]. rewrite fmap_cons in Hnd.
  apply NoDup_cons in Hnd as [Hnot Hnd].
  destruct (root c0) as [k|v] eqn:Hr0.
  2: { assert (untouched (s :: p) q c0) as Hu.
       { apply off_path_untouched; [done..|]. intros k. by rewrite Hr0. }
       destruct (IH Hwf Hnd) as [Hall|(l1 & c & l2 & -> & H1 & H2)].
       - left. by constructor.
       - right. exists (c0 :: l1), c, l2. split_and!; [done| |done].
         by constructor. }
  destruct (decide (k `prefix_of` s :: p)) as [Hon|Hoff].
  - right. exists [], c0, ts. split_and!; [done|constructor|].
    apply Forall_forall. intros d Hd. rewrite Forall_forall in Hwf.
    apply off_path_untouched; [by apply Hwf|done|].
    intros k' Hr' Hon'. apply Hnot. apply list_elem_of_fmap.
    exists d. split; [|done]. rewrite Hr'. f_equal.
    pose proof (Hwf d Hd) as Hwfd.
    apply wf_inv in Hwf0 as [(? & ? & -> & _)|(s0 & ? & ? & -> & _ & _)];
      [done|].
    apply wf_inv in Hwfd as [(? & ? & -> & _)|(sd & ? & ? & -> & _ & _)];
      [done|].
    cbn in Hr0, Hr'. simplify_eq. f_equal.
    destruct (prefix_weak_total _ _ _ Hon Hon') as [Hc|Hc];
      apply prefix_app_inv, prefix_cons_inv_1 in Hc; by rewrite Hc.
  - assert (untouched (s :: p) q c0) as Hu.
    { apply off_path_untouched; [done..|]. intros k'. rewrite Hr0.
      by intros [= ->]. }
    destruct (IH Hwf Hnd) as [Hall|(l1 & c & l2 & -> & H1 & H2)].
    + left. by constructor.
    + right. exists (c0 :: l1), c, l2. split_and!; [done| |done].
      by constructor.
Qed.

Lemma remove_loop_untouched p q w (l : list tree) :
  Forall (untouched p q) l → remove_loop (λ c, remove c p) w l = (w, l).
Proof.
  intros Hl. apply remove_loop_id. eapply Forall_impl; [exact Hl|].
  by intros c (? & ? & _).
Qed.

Lemma remove_loop_decompose p q (l1 l2 : list tree) c : ∀ w,
  Forall (untouched p q) l1 → Forall (untouched p q) l2 →
  remove_loop (λ c, remove c p) w (l1 ++ c :: l2)
  = if is_empty (remove c p) then (w - weight c, l1 ++ l2)
    else (w, l1 ++ remove c p :: l2).
Proof.
  intros w H1 H2. induction H1 as [|d l1 (Hd & Hemp & _) _ IH].
  - cbn [app remove_loop]. destruct (is_empty (remove c p)).
    + destruct H2 as [|d l2 _ H2]; [done|].
      by rewrite (remove_loop_untouched p q).
    + by rewrite (remove_loop_untouched p q).
  - cbn [app remove_loop]. rewrite Hd, Hemp, IH.
    by destruct (is_empty (remove c p)).
Qed.

Lemma remove_children_stored q s p w ts :
  inner q w ts → ¬ (s :: p) `prefix_of` q →
  Forall (λ c, ∀ par, wf par c → ¬ (s :: p) `prefix_of` par →
     stored_in par (remove c (s :: p))
       = filter (λ e, ¬ (s :: p) `prefix_of` e.1.1) (stored_in par c) ∧
     ∀ x, x ∈ leaf_paths par (remove c (s :: p)) →
          ¬ (s :: p) `prefix_of` x.1) ts →
  ∃ sw ts', remove_loop (λ c, remove c (s :: p)) w ts = (sw, ts') ∧
    inner q sw ts' ∧
    ts' ≫= stored_in q
      = filter (λ e, ¬ (s :: p) `prefix_of` e.1.1) (ts ≫= stored_in q) ∧
    ∀ x, x ∈ ts' ≫= leaf_paths q → ¬ (s :: p) `prefix_of` x.1.
Proof.
  intros Hin Hq IH.
  destruct (remove_loop_inner _ (λ c, remove c (s :: p)) _ _ Hin)
    as (sw & ts' & Hloop & Hin' & _).
  { destruct Hin as (_ & _ & Hwf). eapply Forall_impl; [exact Hwf|].
    intros c. apply remove_wf. }
  exists sw, ts'. split_and!; [done..| |]; destruct Hin as (_ & Hnd & Hwf).
  all: destruct (children_split q s p ts Hq Hwf Hnd)
         as [Hall|(l1 & c & l2 & -> & H1 & H2)].
  - rewrite (remove_loop_untouched _ q) in Hloop by done. simplify_eq.
    by rewrite untouched_stored.
  - rewrite (remove_loop_decompose _ q) in Hloop by done.
    apply Forall_app in IH as [_ [IHc _]%Forall_cons].
    apply Forall_app in Hwf as [_ [Hwfc _]%Forall_cons].
    destruct (IHc q Hwfc Hq) as [Hst _].
    rewrite bind_app, bind_cons, !filter_app, !untouched_stored, <-Hst by done.
    destruct (is_empty (remove c (s :: p))) eqn:Hemp; simplify_eq.
    + by rewrite stored_in_is_empty, bind_app.
    + by rewrite bind_app, bind_cons.
  - rewrite (remove_loop_untouched _ q) in Hloop by done. simplify_eq.
    intros x. by apply untouched_leaves.
  - rewrite (remove_loop_decompose _ q) in Hloop by done.
    apply Forall_app in IH as [_ [IHc _]%Forall_cons].
    apply Forall_app in Hwf as [_ [Hwfc _]%Forall_cons].
    destruct (IHc q Hwfc Hq) as [_ Hno].
    intros x. destruct (is_empty (remove c (s :: p))) eqn:Hemp; simplify_eq.
    + rewrite bind_app. intros [Hx|Hx]%elem_of_app;
        [by apply (untouched_leaves _ q l1)|by apply (untouched_leaves _ q l2)].
    + rewrite bind_app, bind_cons.
      intros [Hx|[Hx|Hx]%elem_of_app]%elem_of_app;
        [by apply (untouched_leaves _ q l1)|by apply Hno
        |by apply (untouched_leaves _ q l2)].
Qed.

Lemma remove_stored_wf s p c : ∀ par,
  wf par c → ¬ (s :: p) `prefix_of` par →
  stored_in par (remove c (s :: p))
    = filter (λ e, ¬ (s :: p) `prefix_of` e.1.1) (stored_in par c) ∧
  ∀ x, x ∈ leaf_paths par (remove c (s :: p)) → ¬ (s :: p) `prefix_of` x.1.
Proof.
  induction c as [r w ts IH] using tree_ind. intros par Hwf Hpar.
  pose proof (wf_weight_pos _ _ Hwf) as Hw. cbn [weight] in Hw.
  cbn [remove]. case_bool_decide as Hr.
  { subst r. split; [|by intros x ?%elem_of_nil].
    rewrite stored_in_is_empty by done. symmetry. apply filter_none.
    apply Forall_forall. intros [[path v] w'] He%stored_in_elem_of Hno.
    apply Hno. by apply (leaf_paths_extend _ _ _ Hwf He). }
  apply wf_inv in Hwf as [(v & w' & ? & _)|(s' & w' & ts' & ? & _ & Hin)];
    simplify_eq.
  { cbn [remove_loop]. rewrite stored_in_value by done.
    split; [symmetry; apply filter_all; by apply Forall_singleton|].
    rewrite leaf_paths_leaf by done. by intros x ->%list_elem_of_singleton. }
  assert (¬ (s :: p) `prefix_of` par ++ [s']) as Hq.
  { intros [?|Heq]%prefix_snoc_inv; [done|]. by rewrite Heq in Hr. }
  destruct (remove_children_stored _ s p _ _ Hin Hq IH)
    as (sw & ts'' & -> & Hin' & Hst & Hno).
  rewrite !stored_in_inner by done. split; [done|].
  intros x [->|Hx]%leaf_paths_node_elem; [done|by apply Hno].
Qed.

Lemma remove_stored t p :
  wf_top t →
  stored (remove t p) = filter (λ e, ¬ p `prefix_of` e.1.1) (stored t) ∧
  ∀ x, x ∈ leaf_paths [] (remove t p) → ¬ p `prefix_of` x.1.
Proof.
  destruct t as [r w ts]. intros [Hr Hin]. cbn in Hr, Hin. subst r.
  rewrite !stored_stored_in.
  destruct p as [|s p].
  { split; [|by intros x ?%elem_of_nil]. cbn [remove].
    rewrite stored_in_is_empty by done. symmetry. apply filter_none.
    apply Forall_forall. intros e _ Hno. apply Hno, prefix_nil. }
  assert (¬ (s :: p) `prefix_of` []) as Hq by by intros ?%prefix_nil_inv.
  cbn [remove]. rewrite bool_decide_eq_false_2 by done.
  destruct (remove_children_stored _ s p _ _ Hin Hq)
    as (sw & ts' & -> & Hin' & Hst & Hno).
  { apply Forall_forall. intros c _. apply remove_stored_wf. }
  rewrite !stored_in_inner by done. split; [done|].
  intros x [->|Hx]%leaf_paths_node_elem; [done|by apply Hno].
Qed.

(** *** The stored values as a dictionary *)

Lemma model_insert_update (m : list (list sym * val * Qc)) v w :
  v ∉ (λ e, e.1.2) <$> m →
  (λ e : list sym * val * Qc,
     if bool_decide (e.1.2 = v) then (e.1, e.2 + w) else e) <$> m = m.
Proof.
  induction m as [|e m IH]; [done|]. rewrite !fmap_cons, not_elem_of_cons.
  intros [Hne Hm]. rewrite bool_decide_eq_false_2 by done. by rewrite IH.
Qed.

Lemma model_insert_values (m : list (list sym * val * Qc)) v w :
  (λ e, e.1.2) <$> ((λ e : list sym * val * Qc,
     if bool_decide (e.1.2 = v) then (e.1, e.2 + w) else e) <$> m)
  = (λ e, e.1.2) <$> m.
Proof.
  induction m as [|e m IH]; [done|]. rewrite !fmap_cons, IH. f_equal.
  by case_bool_decide.
Qed.

Lemma model_op_NoDup (m : list (list sym * val * Qc)) (o : op sym val) :
  NoDup ((λ e, e.1.2) <$> m) → NoDup ((λ e, e.1.2) <$> model_op m o).
Proof.
  intros Hnd. destruct o as [v w p|p]; cbn [model_op].
  - unfold model_insert. case_bool_decide as Hv.
    + by rewrite model_insert_values.
    + rewrite fmap_app. apply NoDup_app. split_and!; [done| |].
      * intros x Hx ->%list_elem_of_singleton. done.
      * apply NoDup_singleton.
  - eapply sublist_NoDup; [exact Hnd|].
    apply fmap_sublist, sublist_filter.
Qed.

Lemma insert_model t (m : list (list sym * val * Qc)) v w p :
  wf_top t → stored t ≡ₚ m → NoDup ((λ e, e.1.2) <$> m) →
  insert_pre t v w p →
  ∃ t', insert t v w p = Some t' ∧ stored t' ≡ₚ model_insert m v w p.
Proof.
  intros Hwf Hm Hnd [Hw Hpre]. unfold model_insert. case_bool_decide as Hv.
  - rewrite <-Hm in Hv.
    apply list_elem_of_fmap in Hv as ([[p' v'] w0] & Hv' & He).
    cbn in Hv'. subst v'. rewrite Forall_forall in Hpre.
    pose proof (Hpre _ He eq_refl) as Hp. cbn in Hp. subst p'.
    destruct (insert_stored_again t p v w0 w Hwf He Hw)
      as (t' & rest & Hins & Hst & Hst' & _).
    exists t'. split; [done|]. rewrite Hst', <-Hm, Hst, fmap_cons.
    cbn [fst snd]. rewrite bool_decide_eq_true_2 by done.
    rewrite <-Hm, Hst, fmap_cons in Hnd. apply NoDup_cons in Hnd as [Hnot _].
    by rewrite model_insert_update.
  - rewrite <-Hm in Hv.
    destruct (insert_fresh_top t v w p Hwf Hw Hv) as (t' & Hins & Hst).
    exists t'. split; [done|]. rewrite Hst, Hm.
    apply Permutation_cons_append.
Qed.

Lemma run_from_model (ops : list (op sym val)) : ∀ t m,
  wf_top t → stored t ≡ₚ m → NoDup ((λ e, e.1.2) <$> m) →
  legal t ops = true →
  ∃ t', run_from t ops = Some t' ∧ wf_top t' ∧
    stored t' ≡ₚ foldl model_op m ops ∧
    NoDup ((λ e, e.1.2) <$> foldl model_op m ops).
Proof.
  induction ops as [|o ops IH]; intros t m Hwf Hm Hnd Hlegal.
  { by exists t. }
  cbn [legal] in Hlegal. apply andb_prop in Hlegal as [Hpre Hlegal].
  cbn [run_from foldl].
  pose proof (model_op_NoDup m o Hnd) as Hnd'.
  destruct o as [v w p|p]; cbn [run_op model_op] in *.
  - apply bool_decide_eq_true in Hpre.
    destruct (insert_model t m v w p Hwf Hm Hnd Hpre) as (t' & Hins & Hst).
    rewrite Hins in Hlegal |- *. cbn [mbind option_bind].
    apply IH; [|done..].
    destruct Hpre as [Hw _].
    destruct (insert_wf_top t v w p Hw Hwf) as (t'' & Hins' & Hwf').
    by simplify_eq.
  - cbn [mbind option_bind]. apply IH; [by apply remove_wf_top| |done..].
    destruct (remove_stored t p Hwf) as [-> _]. unfold model_remove.
    by rewrite Hm.
Qed.

(** *** Insertions whose prefix sequence is a function of the value *)

Lemma model_op_keyed (pf : val → list sym)
    (m : list (list sym * val * Qc)) (o : op sym val) :
  Forall (λ e, e.1.1 = pf e.1.2) m → keyed_op pf o →
  Forall (λ e, e.1.1 = pf e.1.2) (model_op m o).
Proof.
  destruct o as [v w p|p]; cbn [model_op keyed_op].
  - intros Hm [_ ->]. unfold model_insert. case_bool_decide.
    + apply Forall_fmap. eapply Forall_impl; [exact Hm|].
      intros e He. cbn. by case_bool_decide.
    + apply Forall_app. split; [done|]. by apply Forall_singleton.
  - intros Hm _. unfold model_remove. rewrite Forall_forall in Hm |- *.
    intros e [_ He]%list_elem_of_filter. by apply Hm.
Qed.

Lemma keyed_legal (pf : val → list sym) (ops : list (op sym val)) : ∀ t m,
  wf_top t → stored t ≡ₚ m → NoDup ((λ e, e.1.2) <$> m) →
  Forall (λ e, e.1.1 = pf e.1.2) m → Forall (keyed_op pf) ops →
  legal t ops = true.
Proof.
  induction ops as [|o ops IH]; intros t m Hwf Hm Hnd Hk Hops; [done|].
  apply Forall_cons in Hops as [Ho Hops]. cbn [legal].
  pose proof (model_op_NoDup m o Hnd) as Hnd'.
  pose proof (model_op_keyed pf m o Hk Ho) as Hk'.
  destruct o as [v w p|p]; cbn [run_op keyed_op model_op] in *.
  - destruct Ho as [Hw ->].
    assert (insert_pre t v w (pf v)) as Hpre.
    { split; [done|]. rewrite Hm. eapply Forall_impl; [exact Hk|].
      by intros e He <-. }
    rewrite bool_decide_eq_true_2 by done. cbn [andb].
    destruct (insert_model t m v w (pf v) Hwf Hm Hnd Hpre) as (t' & Hins & Hst).
    rewrite Hins. apply (IH t' (model_insert m v w (pf v))); [|done..].
    destruct (insert_wf_top t v w (pf v) Hw Hwf) as (t'' & Hins' & Hwf').
    by simplify_eq.
  - cbn [andb]. apply (IH _ (model_remove m p)); [|  |done..].
    + by apply remove_wf_top.
    + destruct (remove_stored t p Hwf) as [-> _]. unfold model_remove.
      by rewrite Hm.
Qed.

(** *** The weight of a value after insertions only *)

Lemma total_app v (ops1 ops2 : list (op sym val)) :
  total v (ops1 ++ ops2) = total v ops1 + total v ops2.
Proof.
  induction ops1 as [|[v' w p|p] ops1 IH]; cbn [app total].
  - by rewrite Qcplus_0_l.
  - case_bool_decide; rewrite IH; [|done]. by rewrite Qcplus_assoc.
  - done.
Qed.

Lemma total_not_inserted v (ops : list (op sym val)) :
  (∀ w p, Insert v w p ∉ ops) → total v ops = 0.
Proof.
  induction ops as [|[v' w p|p] ops IH]; intros Hno; cbn [total]; [done| |].
  - rewrite bool_decide_eq_false_2.
    + apply IH. intros w' p' Hin. apply (Hno w' p'). by right.
    + intros ->. apply (Hno w p). by left.
  - apply IH. intros w' p' Hin. apply (Hno w' p'). by right.
Qed.

Lemma model_snoc (ops : list (op sym val)) o :
  model (ops ++ [o]) = model_op (model ops) o.
Proof. unfold model. by rewrite foldl_snoc. Qed.

Lemma model_inserts (ops : list (op sym val)) :
  Forall is_insert ops →
  (∀ e, e ∈ model ops → e.2 = total e.1.2 ops) ∧
  (∀ v, v ∈ (λ e, e.1.2) <$> model ops ↔ ∃ w p, Insert v w p ∈ ops).
Proof.
  induction ops as [|o ops IH] using rev_ind; intros Hops.
  { split; [by intros e ?%elem_of_nil|]. intros v. split.
    - by intros ?%elem_of_nil.
    - by intros (w & p & ?%elem_of_nil). }
  apply Forall_app in Hops as [Hops [Ho _]%Forall_cons].
  destruct (IH Hops) as [IHw IHv]. clear IH.
  destruct o as [v w p|p]; [|done]. clear Ho.
  rewrite model_snoc. cbn [model_op]. unfold model_insert.
  assert (∀ v', v' ≠ v →
    total v' (ops ++ [Insert v w p]) = total v' ops) as Hother.
  { intros v' Hv'. rewrite total_app. cbn [total].
    rewrite bool_decide_eq_false_2 by done. by rewrite Qcplus_0_r. }
  assert (total v (ops ++ [Insert v w p]) = total v ops + w) as Hsame.
  { rewrite total_app. cbn [total].
    rewrite bool_decide_eq_true_2 by done. by rewrite Qcplus_0_r. }
  case_bool_decide as Hv; split.
  - intros e (e0 & -> & He0)%list_elem_of_fmap.
    case_bool_decide as Heq; cbn [fst snd].
    + rewrite Heq, Hsame, (IHw e0 He0), Heq. done.
    + rewrite Hother by done. by apply IHw.
  - intros v'. rewrite model_insert_values, IHv. split.
    + intros (w' & p' & Hin). exists w', p'. apply elem_of_app. by left.
    + intros (w' & p' & [Hin|Hin%list_elem_of_singleton]%elem_of_app).
      * by exists w', p'.
      * simplify_eq. by apply IHv.
  - intros e [He| ->%list_elem_of_singleton]%elem_of_app; cbn [fst snd].
    + rewrite Hother; [by apply IHw|]. intros Heq. apply Hv.
      apply list_elem_of_fmap. by exists e.
    + rewrite Hsame, total_not_inserted; [by rewrite Qcplus_0_l|].
      intros w' p' Hin. apply Hv, IHv. by exists w', p'.
  - intros v'. rewrite fmap_app, elem_of_app, IHv. cbn. split.
    + intros [(w' & p' & Hin)| ->%list_elem_of_singleton].
      * exists w', p'. apply elem_of_app. by left.
      * exists w, p. apply elem_of_app. right. by left.
    + intros (w' & p' & [Hin|Hin%list_elem_of_singleton]%elem_of_app).
      * left. by exists w', p'.
      * simplify_eq. right. by left.
Qed.


(** *** Removing twice *)

Lemma remove_idem t p : wf_top t → remove (remove t p) p = remove t p.
Proof.
  intros Hwf. destruct p as [|s p].
  { by destruct t, (remove _ _). }
  apply remove_noop; [by apply remove_wf_top|done|].
  by destruct (remove_stored t (s :: p) Hwf) as [_ Hno].
Qed.

(** *** The values that [autocomplete] returns are the stored ones *)

Lemma result_of_elem limit (l : list tree) x :
  x ∈ result_of limit l → ∃ leaf, leaf ∈ l ∧ x = leaf_pair leaf.
Proof.
  destruct limit as [n|]; cbn [result_of].
  - intros (leaf & -> & Hleaf)%list_elem_of_fmap. exists leaf. split; [|done].
    apply elem_of_take in Hleaf as (i & Hi & _).
    by eapply list_elem_of_lookup_2.
  - rewrite sort_desc_perm. intros (leaf & -> & Hleaf)%list_elem_of_fmap.
    by exists leaf.
Qed.

Lemma autocomplete_stored t p limit v w :
  wf_top t → (RValue v, w) ∈ autocomplete t p limit →
  ∃ path, p `prefix_of` path ∧ (path, v, w) ∈ stored t.
Proof.
  intros Hwf. rewrite (autocomplete_matching t p limit Hwf).
  intros (leaf & Hleaf & Hx)%result_of_elem.
  unfold matching_leaves, matching_in in Hleaf.
  apply list_elem_of_fmap in Hleaf as ([path leaf'] & -> & Hy).
  apply list_elem_of_filter in Hy as [Hp Hy]. cbn in Hp, Hx.
  exists path. split; [done|]. apply stored_elem_of.
  apply leaf_paths_is_leaf in Hy as Hl. destruct leaf' as [r w' ts].
  cbn in Hl. destruct Hl as [-> _]. unfold leaf_pair in Hx. cbn in Hx.
  by simplify_eq.
Qed.

Lemma stored_autocomplete t p path v w :
  wf_top t → (path, v, w) ∈ stored t → p `prefix_of` path →
  (RValue v, w) ∈ autocomplete t p None.
Proof.
  intros Hwf Hst%stored_elem_of Hp.
  rewrite (autocomplete_matching t p None Hwf). cbn [result_of].
  rewrite sort_desc_perm. apply list_elem_of_fmap.
  exists (Node (RValue v) w []). split; [done|].
  unfold matching_leaves, matching_in. apply list_elem_of_fmap.
  exists (path, Node (RValue v) w []). split; [done|].
  by apply list_elem_of_filter.
Qed.

(** *** Sequences of insertions keyed by the value *)

Lemma foldl_run_None {X} (step : X → op sym val) (xs : list X) :
  foldl (λ self x, t ← self; run_op t (step x)) None xs = None.
Proof. induction xs as [|x xs IH]; [done|]. exact IH. Qed.

Lemma foldl_run {X} (step : X → op sym val) (xs : list X) : ∀ t0,
  foldl (λ self x, t ← self; run_op t (step x)) (Some t0) xs
  = run_from t0 (step <$> xs).
Proof.
  induction xs as [|x xs IH]; intros t0; [done|].
  rewrite fmap_cons. cbn [foldl run_from mbind option_bind].
  destruct (run_op t0 (step x)) as [t1|]; [apply IH|apply foldl_run_None].
Qed.

Lemma foldl_model_keyed (pf : val → list sym) (ops : list (op sym val)) :
  ∀ m : list (list sym * val * Qc),
  Forall (λ e, e.1.1 = pf e.1.2) m → Forall (keyed_op pf) ops →
  Forall (λ e, e.1.1 = pf e.1.2) (foldl model_op m ops).
Proof.
  induction ops as [|o ops IH]; intros m Hm Hops; [done|].
  apply Forall_cons in Hops as [Ho Hops]. cbn [foldl].
  apply IH; [|done]. by apply model_op_keyed.
Qed.

Lemma model_keyed (pf : val → list sym) (ops : list (op sym val)) :
  Forall (keyed_op pf) ops → Forall (λ e, e.1.1 = pf e.1.2) (model ops).
Proof. by apply foldl_model_keyed. Qed.

Lemma inserted_weight_keyed (pf : val → list sym) (items : list (val * Qc)) :
  inserted_weight ((λ x, Insert x.1 x.2 (pf x.1)) <$> items)
  = sum_list (items.*2).
Proof.
  induction items as [|x items IH]; [done|].
  rewrite !fmap_cons. cbn [inserted_weight]. by rewrite IH.
Qed.

Lemma total_keyed (pf : val → list sym) (items : list (val * Qc)) v :
  total v ((λ x, Insert x.1 x.2 (pf x.1)) <$> items)
  = sum_list ((filter (λ x, x.1 = v) items).*2).
Proof.
  induction items as [|x items IH]; [done|].
  rewrite fmap_cons, filter_cons. cbn [total]. rewrite IH.
  case_bool_decide; destruct (decide (x.1 = v)); done.
Qed.

Lemma keyed_run (pf : val → list sym) (items : list (val * Qc)) :
  Forall (λ x, 0 < x.2) items →
  ∃ t, run ((λ x, Insert x.1 x.2 (pf x.1)) <$> items) = Some t ∧
    insert_reachable t ∧
    weight t = sum_list (items.*2) ∧
    stored t ≡ₚ model ((λ x, Insert x.1 x.2 (pf x.1)) <$> items) ∧
    NoDup ((λ e, e.1.2) <$> stored t) ∧
    (∀ e, e ∈ stored t ↔
       ∃ x, x ∈ items ∧
         e = (pf x.1, x.1, sum_list ((filter (λ y, y.1 = x.1) items).*2))).
Proof.
  intros Hpos. set (ops := (λ x, Insert x.1 x.2 (pf x.1)) <$> items).
  assert (Forall (keyed_op pf) ops) as Hk.
  { apply Forall_fmap. eapply Forall_impl; [exact Hpos|]. by intros x Hx. }
  assert (Forall is_insert ops) as Hi.
  { apply Forall_fmap, Forall_forall. by intros x _. }
  assert (legal (empty : tree) ops = true) as Hlegal.
  { apply (keyed_legal pf ops empty []); [apply wf_top_empty|done| |done..].
    apply NoDup_nil_2. }
  destruct (run_from_inserts ops empty (insert_reachable_empty) Hi Hlegal)
    as (t & Hrun & Ht & Hwt).
  destruct (run_from_model ops empty [] wf_top_empty) as (t' & Hrun' & _ & Hst & Hnd);
    [done|apply NoDup_nil_2|done|].
  rewrite Hrun in Hrun'. simplify_eq. fold (model ops) in Hst, Hnd.
  destruct (model_inserts ops Hi) as [Hw Hv].
  pose proof (model_keyed pf ops Hk) as Hkm. rewrite Forall_forall in Hkm.
  exists t'. split_and!; [done..| | |by rewrite Hst|].
  { rewrite Hwt. unfold ops. rewrite inserted_weight_keyed. cbn. by rewrite Qcplus_0_l. }
  { done. }
  intros [[p v] w]. rewrite Hst. split.
  - intros He.
    assert (v ∈ (λ e, e.1.2) <$> model ops) as Hin.
    { apply list_elem_of_fmap. by exists (p, v, w). }
    pose proof (Hw _ He) as Hew. pose proof (Hkm _ He) as Hep.
    cbn in Hew, Hep. subst p w.
    apply Hv in Hin as (w & p & Hin). unfold ops in Hin.
    apply list_elem_of_fmap in Hin as (x & Hx & Hin). simplify_eq.
    exists x. split; [done|]. unfold ops. by rewrite total_keyed.
  - intros (x & Hx & ?). simplify_eq.
    assert (x.1 ∈ (λ e, e.1.2) <$> model ops) as Hin.
    { apply Hv. exists x.2, (pf x.1). unfold ops.
      apply list_elem_of_fmap. by exists x. }
    apply list_elem_of_fmap in Hin as ([[p v] w] & Hev & He). cbn in Hev. subst v.
    pose proof (Hw _ He) as Hew. pose proof (Hkm _ He) as Hep.
    cbn in Hew, Hep. subst p w. unfold ops in He |- *.
    by rewrite total_keyed in He.
Qed.

Lemma insert_reachable_len t : insert_reachable t → len t = length (stored t).
Proof.
  intros Ht. rewrite (len_leaf_paths t []). unfold stored.
  pose proof (λ x, insert_reachable_leaves t x Ht) as Hl.
  induction (leaf_paths [] t) as [|x l IH]; [done|]. cbn [omap list_omap].
  destruct (Hl x) as [v ->]; [by left|]. cbn [length]. f_equal.
  apply IH. intros y Hy. apply Hl. by right.
Qed.

Lemma foldl_model_fresh (pf : val → list sym) (items : list (val * Qc)) :
  ∀ m : list (list sym * val * Qc),
  NoDup (((λ e, e.1.2) <$> m) ++ items.*1) →
  foldl model_op m ((λ x, Insert x.1 x.2 (pf x.1)) <$> items)
  = m ++ ((λ x, (pf x.1, x.1, x.2)) <$> items).
Proof.
  induction items as [|x items IH]; intros m Hnd.
  { by rewrite app_nil_r. }
  rewrite !fmap_cons. cbn [foldl model_op]. unfold model_insert.
  rewrite fmap_cons in Hnd.
  rewrite bool_decide_eq_false_2.
  - rewrite IH, <-app_assoc; [done|].
    by rewrite fmap_app, <-app_assoc.
  - apply NoDup_app in Hnd as (_ & Hdis & _). intros Hin.
    apply (Hdis _ Hin). by left.
Qed.

Lemma model_fresh (pf : val → list sym) (items : list (val * Qc)) :
  NoDup (items.*1) →
  model ((λ x, Insert x.1 x.2 (pf x.1)) <$> items)
  = (λ x, (pf x.1, x.1, x.2)) <$> items.
Proof. intros Hnd. unfold model. by rewrite foldl_model_fresh. Qed.

Lemma remove_weight_le t p : wf_top t → weight (remove t p) ≤ weight t.
Proof.
  destruct t as [r w ts]. intros [Hr Hin]. cbn in Hr, Hin. subst r.
  destruct p as [|s p]; [by apply (inner_nonneg _ _ _ Hin)|].
  cbn [remove]. rewrite bool_decide_eq_false_2 by done.
  destruct (remove_loop_inner _ (λ c, remove c (s :: p)) _ _ Hin)
    as (sw & ts' & -> & _ & Hle); [|done].
  destruct Hin as (_ & _ & Hwf). eapply Forall_impl; [exact Hwf|].
  intros c. apply remove_wf.
Qed.

Lemma remove_autocomplete_nil t p p' limit :
  wf_top t → p `prefix_of` p' → autocomplete (remove t p) p' limit = [].
Proof.
  intros Ht Hp. apply autocomplete_no_match; [by apply remove_wf_top|].
  destruct (remove_stored t p Ht) as [_ Hno].
  intros x Hx Hp'. apply (Hno x Hx). by trans p'.
Qed.

(** *** The weight of a node bounds the weights below it *)

Lemma sum_weights_bind_le (f : tree → list tree) ts :
  Forall (λ c, sum_weights (f c) ≤ weight c) ts →
  sum_weights (ts ≫= f) ≤ sum_weights ts.
Proof.
  induction 1 as [|c ts Hc _ IH]; [apply Qcle_refl|].
  rewrite bind_cons, sum_weights_app, sum_weights_cons. qc_arith.
Qed.

Lemma wf_nodes_leaf_sum c : ∀ par n,
  wf par c → n ∈ nodes c → sum_weights (get_leaves n) ≤ weight n.
Proof.
  induction c as [r w ts IH] using tree_ind. intros par n Hwf.
  pose proof (wf_weight_pos _ _ Hwf) as Hw. cbn [weight] in Hw.
  assert (Forall (λ c, ∀ n, n ∈ nodes c → sum_weights (get_leaves n) ≤ weight n)
            ts) as IH'.
  { apply wf_inv in Hwf as [(v & w' & ? & _)|(s & w' & ts' & ? & _ & Hin)];
      simplify_eq; [done|].
    destruct Hin as (_ & _ & Hwf). rewrite Forall_forall in IH, Hwf |- *.
    intros c Hc n' Hn'. eapply (IH c Hc); [by apply Hwf|done]. }
  rewrite nodes_unfold, elem_of_cons. intros [->|Hn].
  - cbn [weight]. destruct ts as [|c0 ts0].
    { rewrite get_leaves_leaf by done.
      rewrite sum_weights_cons, sum_weights_nil. qc_arith. }
    rewrite get_leaves_node by done.
    apply wf_inv in Hwf as [(v & w' & ? & _)|(s & w' & ts' & ? & _ & Hin)];
      simplify_eq.
    destruct Hin as (Hsum & _ & _).
    assert (sum_weights ((c0 :: ts0) ≫= get_leaves) ≤ sum_weights (c0 :: ts0))
      as Hle; [|qc_arith].
    apply sum_weights_bind_le.
    eapply Forall_impl; [exact IH'|]. intros c Hc. apply Hc, elem_of_nodes_self.
  - apply list_elem_of_bind in Hn as (c & Hn & Hc).
    rewrite Forall_forall in IH'. by apply (IH' c Hc).
Qed.

Lemma wf_top_nodes_leaf_sum t n :
  wf_top t → n ∈ nodes t → sum_weights (get_leaves n) ≤ weight n.
Proof.
  destruct t as [r w ts]. intros [Hr Hin]. cbn in Hr, Hin. subst r.
  pose proof (inner_nonneg _ _ _ Hin) as Hw0.
  assert (Forall (λ c, ∀ n, n ∈ nodes c → sum_weights (get_leaves n) ≤ weight n)
            ts) as IH.
  { destruct Hin as (_ & _ & Hwf). rewrite Forall_forall in Hwf |- *.
    intros c Hc n' Hn'. eapply wf_nodes_leaf_sum; [by apply Hwf|done]. }
  rewrite nodes_unfold, elem_of_cons. intros [->|Hn].
  - cbn [weight]. destruct ts as [|c0 ts0].
    { destruct (decide (w = 0)) as [->|Hne].
      - cbn [get_leaves]. unfold is_empty. cbn [weight].
        rewrite bool_decide_eq_true_2 by done. apply Qcle_refl.
      - rewrite get_leaves_leaf by qc_arith.
        rewrite sum_weights_cons, sum_weights_nil. qc_arith. }
    rewrite get_leaves_node; [|by eapply inner_pos|done].
    destruct Hin as (Hsum & _ & _).
    assert (sum_weights ((c0 :: ts0) ≫= get_leaves) ≤ sum_weights (c0 :: ts0))
      as Hle; [|qc_arith].
    apply sum_weights_bind_le.
    eapply Forall_impl; [exact IH|]. intros c Hc. apply Hc, elem_of_nodes_self.
  - apply list_elem_of_bind in Hn as (c & Hn & Hc).
    rewrite Forall_forall in IH. by apply (IH c Hc).
Qed.

Lemma stored_weight_le (l : list (list sym * tree)) :
  Forall (λ x, 0 < weight x.2) l →
  sum_list ((λ e, e.2)
              <$> omap (λ x, match root x.2 with
                             | RValue v => Some (x.1, v, weight x.2)
                             | RPrefix _ => None
                             end) l)
  ≤ sum_weights (snd <$> l).
Proof.
  induction 1 as [|[path leaf] l Hx _ IH]; cbn [omap list_omap].
  { apply Qcle_refl. }
  rewrite fmap_cons, sum_weights_cons. cbn [fst snd] in *.
  destruct (root leaf) as [q|v].
  - qc_arith.
  - rewrite fmap_cons. cbn [sum_list foldr snd].
    fold (sum_list ((λ e : list sym * val * Qc, e.2)
      <$> omap (λ x : list sym * tree, match root x.2 with
                             | RValue v => Some (x.1, v, weight x.2)
                             | RPrefix _ => None
                             end) l)) in *.
    qc_arith.
Qed.

Lemma stored_weight_bound t :
  wf_top t → sum_list ((λ e, e.2) <$> stored t) ≤ weight t.
Proof.
  intros Ht.
  pose proof (wf_top_nodes_leaf_sum t t Ht (elem_of_nodes_self t)) as Hle.
  rewrite <-(leaf_paths_snd t []) in Hle.
  assert (sum_list ((λ e, e.2) <$> stored t)
          ≤ sum_weights (snd <$> leaf_paths [] t)) as Hst.
  { apply stored_weight_le, Forall_forall. intros x Hx.
    by apply leaf_paths_is_leaf in Hx as [_ Hw]. }
  qc_arith.
Qed.
End further_facts.

(** * Facts about the engines *)

Section py_list_method_facts.
Context {A : Type} `{EqDecision A}.

Lemma py_count_cons (x y : A) l :
  py_count x (y :: l) = if decide (y = x) then S (py_count x l) else py_count x l.
Proof. unfold py_count. rewrite filter_cons. by destruct (decide (y = x)). Qed.

Lemma py_count_0 (x : A) l :
  py_count x l = 0%nat → filter (λ y, y ≠ x) l = l.
Proof.
  induction l as [|y l IH]; [done|]. rewrite py_count_cons, filter_cons.
  destruct (decide (y = x)); [done|]. intros Hc.
  rewrite decide_True by done. by rewrite IH.
Qed.

Lemma py_remove_count (x : A) l n :
  py_count x l = S n →
  ∃ l', py_remove x l = Some l' ∧ py_count x l' = n ∧
        filter (λ y, y ≠ x) l' = filter (λ y, y ≠ x) l.
Proof.
  induction l as [|y l IH]; [done|]. rewrite py_count_cons. cbn [py_remove].
  rewrite (filter_cons _ y l). destruct (decide (y = x)) as [->|Hy].
  - intros [= Hc]. exists l. rewrite decide_False by (by intros []). done.
  - intros (l' & -> & Hc & Hf)%IH. exists (y :: l'). split_and!; [done| |].
    + by rewrite py_count_cons, decide_False.
    + by rewrite filter_cons, !decide_True, Hf.
Qed.

(** Deleting [x] as many times as it occurs never fails and leaves the
    other elements in their order. *)
Lemma remove_times_count (x : A) l :
  remove_times (py_count x l) x l = Some (filter (λ y, y ≠ x) l).
Proof.
  remember (py_count x l) as n eqn:Hn. symmetry in Hn. revert l Hn.
  induction n as [|n IH]; intros l Hn; cbn [remove_times].
  - by rewrite py_count_0.
  - destruct (py_remove_count x l n Hn) as (l' & -> & Hc & <-).
    cbn. by apply IH.
Qed.
End py_list_method_facts.


Lemma Qc_of_nat_S n : Qc_of_nat (S n) = 1 + Qc_of_nat n.
Proof.
  unfold Qc_of_nat. apply Qc_is_canon. unfold Qcplus, Q2Qc. cbn [this].
  rewrite !Qred_correct, Nat2Z.inj_succ, <-Z.add_1_l, inject_Z_plus.
  reflexivity.
Qed.

Lemma sum_list_ones {X} (l : list X) :
  sum_list ((λ _, float 1.0) <$> l) = Qc_of_nat (length l).
Proof.
  induction l as [|x l IH]; [by apply Qc_is_canon|].
  rewrite fmap_cons. cbn [length]. rewrite Qc_of_nat_S, <-IH. cbn.
  by f_equal.
Qed.

Section text_facts.
Context {char : Type} `{EqDecision char}.
Variable isalnum : char → bool.
Variable space : char.
Variable lower : list char → list char.

Lemma sanitize_loop (line : list char) : ∀ acc,
  foldl (λ new_word c,
           if isalnum c || bool_decide (c = space)
           then new_word ++ [c] else new_word) acc line
  = acc ++ filter (λ c, isalnum c || bool_decide (c = space)) line.
Proof.
  induction line as [|c line IH]; intros acc.
  { by rewrite app_nil_r. }
  cbn [foldl]. rewrite IH, filter_cons.
  destruct (isalnum c || bool_decide (c = space)); cbn.
  - by rewrite <-app_assoc.
  - done.
Qed.

Lemma sanitize_filter (line : list char) :
  sanitize isalnum space lower line
  = lower (filter (λ c, isalnum c || bool_decide (c = space)) line).
Proof. unfold sanitize. by rewrite sanitize_loop. Qed.

Lemma split_nonempty (s : list char) : split space s ≠ [].
Proof.
  destruct s as [|c s]; [done|]. cbn [split].
  destruct (decide (c = space)); [done|]. by destruct (split space s).
Qed.

Lemma split_app (s1 s2 : list char) :
  split space (s1 ++ space :: s2) = split space s1 ++ split space s2.
Proof.
  induction s1 as [|c s1 IH]; cbn [app split].
  - by rewrite decide_True.
  - destruct (decide (c = space)); [by rewrite IH|]. rewrite IH.
    pose proof (split_nonempty s1). by destruct (split space s1).
Qed.

Lemma split_no_space (s : list char) :
  Forall (λ word, space ∉ word) (split space s).
Proof.
  induction s as [|c s IH]; cbn [split].
  { apply Forall_singleton. by intros ?%elem_of_nil. }
  destruct (decide (c = space)).
  - constructor; [by intros ?%elem_of_nil|done].
  - pose proof (split_nonempty s) as Hne.
    destruct (split space s) as [|word words]; [done|].
    apply Forall_cons in IH as [Hw Hws]. constructor; [|done].
    by intros [->|?]%elem_of_cons.
Qed.

Lemma sentence_prefix_filter (s : list char) :
  sentence_prefix space s = Some (filter (λ word, word ≠ []) (split space s)).
Proof.
  unfold sentence_prefix. rewrite remove_times_count. f_equal.
  by apply list_filter_iff.
Qed.
End text_facts.

Section letter_engine_facts.
Context {char : Type} `{EqDecision char}.
Variable isalnum : char → bool.
Variable space : char.
Variable lower : list char → list char.

Lemma letter_init_run (lines : list (list char)) :
  LetterAutocompleteEngine.init isalnum space lower lines
  = run ((λ x, Insert x.1 x.2 x.1)
           <$> ((λ line, (sanitize isalnum space lower line, float 1.0))
                  <$> lines)).
Proof.
  unfold LetterAutocompleteEngine.init, run.
  rewrite <-(foldl_run (λ x : list char * Qc, Insert x.1 x.2 x.1)).
  generalize (Some (empty : tree char (list char))).
  induction lines as [|line lines IH]; intros acc; [done|].
  rewrite !fmap_cons. cbn [foldl]. apply IH.
Qed.

Lemma letter_count (lines : list (list char)) word :
  sum_list
    ((filter (λ y, y.1 = word)
        ((λ line, (sanitize isalnum space lower line, float 1.0)) <$> lines)).*2)
  = Qc_of_nat
      (length (filter (λ line, sanitize isalnum space lower line = word) lines)).
Proof.
  induction lines as [|line lines IH]; [by apply Qc_is_canon|].
  rewrite fmap_cons, !filter_cons. cbn [fst].
  destruct (decide (sanitize isalnum space lower line = word)); [|done].
  rewrite fmap_cons. cbn [length snd]. rewrite Qc_of_nat_S, <-IH. by f_equal.
Qed.
End letter_engine_facts.

Section sentence_engine_facts.
Context {char : Type} `{EqDecision char}.
Variable isalnum : char → bool.
Variable space : char.
Variable lower : list char → list char.

Lemma sentence_rows (rows : list (list char * Qc)) :
  zip ((λ line, sanitize isalnum space lower line.1) <$> rows) (snd <$> rows)
  = (λ row, (sanitize isalnum space lower row.1, row.2)) <$> rows.
Proof.
  induction rows as [|row rows IH]; [done|].
  rewrite !fmap_cons. cbn [zip zip_with]. by rewrite <-IH.
Qed.

Lemma sentence_init_run (rows : list (list char * Qc)) :
  SentenceAutocompleteEngine.init isalnum space lower rows
  = run ((λ x, Insert x.1 x.2 (filter (λ word, word ≠ []) (split space x.1)))
           <$> ((λ row, (sanitize isalnum space lower row.1, row.2)) <$> rows)).
Proof.
  unfold SentenceAutocompleteEngine.init, run. rewrite sentence_rows.
  rewrite <-(foldl_run (λ x : list char * Qc,
    Insert x.1 x.2 (filter (λ word, word ≠ []) (split space x.1)))).
  generalize (Some (empty : tree (list char) (list char))).
  induction ((λ row, (sanitize isalnum space lower row.1, row.2)) <$> rows)
    as [|x items IH]; intros acc; [done|].
  cbn [foldl]. rewrite IH. f_equal. destruct acc as [t|]; [|done].
  cbn [mbind option_bind]. by rewrite sentence_prefix_filter.
Qed.

Lemma sentence_weight (rows : list (list char * Qc)) s :
  (filter (λ y, y.1 = s)
     ((λ row, (sanitize isalnum space lower row.1, row.2)) <$> rows)).*2
  = (filter (λ row, sanitize isalnum space lower row.1 = s) rows).*2.
Proof.
  induction rows as [|row rows IH]; [done|].
  rewrite fmap_cons, !filter_cons. cbn [fst].
  destruct (decide (sanitize isalnum space lower row.1 = s)); [|done].
  rewrite !fmap_cons. by rewrite IH.
Qed.
End sentence_engine_facts.

Section melody_engine_facts.
Context {entry : Type} `{EqDecision entry}.
Variable blank : entry.
Variable int : entry → option Z.
Abbreviation notes_of := (MelodyAutocompleteEngine.notes_of int).
Abbreviation parse := (MelodyAutocompleteEngine.parse blank int).
Abbreviation parse_rows := (MelodyAutocompleteEngine.parse_rows blank int).
Abbreviation interval := MelodyAutocompleteEngine.interval.

Lemma interval_cons (a b : Z * Z) (ns : list (Z * Z)) :
  interval (a :: b :: ns) = (b.1 - a.1)%Z :: interval (b :: ns).
Proof. done. Qed.

Lemma interval_length (ns : list (Z * Z)) :
  length (interval ns) = (length ns - 1)%nat.
Proof.
  induction ns as [|a [|b ns] IH]; [done..|].
  rewrite interval_cons. cbn [length] in *. lia.
Qed.

Lemma interval_transpose (k : Z) (d : Z * Z → Z) (ns : list (Z * Z)) :
  interval ((λ n, ((n.1 + k)%Z, d n)) <$> ns) = interval ns.
Proof.
  induction ns as [|a [|b ns] IH]; [done..|].
  rewrite !fmap_cons, !interval_cons in *. cbn [fst].
  rewrite IH. f_equal. lia.
Qed.

Lemma interval_sum (a : Z * Z) (ns : list (Z * Z)) :
  foldr Z.add 0%Z (interval (a :: ns))
  = ((default a (last (a :: ns))).1 - a.1)%Z.
Proof.
  revert a. induction ns as [|b ns IH]; intros a.
  { cbn. lia. }
  rewrite interval_cons. cbn [foldr]. rewrite IH.
  rewrite (last_cons_cons a b ns).
  destruct (last (b :: ns)) as [c|] eqn:Hl; cbn [default]; [lia|].
  by apply last_None in Hl.
Qed.

Lemma notes_of_length (line : list entry) : ∀ ns,
  notes_of line = Some ns → length line = (2 * length ns)%nat.
Proof.
  induction line as [line IH] using (induction_ltof1 _ length).
  unfold ltof in IH. intros ns.
  destruct line as [|a [|b line]]; cbn [MelodyAutocompleteEngine.notes_of].
  - by intros [= <-].
  - done.
  - destruct (int a) as [x|]; [|done]. destruct (int b) as [y|]; [|done].
    cbn [mbind option_bind].
    destruct (notes_of line) as [ns'|] eqn:Hns; [|done].
    intros [= <-]. cbn [length].
    rewrite (IH line ltac:(cbn; lia) ns' Hns). lia.
Qed.

Lemma py_index_app_blank (l rest : list entry) :
  blank ∉ l → py_index blank (l ++ blank :: rest) = Some (length l).
Proof.
  unfold py_index. intros Hl.
  induction l as [|x l IH]; cbn [app list_find length].
  - by rewrite decide_True.
  - apply not_elem_of_cons in Hl as [Hx Hl]. rewrite decide_False by done.
    specialize (IH Hl). destruct (list_find _ _) as [[i y]|]; [|done].
    cbn in IH |- *. by simplify_eq.
Qed.

Lemma parse_blank i (l rest : list entry) :
  blank ∉ l →
  parse i (l ++ blank :: rest) = parse i (l ++ [blank]).
Proof.
  intros Hl. unfold MelodyAutocompleteEngine.parse.
  rewrite !py_index_app_blank by done.
  destruct l as [|x l]; [done|]. cbn [app head length drop mbind option_bind].
  replace (S (length l) - 1)%nat with (length l) by lia.
  by rewrite !drop_0, !take_app_length.
Qed.

Lemma parse_Some i (line : list entry) m :
  parse i line = Some m →
  ∃ ns, head line = Some (name m) ∧
    notes_of (match py_index blank line with
              | Some index => take (index - 1) (drop 1 line)
              | None => drop 1 line
              end) = Some ns ∧
    m = {| melody_id := i; name := name m; notes := ns |} ∧
    melody_ok blank m.
Proof.
  unfold MelodyAutocompleteEngine.parse.
  destruct (head line) as [x|]; [|done]. cbn [mbind option_bind].
  destruct (notes_of _) as [ns|]; [|done]. cbn [mbind option_bind].
  case_decide as Hok; [|done]. intros [= <-]. by exists ns.
Qed.

Lemma parse_rows_ids (rows : list (list entry)) : ∀ i ms,
  parse_rows i rows = Some ms → melody_id <$> ms = seq i (length rows).
Proof.
  induction rows as [|line rows IH]; intros i ms;
    cbn [MelodyAutocompleteEngine.parse_rows].
  { by intros [= <-]. }
  destruct (parse i line) as [m|] eqn:Hm; [|done]. cbn [mbind option_bind].
  destruct (parse_rows (S i) rows) as [ms'|] eqn:Hms; [|done].
  intros [= <-]. rewrite fmap_cons, (IH _ _ Hms). cbn [length seq]. f_equal.
  apply parse_Some in Hm as (ns & _ & _ & -> & _). done.
Qed.

Lemma parse_rows_NoDup (rows : list (list entry)) ms :
  parse_rows 0 rows = Some ms → NoDup ms ∧ length ms = length rows.
Proof.
  intros Hms%parse_rows_ids. split.
  - apply (NoDup_fmap_1 melody_id). rewrite Hms. apply NoDup_seq.
  - by rewrite <-(length_fmap melody_id), Hms, length_seq.
Qed.

Lemma melody_init_run (rows : list (list entry)) ms :
  parse_rows 0 rows = Some ms →
  MelodyAutocompleteEngine.init blank int rows
  = run ((λ x, Insert x.1 x.2 (interval (notes x.1)))
           <$> ((λ m, (m, float 1.0)) <$> ms)).
Proof.
  intros Hms. unfold MelodyAutocompleteEngine.init, run. rewrite Hms.
  cbn [mbind option_bind].
  rewrite <-(foldl_run (λ x : Melody entry * Qc,
    Insert x.1 x.2 (interval (notes x.1)))).
  generalize (Some (empty : tree Z (Melody entry))).
  clear Hms. induction ms as [|m ms IH]; intros acc; [done|].
  rewrite !fmap_cons. cbn [foldl]. apply IH.
Qed.
End melody_engine_facts.

(** * The stated properties *)

Section scenarios.
Context {sym val : Type} `{EqDecision sym, EqDecision val}.

Lemma tree_of_reachable (ops : list (op sym val)) :
  legal empty ops = true → reachable (tree_of ops).
Proof.
  intros (t & Hrun & Ht)%run_reachable. unfold tree_of. by rewrite Hrun.
Qed.
End scenarios.

(** C1. The weight of every non-empty non-leaf node of a reachable tree is
    the sum of the weights of its subtrees.  Insertions alone keep this
    ([insert_reachable_consistent]); [remove] breaks it, because it lowers
    a weight only where a subtree has become empty.  After inserting
    "cat" (2.0) and "car" (3.0) and removing the prefix [c; a; t], the tree
    is reachable, its nodes [[]] and [["c"]] still weigh 5.0 while the
    subtree of [["c"]] weighs 3.0, the only stored weight. *)
Theorem remove_keeps_stale_weight :
  legal empty stale_weight_calls = true ∧
  reachable (tree_of stale_weight_calls) ∧
  weights_consistent (tree_of stale_weight_calls) = false ∧
  weight (tree_of stale_weight_calls) = float 5.0 ∧
  (λ c, (root c, weight c, sum_weights (subtrees c)))
    <$> subtrees (tree_of stale_weight_calls)
  = [(RPrefix ["c"], float 5.0, float 3.0)] ∧
  stored (tree_of stale_weight_calls) = [(["c"; "a"; "r"], "car", float 3.0)].
Proof.
  split; [compute_done|]. split; [apply tree_of_reachable; compute_done|].
  split_and!; compute_done.
Qed.

(** C2. No non-root internal node of a reachable [CompressedPrefixTree] has
    exactly one child.  The code breaks this: the class inherits [insert]
    unchanged, so inserting "cat" under [c; a; t] into a new
    [CompressedPrefixTree] builds the chain [["c"]], [["c"; "a"]],
    [["c"; "a"; "t"]] of internal nodes with one child each. *)
Theorem compressed_insert_builds_chain :
  legal empty [cat] = true ∧
  has_compressible (CompressedPrefixTree.tree_of [cat]) = true ∧
  (λ c, (root c, single_child c, root <$> subtrees c))
    <$> subtrees (CompressedPrefixTree.tree_of [cat])
  = [(RPrefix ["c"], true, [RPrefix ["c"; "a"]])].
Proof. split_and!; compute_done. Qed.

(** C3. [autocomplete(prefix, None)] is to return the (value, weight)
    pairs of all the values stored under a prefix sequence that begins with
    [prefix], by non-increasing weight.  After inserting "dog" (4.0),
    "cat" (2.0) and "car" (3.0) the call with the empty prefix does return
    dog, car, cat.  But [autocomplete] trusts the weights and the nodes that
    [remove] leaves behind ([remove_keeps_stale_weight],
    [remove_unmatched_prefix_changes_tree]).  After inserting "cat" and "car"
    and removing [c; a; t] and then [c; a; r] no value is stored, and the
    call returns one pair, the prefix [["c"]] with the weight 2.0.  And
    after inserting "x" (1.0) under [a] and "y" (2.0 ** -60) under [b] and
    removing [a], the weight of the tree is [1.0 + 2.0 ** -60 - 1.0], which
    is 0.0 in binary64: the tree counts as empty and the call returns
    nothing, although "y" is stored. *)
Theorem autocomplete_unlimited_reads_stale_nodes :
  autocomplete_call (tree_of scenario_B) [] None
  = Some [(RValue "dog", float 4.0); (RValue "car", float 3.0);
          (RValue "cat", float 2.0)] ∧
  legal empty stray_node_calls = true ∧
  stored (tree_of stray_node_calls) = [] ∧
  autocomplete_call (tree_of stray_node_calls) [] None
  = Some [(RPrefix ["c"], float 2.0)] ∧
  (λ t, (Float64.weight t, Float64.held [] t,
         Float64.autocomplete_call t [] None, Float64.len t))
    <$> Float64.run absorbed_weight_calls
  = Some (0%float, [(["b"], "y", 0x1p-60%float)], Some [], 0%nat).
Proof. split_and!; [compute_done..|]. vm_compute. reflexivity. Qed.

(** C4. [autocomplete(prefix, limit)] with a positive limit is to return
    the first [min(limit, number of matches)] stored values met by the
    pre-order traversal that visits the subtrees in their stored order,
    without sorting them.  After inserting "cat" (2.0), "car" (3.0) and
    "dog" (4.0) the call with the empty prefix and limit 1 does return
    "car" and not "dog", with which the unlimited result begins.  But the
    traversal trusts the weights and the nodes that [remove] leaves
    behind, as in C3: after inserting "cat" and "car" and removing
    [c; a; t] and then [c; a; r] no value matches, and the call with limit 1
    returns the prefix [["c"]] with the weight 2.0; after inserting
    "x" (1.0) under [a] and "y" (2.0 ** -60) under [b] and removing [a], one
    value matches and the call with limit 1 returns nothing. *)
Theorem autocomplete_limited_reads_stale_nodes :
  autocomplete_call (tree_of scenario_A) [] (Some 1%Z)
  = Some [(RValue "car", float 3.0)] ∧
  head <$> autocomplete_call (tree_of scenario_A) [] None
  = Some (Some (RValue "dog", float 4.0)) ∧
  legal empty stray_node_calls = true ∧
  stored (tree_of stray_node_calls) = [] ∧
  autocomplete_call (tree_of stray_node_calls) [] (Some 1%Z)
  = Some [(RPrefix ["c"], float 2.0)] ∧
  (λ t, (Float64.held [] t, Float64.autocomplete_call t [] (Some 1%Z)))
    <$> Float64.run absorbed_weight_calls
  = Some ([(["b"], "y", 0x1p-60%float)], Some []).
Proof. split_and!; [compute_done..|]. vm_compute. reflexivity. Qed.

(** C5. Every [subtrees] list of a reachable tree is sorted by non-increasing
    weight.  Insertions alone keep this ([insert_reachable_sorted]); [remove]
    breaks it: it lowers the weight of the parent of the removed node and
    sorts nothing.  After inserting "cat" (2.0),
    "car" (3.0) and "cow" (4.0) and removing the prefix [c; a; r], the
    subtrees of [["c"]] are [["c"; "a"]] of weight 2.0 followed by
    [["c"; "o"]] of weight 4.0. *)
Theorem remove_leaves_subtrees_unsorted :
  legal empty unsorted_calls = true ∧
  reachable (tree_of unsorted_calls) ∧
  subtrees_sorted (tree_of unsorted_calls) = false ∧
  (λ c, (root c, (λ d, (root d, weight d)) <$> subtrees c))
    <$> subtrees (tree_of unsorted_calls)
  = [(RPrefix ["c"],
      [(RPrefix ["c"; "a"], float 2.0); (RPrefix ["c"; "o"], float 4.0)])].
Proof.
  split; [compute_done|]. split; [apply tree_of_reachable; compute_done|].
  split; compute_done.
Qed.

(** C6. After inserting "cat" (2.0), "car" (3.0) and "dog" (4.0) and removing
    the prefix [c; a], both values under [c; a] are gone: the tree has
    size 1 and weight 4.0, its only subtree has the root [["d"]] and the only
    stored value is "dog". *)
Theorem scenario_C_remove :
  legal empty scenario_C = true ∧
  is_Some (run scenario_C) ∧
  len (tree_of scenario_C) = 1%nat ∧
  weight (tree_of scenario_C) = float 4.0 ∧
  root <$> subtrees (tree_of scenario_C) = [RPrefix ["d"]] ∧
  stored (tree_of scenario_C) = [(["d"; "o"; "g"], "dog", float 4.0)] ∧
  get_leaf_value (tree_of scenario_C) = [RValue "dog"].
Proof. split_and!; compute_done. Qed.

(** C7. Inserting a stored value again under the same prefix sequence is
    to add the weight to the leaf of that value and to create no second
    leaf.  A sentence inserted with the weights 15.0 and 6.5 is returned by
    [autocomplete] with the weight 21.5, from a tree of size 1.  But
    [insert] looks for the value with [get_leaf_value], which takes a tree
    of weight 0.0 for empty, and [remove] computes the weight of the tree by
    subtraction.  After inserting "x" (1.0) under [a] and "y" (2.0 ** -60)
    under the empty prefix sequence and removing [a], the tree holds "y" and
    weighs [1.0 + 2.0 ** -60 - 1.0], which is 0.0 in binary64; inserting
    "y" (2.0 ** -60) again under the empty prefix sequence then appends a
    second leaf for "y", and [autocomplete] returns "y" twice. *)
Theorem insert_again_appends_second_leaf :
  legal empty scenario_D = true ∧
  autocomplete_call (tree_of scenario_D) ["a"] None
  = Some [(RValue "a star is born", float 21.5)] ∧
  len (tree_of scenario_D) = 1%nat ∧
  (λ t, (Float64.weight t, Float64.held [] t, Float64.get_leaf_value t))
    <$> Float64.run absorbed_leaf_calls
  = Some (0%float, [([], "y", 0x1p-60%float)], []) ∧
  (λ t, (Float64.held [] t, Float64.autocomplete_call t [] None,
         Float64.len t))
    <$> Float64.run second_leaf_calls
  = Some ([([], "y", 0x1p-60%float); ([], "y", 0x1p-60%float)],
          Some [(RValue "y", 0x1p-60%float); (RValue "y", 0x1p-60%float)],
          2%nat).
Proof. split_and!; [compute_done..| |]; vm_compute; reflexivity. Qed.

(** C8. With a weight [w ≤ 0] the call of [insert] raises, on every tree,
    for every value and prefix sequence, and leaves the receiver as it was:
    the contract [weight > 0] is checked on entry, before the body assigns
    anything.  (The exception is the [AssertionError] of the contract; the
    repository declares no exception class of its own.) *)
Theorem insert_nonpositive_weight_raises :
  ∀ (sym val : Type) (Hsym : EqDecision sym) (Hval : EqDecision val)
    (t : tree sym val) (value : val) (w : Qc) (prefix : list sym),
    w ≤ 0 →
    insert t value w prefix = None ∧
    insert_st value w prefix t = (None, t).
Proof.
  intros sym val Hsym Hval t value w prefix Hw.
  assert (¬ 0 < w) as Hneg by by apply Qcle_not_lt.
  split; [by apply insert_raises|by apply insert_st_raises].
Qed.

Lemma insert_nonpositive_weight_raises_witness :
  float (-1.0) ≤ 0 ∧
  insert (tree_of [dog]) "cat" (float (-1.0)) ["c"; "a"; "t"] = None ∧
  insert_st "cat" (float (-1.0)) ["c"; "a"; "t"] (tree_of [dog])
  = (None, tree_of [dog]).
Proof.
  assert (float (-1.0) ≤ 0) as Hw by (vm_compute; discriminate).
  split; [exact Hw|].
  apply (insert_nonpositive_weight_raises string string _ _ (tree_of [dog])
           "cat" (float (-1.0)) ["c"; "a"; "t"] Hw).
Defined.

(** C9. Removing a non-empty prefix that no stored value begins with leaves a
    reachable tree as it is.  This holds after insertions alone
    ([insert_reachable_remove_noop]) and, on every reachable tree, when no
    leaf begins with the prefix ([remove_noop]); but earlier removals can
    leave a node without subtrees behind.  After inserting "cat" and "car"
    and removing [c; a; t] and then [c; a; r], no value is stored but the
    node [["c"]] is still there with weight 2.0 below a root of weight 5.0;
    removing the prefix [c] then changes the tree. *)
Theorem remove_unmatched_prefix_changes_tree :
  legal empty stray_node_calls = true ∧
  reachable (tree_of stray_node_calls) ∧
  stored (tree_of stray_node_calls) = [] ∧
  weight (tree_of stray_node_calls) = float 5.0 ∧
  (λ c, (root c, weight c, length (subtrees c)))
    <$> subtrees (tree_of stray_node_calls)
  = [(RPrefix ["c"], float 2.0, 0%nat)] ∧
  remove (tree_of stray_node_calls) ["c"] ≠ tree_of stray_node_calls ∧
  weight (remove (tree_of stray_node_calls) ["c"]) = float 3.0 ∧
  subtrees (remove (tree_of stray_node_calls) ["c"]) = [].
Proof.
  split; [compute_done|]. split; [apply tree_of_reachable; compute_done|].
  split_and!; try compute_done.
  intros Heq%(f_equal weight). revert Heq. compute_done.
Qed.

(** C10. [autocomplete] changes nothing: run as a method that hands back its
    receiver, it returns the tree it was called on, for every tree, prefix
    and limit. *)
Theorem autocomplete_leaves_tree_unchanged :
  ∀ (sym val : Type) (Hsym : EqDecision sym) (Hval : EqDecision val)
    (t : tree sym val) (prefix : list sym) (limit : option Z),
    autocomplete_st prefix limit t = (autocomplete t prefix limit, t) ∧
    get_leaves_st t = (get_leaves t, t).
Proof.
  intros. split; [apply autocomplete_st_pure|apply get_leaves_st_pure].
Qed.

(** * Further properties of the tree and of the engines *)

Section further_scenarios.
Context {sym val : Type} `{EqDecision sym, EqDecision val}.

Lemma tree_of_insert_reachable (ops : list (op sym val)) :
  Forall is_insert ops → legal empty ops = true →
  insert_reachable (tree_of ops).
Proof.
  intros Hi Hl.
  destruct (run_from_inserts ops empty insert_reachable_empty Hi Hl)
    as (t & Hrun & Ht & _).
  unfold tree_of, run. by rewrite Hrun.
Qed.

Lemma built_reachable (ops : list (op sym val)) (t : tree sym val) :
  built ops t → reachable t.
Proof.
  intros (Hl & _ & Hrun). destruct (run_reachable ops Hl) as (t' & Hrun' & Ht).
  rewrite Hrun in Hrun'. by injection Hrun' as <-.
Qed.

Lemma built_wf_top (ops : list (op sym val)) (t : tree sym val) :
  built ops t → wf_top t.
Proof. intros Ht%built_reachable. by apply reachable_wf_top. Qed.

Lemma built_insert_reachable (ops : list (op sym val)) (t : tree sym val) :
  Forall is_insert ops → built ops t → insert_reachable t.
Proof.
  intros Hi (Hl & _ & Hrun).
  pose proof (tree_of_insert_reachable ops Hi Hl) as Ht.
  unfold tree_of in Ht. by rewrite Hrun in Ht.
Qed.

Lemma run_from_app (ops1 ops2 : list (op sym val)) : ∀ t,
  run_from t (ops1 ++ ops2) = run_from t ops1 ≫= λ t', run_from t' ops2.
Proof.
  induction ops1 as [|o ops1 IH]; intros t; [done|].
  cbn [app run_from]. destruct (run_op t o) as [t1|]; [|done].
  cbn [mbind option_bind]. apply IH.
Qed.

Lemma legal_app (ops1 ops2 : list (op sym val)) : ∀ t t',
  legal t ops1 = true → run_from t ops1 = Some t' → legal t' ops2 = true →
  legal t (ops1 ++ ops2) = true.
Proof.
  induction ops1 as [|o ops1 IH]; intros t t' Hl Hrun Hl2.
  { cbn in Hrun. by injection Hrun as <-. }
  cbn [app legal run_from] in *.
  apply andb_true_iff in Hl as [Ho Hl]. rewrite Ho. cbn [andb].
  destruct (run_op t o) as [t1|]; [|done]. cbn [mbind option_bind] in Hrun.
  by apply (IH t1 t').
Qed.

Lemma weights_of_app (ops1 ops2 : list (op sym val)) :
  weights_of (ops1 ++ ops2) = weights_of ops1 ++ weights_of ops2.
Proof. apply omap_app. Qed.

Lemma built_snoc_remove (ops : list (op sym val)) (t : tree sym val) prefix :
  built ops t → built (ops ++ [Remove prefix]) (remove t prefix).
Proof.
  intros (Hl & [e He] & Hrun). split_and!.
  - by apply (legal_app ops [Remove prefix] empty t).
  - exists e. unfold exact_calls. rewrite weights_of_app. cbn.
    by rewrite app_nil_r.
  - unfold run. rewrite run_from_app. unfold run in Hrun. by rewrite Hrun.
Qed.

(** The tree of concrete calls: the preconditions and [exact_calls e] are
    decided by evaluation. *)
Lemma tree_of_built (e : nat) (ops : list (op sym val)) :
  legal empty ops = true → exact_calls e ops → built ops (tree_of ops).
Proof.
  intros Hl He. split_and!; [done|by exists e|].
  destruct (run_reachable ops Hl) as (t & Hrun & _).
  unfold tree_of. by rewrite Hrun.
Qed.
End further_scenarios.


(** X1. The representation invariants that a tree built by calls that
    meet their preconditions and compute without rounding keeps, at each of
    its nodes: the weight is not negative; only the whole tree can have the
    weight 0, and then it has no subtrees; the weight is at least the sum
    of the weights of the subtrees; no subtree is empty; no two subtrees
    have the same [root]; the [root] of a subtree is a value without
    subtrees or the prefix of its parent with one more symbol. *)
Theorem built_representation_invariants :
  ∀ (sym val : Type) (Hsym : EqDecision sym) (Hval : EqDecision val)
    (ops : list (op sym val)) (t n : tree sym val),
    built ops t → n ∈ nodes t →
    0 ≤ weight n ∧
    (weight n = 0 → n = t ∧ subtrees n = []) ∧
    sum_weights (subtrees n) ≤ weight n ∧
    Forall (λ c, is_empty c = false) (subtrees n) ∧
    NoDup (root <$> subtrees n) ∧
    Forall (extends_parent n) (subtrees n).
Proof.
  intros sym val Hsym Hval ops t n Ht%built_wf_top. by apply wf_top_nodes.
Qed.

Lemma built_representation_invariants_witness :
  built scenario_C (tree_of scenario_C) ∧
  tree_of scenario_C ∈ nodes (tree_of scenario_C) ∧
  NoDup (root <$> subtrees (tree_of scenario_C)).
Proof.
  assert (built scenario_C (tree_of scenario_C)) as Ht.
  { apply (tree_of_built 0); [vm_compute; reflexivity|compute_done]. }
  assert (tree_of scenario_C ∈ nodes (tree_of scenario_C)) as Hn.
  { apply elem_of_nodes_self. }
  split; [exact Ht|]. split; [exact Hn|].
  apply (built_representation_invariants string string _ _ _ _ _ Ht Hn).
Defined.

(** X2. [len(tree)] is the number of leaves: the length of [get_leaves()]
    and of [get_leaf_value()], for every tree. *)
Theorem len_counts_leaves :
  ∀ (sym val : Type) (Hsym : EqDecision sym) (Hval : EqDecision val)
    (t : tree sym val),
    len t = length (get_leaves t) ∧ len t = length (get_leaf_value t).
Proof.
  intros. split; [apply len_get_leaves|apply len_get_leaf_value].
Qed.

(** X3. On a reachable tree [autocomplete([], None)] returns one pair for
    every leaf: its length is [len(tree)]. *)
Theorem autocomplete_empty_prefix_returns_all :
  ∀ (sym val : Type) (Hsym : EqDecision sym) (Hval : EqDecision val)
    (t : tree sym val),
    reachable t →
    length (autocomplete t [] None) = len t ∧
    autocomplete t [] None ≡ₚ leaf_pair <$> get_leaves t.
Proof.
  intros sym val Hsym Hval t Ht%reachable_wf_top.
  rewrite (autocomplete_matching t [] None Ht).
  assert (matching_leaves [] t = get_leaves t) as ->.
  { unfold matching_leaves, matching_in. rewrite filter_all.
    - apply leaf_paths_snd.
    - apply Forall_forall. intros x _. apply prefix_nil. }
  split.
  - by rewrite result_of_length, len_get_leaves.
  - cbn [result_of]. apply sort_desc_perm.
Qed.

Lemma autocomplete_empty_prefix_returns_all_witness :
  reachable (tree_of scenario_A) ∧
  length (autocomplete (tree_of scenario_A) [] None) = len (tree_of scenario_A).
Proof.
  assert (reachable (tree_of scenario_A)) as Ht.
  { apply tree_of_reachable. vm_compute. reflexivity. }
  split; [exact Ht|].
  apply (autocomplete_empty_prefix_returns_all string string _ _ _ Ht).
Defined.

(** X4. On a reachable tree the result for a positive limit has
    [min(limit, number of matches)] entries, each of them is an entry of the
    unlimited result, and when the limit is at least the number of matches
    the two results hold the same entries (in a different order,
    possibly). *)
Theorem autocomplete_limit_vs_unlimited :
  ∀ (sym val : Type) (Hsym : EqDecision sym) (Hval : EqDecision val)
    (t : tree sym val) (prefix : list sym) (limit : Z),
    reachable t → (0 < limit)%Z →
    length (autocomplete t prefix (Some limit))
      = (Z.to_nat limit `min` length (autocomplete t prefix None))%nat ∧
    autocomplete t prefix (Some limit) ⊆ autocomplete t prefix None ∧
    ((length (autocomplete t prefix None) ≤ Z.to_nat limit)%nat →
     autocomplete t prefix (Some limit) ≡ₚ autocomplete t prefix None).
Proof.
  intros sym val Hsym Hval t prefix limit Ht%reachable_wf_top _.
  by apply autocomplete_limit_spec.
Qed.

Lemma autocomplete_limit_vs_unlimited_witness :
  reachable (tree_of scenario_A) ∧ (0 < 1)%Z ∧
  autocomplete (tree_of scenario_A) ["c"] (Some 1%Z)
    ⊆ autocomplete (tree_of scenario_A) ["c"] None.
Proof.
  assert (reachable (tree_of scenario_A)) as Ht.
  { apply tree_of_reachable. vm_compute. reflexivity. }
  assert (0 < 1)%Z as Hl by lia.
  split; [exact Ht|]. split; [exact Hl|].
  apply (autocomplete_limit_vs_unlimited string string _ _ _ ["c"] 1%Z Ht Hl).
Defined.

(** X5. A tree built by insertions alone, which meet their preconditions
    and compute without rounding, satisfies the documented invariants in
    full: every [subtrees] list is sorted by non-increasing weight, the
    weight of every node is the sum of the weights of the leaves below it,
    and every leaf holds a value. *)
Theorem insert_only_invariants :
  ∀ (sym val : Type) (Hsym : EqDecision sym) (Hval : EqDecision val)
    (ops : list (op sym val)) (t : tree sym val),
    Forall is_insert ops → built ops t →
    subtrees_sorted t = true ∧
    weights_consistent t = true ∧
    (∀ n, n ∈ nodes t → weight n = sum_weights (get_leaves n)) ∧
    (∀ leaf, leaf ∈ get_leaves t → ∃ v, root leaf = RValue v) ∧
    len t = length (stored t).
Proof.
  intros sym val Hsym Hval ops t Hi Hb.
  pose proof (built_insert_reachable ops t Hi Hb) as Ht. split_and!.
  - by apply insert_reachable_sorted.
  - by apply insert_reachable_consistent.
  - intros n. by apply insert_reachable_leaf_sum.
  - intros leaf. rewrite <-(leaf_paths_snd t []).
    intros (x & -> & Hx)%list_elem_of_fmap.
    by eapply insert_reachable_leaves.
  - by apply insert_reachable_len.
Qed.

Lemma insert_only_invariants_witness :
  Forall is_insert scenario_A ∧ built scenario_A (tree_of scenario_A) ∧
  subtrees_sorted (tree_of scenario_A) = true.
Proof.
  assert (Forall is_insert scenario_A) as Hi by repeat constructor.
  assert (built scenario_A (tree_of scenario_A)) as Ht.
  { apply (tree_of_built 0); [vm_compute; reflexivity|compute_done]. }
  split; [exact Hi|]. split; [exact Ht|].
  apply (insert_only_invariants string string _ _ _ _ Hi Ht).
Defined.

(** X6. A sequence of insertions that meet the preconditions and compute
    without rounding never raises, and the weight of the tree it builds is
    the sum of the inserted weights. *)
Theorem insert_only_total_weight :
  ∀ (sym val : Type) (Hsym : EqDecision sym) (Hval : EqDecision val)
    (ops : list (op sym val)),
    Forall is_insert ops → legal empty ops = true → exact ops →
    ∃ t, built ops t ∧ insert_reachable t ∧
         weight t = inserted_weight ops.
Proof.
  intros sym val Hsym Hval ops Hi Hl He.
  destruct (run_from_inserts ops empty insert_reachable_empty Hi Hl)
    as (t & Hrun & Ht & Hw).
  exists t. split_and!; [done..|]. rewrite Hw. cbn [weight empty].
  apply Qcplus_0_l.
Qed.

Lemma insert_only_total_weight_witness :
  Forall is_insert scenario_A ∧ legal empty scenario_A = true ∧
  exact scenario_A ∧
  ∃ t, built scenario_A t ∧ insert_reachable t ∧
       weight t = inserted_weight scenario_A.
Proof.
  assert (Forall is_insert scenario_A) as Hi by repeat constructor.
  assert (legal empty scenario_A = true) as Hl by (vm_compute; reflexivity).
  assert (exact scenario_A) as He by (exists 0%nat; compute_done).
  split; [exact Hi|]. split; [exact Hl|]. split; [exact He|].
  apply (insert_only_total_weight string string _ _ scenario_A Hi Hl He).
Defined.

(** X7. On a tree built by calls that meet their preconditions, when
    these calls and the insertion compute without rounding: inserting with
    a positive weight a value that is not stored never raises; it adds
    exactly one stored value, the new one with its prefix sequence and
    weight, and [autocomplete] with that prefix sequence returns it. *)
Theorem insert_new_value :
  ∀ (sym val : Type) (Hsym : EqDecision sym) (Hval : EqDecision val)
    (ops : list (op sym val)) (t : tree sym val) (value : val) (w : Qc)
    (prefix : list sym),
    built ops t → exact (ops ++ [Insert value w prefix]) →
    0 < w → value ∉ ((λ e, e.1.2) <$> stored t) →
    ∃ t', insert t value w prefix = Some t' ∧
          stored t' ≡ₚ (prefix, value, w) :: stored t ∧
          (RValue value, w) ∈ autocomplete t' prefix None.
Proof.
  intros sym val Hsym Hval ops t value w prefix Ht%built_wf_top _ Hw Hnew.
  destruct (insert_fresh_top t value w prefix Ht Hw Hnew) as (t' & Hins & Hst).
  exists t'. split_and!; [done..|].
  destruct (insert_wf_top t value w prefix Hw Ht) as (t'' & Hins' & Hwf).
  simplify_eq. apply (stored_autocomplete t' prefix prefix); [done| |done].
  rewrite Hst. by left.
Qed.

Lemma insert_new_value_witness :
  built scenario_A (tree_of scenario_A) ∧
  exact (scenario_A ++ [cow]) ∧ 0 < float 4.0 ∧
  ("cow" ∉ (λ e, e.1.2) <$> stored (tree_of scenario_A)) ∧
  ∃ t', insert (tree_of scenario_A) "cow" (float 4.0) ["c"; "o"; "w"] = Some t' ∧
        stored t' ≡ₚ (["c"; "o"; "w"], "cow", float 4.0)
                       :: stored (tree_of scenario_A) ∧
        (RValue "cow", float 4.0) ∈ autocomplete t' ["c"; "o"; "w"] None.
Proof.
  assert (built scenario_A (tree_of scenario_A)) as Ht.
  { apply (tree_of_built 0); [vm_compute; reflexivity|compute_done]. }
  assert (exact (scenario_A ++ [cow])) as He by (exists 0%nat; compute_done).
  assert (0 < float 4.0) as Hw by (vm_compute; reflexivity).
  assert ("cow" ∉ ((λ e, e.1.2) <$> stored (tree_of scenario_A))) as Hnew.
  { compute_done. }
  split; [exact Ht|]. split; [exact He|]. split; [exact Hw|].
  split; [exact Hnew|].
  apply (insert_new_value string string _ _ _ _ _ _ ["c"; "o"; "w"]
           Ht He Hw Hnew).
Defined.

(** X8. On a tree built by calls that meet their preconditions and
    compute without rounding, [remove(prefix)] deletes the stored values
    whose prefix sequence begins with [prefix] and no other: the values that
    stay keep their prefix sequence, their weight and their order. *)
Theorem remove_deletes_matching_values :
  ∀ (sym val : Type) (Hsym : EqDecision sym) (Hval : EqDecision val)
    (ops : list (op sym val)) (t : tree sym val) (prefix : list sym),
    built ops t →
    stored (remove t prefix)
    = filter (λ e, ¬ prefix `prefix_of` e.1.1) (stored t).
Proof.
  intros sym val Hsym Hval ops t prefix Ht%built_wf_top.
  by destruct (remove_stored t prefix Ht) as [Hst _].
Qed.

Lemma remove_deletes_matching_values_witness :
  built scenario_A (tree_of scenario_A) ∧
  stored (remove (tree_of scenario_A) ["c"; "a"])
  = filter (λ e, ¬ ["c"; "a"] `prefix_of` e.1.1) (stored (tree_of scenario_A)).
Proof.
  assert (built scenario_A (tree_of scenario_A)) as Ht.
  { apply (tree_of_built 0); [vm_compute; reflexivity|compute_done]. }
  split; [exact Ht|].
  apply (remove_deletes_matching_values string string _ _ _ _ ["c"; "a"] Ht).
Defined.

(** X9. On a tree built by calls that meet their preconditions and
    compute without rounding, after [remove(prefix)] no leaf is left whose
    prefix sequence begins with [prefix]: [autocomplete] returns the empty
    list for [prefix] and for every sequence that begins with it, with no
    limit and with every positive limit. *)
Theorem remove_then_autocomplete_empty :
  ∀ (sym val : Type) (Hsym : EqDecision sym) (Hval : EqDecision val)
    (ops : list (op sym val)) (t : tree sym val) (prefix prefix' : list sym)
    (limit : option Z),
    built ops t → prefix `prefix_of` prefix' → limit_ok limit →
    autocomplete_call (remove t prefix) prefix' limit = Some [].
Proof.
  intros sym val Hsym Hval ops t prefix prefix' limit Ht%built_wf_top Hp Hl.
  unfold autocomplete_call. rewrite decide_True by done.
  f_equal. by apply remove_autocomplete_nil.
Qed.

Lemma remove_then_autocomplete_empty_witness :
  built scenario_A (tree_of scenario_A) ∧ ["c"] `prefix_of` ["c"; "a"] ∧
  limit_ok (Some 2%Z) ∧
  autocomplete_call (remove (tree_of scenario_A) ["c"]) ["c"; "a"] (Some 2%Z)
  = Some [].
Proof.
  assert (built scenario_A (tree_of scenario_A)) as Ht.
  { apply (tree_of_built 0); [vm_compute; reflexivity|compute_done]. }
  assert (["c"] `prefix_of` ["c"; "a"]) as Hp by (by exists ["a"]).
  assert (limit_ok (Some 2%Z)) as Hl by (cbn; lia).
  split; [exact Ht|]. split; [exact Hp|]. split; [exact Hl|].
  apply (remove_then_autocomplete_empty string string _ _ _ _ _ _ _ Ht Hp Hl).
Defined.

(** X10. On a tree built by calls that meet their preconditions and
    compute without rounding, [remove] is idempotent, it changes nothing
    when no leaf begins with the non-empty prefix, and it never increases
    the weight of the tree. *)
Theorem remove_idempotent :
  ∀ (sym val : Type) (Hsym : EqDecision sym) (Hval : EqDecision val)
    (ops : list (op sym val)) (t : tree sym val) (prefix : list sym),
    built ops t →
    remove (remove t prefix) prefix = remove t prefix ∧
    (prefix ≠ [] →
     (∀ x, x ∈ leaf_paths [] t → ¬ prefix `prefix_of` x.1) →
     remove t prefix = t) ∧
    weight (remove t prefix) ≤ weight t.
Proof.
  intros sym val Hsym Hval ops t prefix Ht%built_wf_top. split_and!.
  - by apply remove_idem.
  - intros Hp Hno. by apply remove_noop.
  - by apply remove_weight_le.
Qed.

Lemma remove_idempotent_witness :
  built scenario_A (tree_of scenario_A) ∧
  remove (remove (tree_of scenario_A) ["c"]) ["c"]
  = remove (tree_of scenario_A) ["c"].
Proof.
  assert (built scenario_A (tree_of scenario_A)) as Ht.
  { apply (tree_of_built 0); [vm_compute; reflexivity|compute_done]. }
  split; [exact Ht|].
  apply (remove_idempotent string string _ _ _ _ ["c"] Ht).
Defined.

(** X11. Seen through its stored values the tree is a dictionary: calls
    that meet the preconditions and compute without rounding never raise,
    the stored values of the tree they build are those of the list model
    [model] (an insertion adds the weight to the entry of the value or
    appends a new entry, a removal filters the entries), and no value is
    stored twice. *)
Theorem run_refines_dictionary :
  ∀ (sym val : Type) (Hsym : EqDecision sym) (Hval : EqDecision val)
    (ops : list (op sym val)),
    legal empty ops = true → exact ops →
    ∃ t, built ops t ∧
         stored t ≡ₚ model ops ∧
         NoDup ((λ e, e.1.2) <$> stored t).
Proof.
  intros sym val Hsym Hval ops Hl He.
  destruct (run_from_model ops empty [] wf_top_empty) as (t & Hrun & _ & Hst & Hnd);
    [done|apply NoDup_nil_2|done|].
  exists t. split_and!; [done..|]. by rewrite Hst.
Qed.

Lemma run_refines_dictionary_witness :
  legal empty scenario_C = true ∧ exact scenario_C ∧
  ∃ t, built scenario_C t ∧
       stored t ≡ₚ model scenario_C ∧
       NoDup ((λ e, e.1.2) <$> stored t).
Proof.
  assert (legal empty scenario_C = true) as Hl by (vm_compute; reflexivity).
  assert (exact scenario_C) as He by (exists 0%nat; compute_done).
  split; [exact Hl|]. split; [exact He|].
  apply (run_refines_dictionary string string _ _ scenario_C Hl He).
Defined.

(** X12. When every insertion has a positive weight and a prefix sequence
    that is a function of the value (as in the three engines), every call
    meets its preconditions, whatever removals come in between: the calls
    never raise, and every stored value sits under the prefix sequence of
    its value. *)
Theorem keyed_calls_never_raise :
  ∀ (sym val : Type) (Hsym : EqDecision sym) (Hval : EqDecision val)
    (pf : val → list sym) (ops : list (op sym val)),
    Forall (keyed_op pf) ops →
    legal empty ops = true ∧
    ∃ t, run ops = Some t ∧ reachable t ∧
         Forall (λ e, e.1.1 = pf e.1.2) (stored t).
Proof.
  intros sym val Hsym Hval pf ops Hk.
  assert (legal (empty : tree sym val) ops = true) as Hl.
  { apply (keyed_legal pf ops empty []); [apply wf_top_empty|done| |done..].
    apply NoDup_nil_2. }
  split; [done|].
  destruct (run_from_model ops empty [] wf_top_empty) as (t & Hrun & _ & Hst & _);
    [done|apply NoDup_nil_2|done|].
  destruct (run_reachable ops Hl) as (t' & Hrun' & Ht).
  unfold run in Hrun'. rewrite Hrun in Hrun'. injection Hrun' as <-.
  exists t. split_and!; [done..|]. rewrite Hst. by apply model_keyed.
Qed.

Lemma keyed_calls_never_raise_witness :
  Forall (keyed_op letters) scenario_C ∧ legal empty scenario_C = true.
Proof.
  assert (Forall (keyed_op letters) scenario_C) as Hk.
  { repeat (constructor; [first [exact I|split; [by vm_compute|reflexivity]]|]).
    constructor. }
  split; [exact Hk|].
  apply (keyed_calls_never_raise string string _ _ letters scenario_C Hk).
Defined.

(** X13. Insertions keyed by the value accumulate: after inserting the
    pairs (value, weight) of a list, each with a positive weight and under
    the prefix sequence of its value, when the weights add up without
    rounding, the weight of the tree is the sum of all the weights, and the
    stored values are the values of the list, each once, under its prefix
    sequence and with the sum of the weights that the list gives it. *)
Theorem keyed_inserts_accumulate :
  ∀ (sym val : Type) (Hsym : EqDecision sym) (Hval : EqDecision val)
    (pf : val → list sym) (items : list (val * Qc)) (k : nat),
    Forall (λ x, 0 < x.2) items → exact_weights k (items.*2) →
    ∃ t, run ((λ x, Insert x.1 x.2 (pf x.1)) <$> items) = Some t ∧
      insert_reachable t ∧
      weight t = sum_list (items.*2) ∧
      NoDup ((λ e, e.1.2) <$> stored t) ∧
      (∀ e, e ∈ stored t ↔
         ∃ x, x ∈ items ∧
           e = (pf x.1, x.1,
                sum_list ((filter (λ y, y.1 = x.1) items).*2))).
Proof.
  intros sym val Hsym Hval pf items k Hpos _.
  destruct (keyed_run pf items Hpos) as (t & Hrun & Ht & Hw & _ & Hnd & Hst).
  by exists t.
Qed.

Lemma keyed_inserts_accumulate_witness :
  Forall (λ x : string * Qc, 0 < x.2) [("cat", float 2.0); ("cat", float 3.0)] ∧
  exact_weights 0 ([("cat", float 2.0); ("cat", float 3.0)].*2) ∧
  ∃ t, run ((λ x, Insert x.1 x.2 (letters x.1))
              <$> [("cat", float 2.0); ("cat", float 3.0)]) = Some t ∧
       weight t = sum_list ([("cat", float 2.0); ("cat", float 3.0)].*2).
Proof.
  assert (Forall (λ x : string * Qc, 0 < x.2)
            [("cat", float 2.0); ("cat", float 3.0)]) as Hpos.
  { repeat (constructor; [by vm_compute|]). constructor. }
  assert (exact_weights 0 ([("cat", float 2.0); ("cat", float 3.0)].*2))
    as He by compute_done.
  split; [exact Hpos|]. split; [exact He|].
  destruct (keyed_inserts_accumulate string string _ _ letters _ 0%nat Hpos He)
    as (t & Hrun & _ & Hw & _).
  exists t. split; [exact Hrun|exact Hw].
Defined.

(** X14. On a tree built by calls that meet their preconditions and
    compute without rounding, the values that [autocomplete(prefix, None)]
    returns are the stored values whose prefix sequence begins with
    [prefix], with their weights; a limited call returns stored values
    only. *)
Theorem autocomplete_values_are_stored :
  ∀ (sym val : Type) (Hsym : EqDecision sym) (Hval : EqDecision val)
    (ops : list (op sym val)) (t : tree sym val) (prefix : list sym)
    (value : val) (w : Qc),
    built ops t →
    ((RValue value, w) ∈ autocomplete t prefix None ↔
     ∃ path, prefix `prefix_of` path ∧ (path, value, w) ∈ stored t) ∧
    (∀ limit, limit_ok limit →
       (RValue value, w) ∈ autocomplete t prefix limit →
       ∃ path, prefix `prefix_of` path ∧ (path, value, w) ∈ stored t).
Proof.
  intros sym val Hsym Hval ops t prefix value w Ht%built_wf_top. split.
  - split; [by apply autocomplete_stored|].
    intros (path & Hp & Hst). by eapply stored_autocomplete.
  - intros limit _. by apply autocomplete_stored.
Qed.

Lemma autocomplete_values_are_stored_witness :
  built scenario_A (tree_of scenario_A) ∧
  ((RValue "car", float 3.0) ∈ autocomplete (tree_of scenario_A) ["c"] None ↔
   ∃ path, ["c"] `prefix_of` path ∧
           (path, "car", float 3.0) ∈ stored (tree_of scenario_A)).
Proof.
  assert (built scenario_A (tree_of scenario_A)) as Ht.
  { apply (tree_of_built 0); [vm_compute; reflexivity|compute_done]. }
  split; [exact Ht|].
  apply (autocomplete_values_are_stored string string _ _ _ _ ["c"] "car"
           (float 3.0) Ht).
Defined.

(** X15. The prefix sequence that the sentence engine computes from a
    string: [split(' ')] followed by the deletions never raises and yields
    the words of the string in their order, none of them empty or with a
    space in it; the words of two strings joined by a space are the words of
    the first followed by the words of the second, so that additional spaces
    change nothing. *)
Theorem sentence_prefix_words :
  ∀ (char : Type) (Hchar : EqDecision char) (space : char),
    (∀ s : list char,
       ∃ words, sentence_prefix space s = Some words ∧
         words = filter (λ word, word ≠ []) (split space s) ∧
         Forall (λ word, word ≠ [] ∧ space ∉ word) words) ∧
    (∀ s1 s2 : list char,
       sentence_prefix space (s1 ++ space :: s2)
       = (words1 ← sentence_prefix space s1;
          words2 ← sentence_prefix space s2;
          Some (words1 ++ words2))).
Proof.
  intros char Hchar space. split.
  - intros s. eexists. split; [apply sentence_prefix_filter|]. split; [done|].
    apply Forall_forall. intros word [Hne Hin]%list_elem_of_filter.
    split; [done|].
    pose proof (split_no_space space s) as Hs. rewrite Forall_forall in Hs.
    by apply Hs.
  - intros s1 s2. rewrite !sentence_prefix_filter. cbn [mbind option_bind].
    by rewrite split_app, filter_app.
Qed.

(** X16. [LetterAutocompleteEngine.__init__] never raises.  Every line of
    the file is inserted, also a line whose sanitized string is empty or
    holds spaces only: the weight of the tree is the number of lines, and
    the stored values are the sanitized strings, each once, under its list
    of characters and with the number of lines that sanitize to it as its
    weight.  The sanitized string is the lowered string of the alphanumeric
    characters and spaces of the line. *)
Theorem letter_engine_init :
  ∀ (char : Type) (Hchar : EqDecision char) (isalnum : char → bool)
    (space : char) (lower : list char → list char) (lines : list (list char)),
    (∀ line, sanitize isalnum space lower line
             = lower (filter (λ c, isalnum c || bool_decide (c = space)) line)) ∧
    ∃ t, LetterAutocompleteEngine.init isalnum space lower lines = Some t ∧
      insert_reachable t ∧
      weight t = Qc_of_nat (length lines) ∧
      NoDup ((λ e, e.1.2) <$> stored t) ∧
      (∀ e, e ∈ stored t ↔
         ∃ line, line ∈ lines ∧
           e = (sanitize isalnum space lower line,
                sanitize isalnum space lower line,
                Qc_of_nat
                  (length
                     (filter (λ l, sanitize isalnum space lower l
                                   = sanitize isalnum space lower line)
                             lines)))).
Proof.
  intros char Hchar isalnum space lower lines.
  split; [apply sanitize_filter|].
  rewrite letter_init_run.
  set (items := (λ line, (sanitize isalnum space lower line, float 1.0))
                  <$> lines).
  destruct (keyed_run (λ word : list char, word) items)
    as (t & Hrun & Ht & Hw & _ & Hnd & Hst).
  { apply Forall_fmap, Forall_forall. intros line _. by vm_compute. }
  exists t. split_and!; [done..| |done|].
  - rewrite Hw. unfold items. rewrite <-list_fmap_compose.
    apply (sum_list_ones lines).
  - intros e. rewrite Hst. unfold items. split.
    + intros (x & (line & -> & Hline)%list_elem_of_fmap & ->).
      exists line. split; [done|]. cbn [fst]. by rewrite letter_count.
    + intros (line & Hline & ->).
      exists (sanitize isalnum space lower line, float 1.0). split.
      * apply list_elem_of_fmap. by exists line.
      * cbn [fst]. by rewrite letter_count.
Qed.

(** X17. [SentenceAutocompleteEngine.__init__] on rows with positive
    weights that add up without rounding never raises.  Every row is
    inserted, also one whose sanitized string has no word: the weight of the
    tree is the sum of the weights of the rows, and the stored values are
    the sanitized strings, each once, under its list of words and with the
    sum of the weights of the rows that sanitize to it. *)
Theorem sentence_engine_init :
  ∀ (char : Type) (Hchar : EqDecision char) (isalnum : char → bool)
    (space : char) (lower : list char → list char)
    (rows : list (list char * Qc)) (k : nat),
    Forall (λ row, 0 < row.2) rows → exact_weights k (rows.*2) →
    ∃ t, SentenceAutocompleteEngine.init isalnum space lower rows = Some t ∧
      insert_reachable t ∧
      weight t = sum_list (rows.*2) ∧
      NoDup ((λ e, e.1.2) <$> stored t) ∧
      (∀ e, e ∈ stored t ↔
         ∃ row, row ∈ rows ∧
           e = (filter (λ word, word ≠ [])
                       (split space (sanitize isalnum space lower row.1)),
                sanitize isalnum space lower row.1,
                sum_list
                  ((filter (λ r, sanitize isalnum space lower r.1
                                 = sanitize isalnum space lower row.1)
                           rows).*2))).
Proof.
  intros char Hchar isalnum space lower rows k Hpos _.
  rewrite sentence_init_run.
  set (items := (λ row, (sanitize isalnum space lower row.1, row.2)) <$> rows).
  destruct (keyed_run
              (λ s : list char, filter (λ word, word ≠ []) (split space s))
              items)
    as (t & Hrun & Ht & Hw & _ & Hnd & Hst).
  { apply Forall_fmap. eapply Forall_impl; [exact Hpos|]. by intros row. }
  exists t. split_and!; [done..| |done|].
  - rewrite Hw. unfold items. by rewrite <-list_fmap_compose.
  - intros e. rewrite Hst. unfold items. split.
    + intros (x & (row & -> & Hrow)%list_elem_of_fmap & ->).
      exists row. split; [done|]. cbn [fst]. by rewrite sentence_weight.
    + intros (row & Hrow & ->).
      exists (sanitize isalnum space lower row.1, row.2). split.
      * apply list_elem_of_fmap. by exists row.
      * cbn [fst]. by rewrite sentence_weight.
Qed.

Lemma sentence_engine_init_witness :
  Forall (λ row : list Ascii.ascii * Qc, 0 < row.2)
    [(chars "a star", float 15.0);
     (chars "a star", float 6.5)] ∧
  exact_weights 1 [float 15.0; float 6.5] ∧
  ∃ t, SentenceAutocompleteEngine.init (λ _, true) Ascii.Space id
         [(chars "a star", float 15.0);
          (chars "a star", float 6.5)] = Some t ∧
       weight t = sum_list [float 15.0; float 6.5].
Proof.
  assert (Forall (λ row : list Ascii.ascii * Qc, 0 < row.2)
            [(chars "a star", float 15.0);
             (chars "a star", float 6.5)]) as Hpos.
  { repeat (constructor; [by vm_compute|]). constructor. }
  assert (exact_weights 1 [float 15.0; float 6.5]) as He by compute_done.
  split; [exact Hpos|]. split; [exact He|].
  destruct (sentence_engine_init Ascii.ascii _ (λ _, true) Ascii.Space id _
              1%nat Hpos He)
    as (t & Hinit & _ & Hw & _).
  exists t. split; [exact Hinit|exact Hw].
Defined.

(** X18. The interval sequence of a melody has one entry less than the
    melody has notes; it does not change when every pitch is shifted by the
    same amount or when the durations change; its entries add up to the
    difference between the last pitch and the first. *)
Theorem melody_interval_properties :
  ∀ (ns : list (Z * Z)),
    length (MelodyAutocompleteEngine.interval ns) = (length ns - 1)%nat ∧
    (∀ (k : Z) (d : Z * Z → Z),
       MelodyAutocompleteEngine.interval ((λ n, ((n.1 + k)%Z, d n)) <$> ns)
       = MelodyAutocompleteEngine.interval ns) ∧
    (∀ a, foldr Z.add 0%Z (MelodyAutocompleteEngine.interval (a :: ns))
          = ((default a (last (a :: ns))).1 - a.1)%Z).
Proof.
  intros ns. split_and!.
  - apply interval_length.
  - intros k d. apply interval_transpose.
  - intros a. apply interval_sum.
Qed.

(** X19. When every row of the file can be read and gives a melody that
    meets the representation invariants of [Melody],
    [MelodyAutocompleteEngine.__init__] never raises and stores one melody
    for each row, also for rows with the same name and notes: the tree has
    as many leaves as the file has rows, each melody is stored under its
    interval sequence with the weight 1.0, and the weight of the tree is the
    number of rows. *)
Theorem melody_engine_init :
  ∀ (entry : Type) (Hentry : EqDecision entry) (blank : entry)
    (int : entry → option Z) (rows : list (list entry))
    (melodies : list (Melody entry)),
    MelodyAutocompleteEngine.parse_rows blank int 0 rows = Some melodies →
    Forall (melody_ok blank) melodies →
    ∃ t, MelodyAutocompleteEngine.init blank int rows = Some t ∧
      insert_reachable t ∧
      len t = length rows ∧
      weight t = Qc_of_nat (length rows) ∧
      stored t ≡ₚ (λ m, (MelodyAutocompleteEngine.interval (notes m), m,
                         float 1.0)) <$> melodies.
Proof.
  intros entry Hentry blank int rows melodies Hms _.
  rewrite (melody_init_run blank int rows melodies Hms).
  destruct (parse_rows_NoDup blank int rows melodies Hms) as [Hnd Hlen].
  set (items := (λ m : Melody entry, (m, float 1.0)) <$> melodies).
  assert (items.*1 = melodies) as Hfst.
  { unfold items. rewrite <-list_fmap_compose. apply list_fmap_id. }
  destruct (keyed_run
              (λ m : Melody entry, MelodyAutocompleteEngine.interval (notes m))
              items)
    as (t & Hrun & Ht & Hw & Hst & _ & _).
  { apply Forall_fmap, Forall_forall. intros m _. by vm_compute. }
  rewrite (model_fresh
             (λ m : Melody entry, MelodyAutocompleteEngine.interval (notes m))
             items) in Hst by by rewrite Hfst.
  unfold items in Hst. rewrite <-list_fmap_compose in Hst.
  exists t. split_and!; [done..| | |done].
  - rewrite (insert_reachable_len t Ht), Hst, length_fmap. done.
  - rewrite Hw, <-Hlen. unfold items. rewrite <-list_fmap_compose.
    apply (sum_list_ones melodies).
Qed.

Lemma melody_engine_init_witness :
  MelodyAutocompleteEngine.parse_rows "" (λ _ : string, Some 60%Z) 0
    [["tune"; "60"; "1"]; ["tune"; "60"; "1"]]
  = Some [{| melody_id := 0; name := "tune"; notes := [(60, 60)%Z] |};
          {| melody_id := 1; name := "tune"; notes := [(60, 60)%Z] |}] ∧
  Forall (melody_ok "")
    [{| melody_id := 0; name := "tune"; notes := [(60, 60)%Z] |};
     {| melody_id := 1; name := "tune"; notes := [(60, 60)%Z] |}] ∧
  ∃ t, MelodyAutocompleteEngine.init "" (λ _ : string, Some 60%Z)
         [["tune"; "60"; "1"]; ["tune"; "60"; "1"]] = Some t ∧
       len t = 2%nat.
Proof.
  assert (MelodyAutocompleteEngine.parse_rows "" (λ _ : string, Some 60%Z) 0
            [["tune"; "60"; "1"]; ["tune"; "60"; "1"]]
          = Some [{| melody_id := 0; name := "tune"; notes := [(60, 60)%Z] |};
                  {| melody_id := 1; name := "tune"; notes := [(60, 60)%Z] |}])
    as Hms by reflexivity.
  assert (Forall (melody_ok "")
            [{| melody_id := 0; name := "tune"; notes := [(60, 60)%Z] |};
             {| melody_id := 1; name := "tune"; notes := [(60, 60)%Z] |}])
    as Hok.
  { repeat (constructor;
      [split_and!; [done|done|by repeat constructor|by repeat constructor]|]).
    constructor. }
  split; [exact Hms|]. split; [exact Hok|].
  destruct (melody_engine_init string _ "" (λ _, Some 60%Z) _ _ Hms Hok)
    as (t & Hinit & _ & Hlen & _).
  exists t. split; [exact Hinit|exact Hlen].
Defined.

(** X20. Reading one row of the melody file: the entries after the first
    blank one are ignored; a melody that is read has the first entry as its
    name, and the entries between the name and the blank are twice as many
    as its notes, so that a row with an odd number of them makes [__init__]
    raise. *)
Theorem melody_row_parsing :
  ∀ (entry : Type) (Hentry : EqDecision entry) (blank : entry)
    (int : entry → option Z) (i : nat) (l rest : list entry),
    blank ∉ l →
    MelodyAutocompleteEngine.parse blank int i (l ++ blank :: rest)
    = MelodyAutocompleteEngine.parse blank int i (l ++ [blank]) ∧
    (∀ m, MelodyAutocompleteEngine.parse blank int i (l ++ blank :: rest)
          = Some m →
          melody_id m = i ∧ name m = default blank (head l) ∧
          length (drop 1 l) = (2 * length (notes m))%nat).
Proof.
  intros entry Hentry blank int i l rest Hl.
  split; [by apply parse_blank|].
  intros m (ns & Hhead & Hns & Hm & _)%parse_Some.
  rewrite py_index_app_blank in Hns by done.
  assert (notes m = ns) as Hnotes by (by rewrite Hm).
  assert (melody_id m = i) as Hid by (by rewrite Hm).
  destruct l as [|x l]; cbn [app head length drop default] in *.
  - rewrite take_0 in Hns. cbn in Hns. injection Hns as <-.
    injection Hhead as <-. by rewrite Hnotes.
  - replace (S (length l) - 1)%nat with (length l) in Hns by lia.
    rewrite drop_0, take_app_length in Hns. rewrite drop_0.
    split_and!; [done|by simplify_eq|].
    rewrite Hnotes. by apply (notes_of_length int).
Qed.

Lemma melody_row_parsing_witness :
  ("" ∉ ["tune"; "60"; "1"]) ∧
  MelodyAutocompleteEngine.parse "" (λ _ : string, Some 60%Z) 0
    (["tune"; "60"; "1"] ++ "" :: ["62"])
  = MelodyAutocompleteEngine.parse "" (λ _ : string, Some 60%Z) 0
      (["tune"; "60"; "1"] ++ [""]).
Proof.
  assert ("" ∉ ["tune"; "60"; "1"]) as Hl by compute_done.
  split; [exact Hl|].
  apply (melody_row_parsing string _ "" (λ _, Some 60%Z) 0 _ ["62"] Hl).
Defined.

(** X21. The methods of the sentence engine on a tree built by calls that
    meet their preconditions and compute without rounding: [remove] with a
    string never raises and removes the words of the string as a prefix
    sequence; [autocomplete] with the same string, without a limit or with a
    positive one, then returns the empty list. *)
Theorem sentence_remove_then_autocomplete :
  ∀ (char : Type) (Hchar : EqDecision char) (space : char)
    (ops : list (op (list char) (list char)))
    (t : tree (list char) (list char)) (s : list char) (limit : option Z),
    built ops t → limit_ok limit →
    ∃ t', SentenceAutocompleteEngine.remove space t s = Some t' ∧
      t' = remove t (filter (λ word, word ≠ []) (split space s)) ∧
      built (ops ++ [Remove (filter (λ word, word ≠ []) (split space s))]) t' ∧
      SentenceAutocompleteEngine.autocomplete space t' s limit = Some [].
Proof.
  intros char Hchar space ops t s limit Ht Hl.
  unfold SentenceAutocompleteEngine.remove,
    SentenceAutocompleteEngine.autocomplete.
  rewrite sentence_prefix_filter. cbn [mbind option_bind].
  eexists. split_and!; [done..|by apply built_snoc_remove|].
  rewrite decide_True by done. unfold autocomplete_call.
  rewrite decide_True by done. f_equal.
  apply remove_autocomplete_nil; [by eapply built_wf_top|done].
Qed.

Lemma sentence_remove_then_autocomplete_witness :
  built [star_chars] (tree_of [star_chars]) ∧ limit_ok None ∧
  ∃ t', SentenceAutocompleteEngine.remove Ascii.Space (tree_of [star_chars])
          (chars " a") = Some t' ∧
        SentenceAutocompleteEngine.autocomplete Ascii.Space t' (chars " a") None
        = Some [].
Proof.
  assert (built [star_chars] (tree_of [star_chars])) as Ht.
  { apply (tree_of_built 0); [vm_compute; reflexivity|compute_done]. }
  assert (limit_ok None) as Hl by exact I.
  split; [exact Ht|]. split; [exact Hl|].
  destruct (sentence_remove_then_autocomplete Ascii.ascii _ Ascii.Space _ _
              (chars " a") None Ht Hl)
    as (t' & Hrm & _ & _ & Hac).
  exists t'. split; [exact Hrm|exact Hac].
Defined.

(** X22. On a tree built by calls that meet their preconditions, when
    these calls and the insertion compute without rounding, [insert] with a
    positive weight never raises, whatever the value and the prefix
    sequence: the tree it leaves is not empty, its [root] is still the empty
    prefix, and its weight has grown by at most the inserted weight. *)
Theorem insert_never_raises :
  ∀ (sym val : Type) (Hsym : EqDecision sym) (Hval : EqDecision val)
    (ops : list (op sym val)) (t : tree sym val) (value : val) (w : Qc)
    (prefix : list sym),
    built ops t → exact (ops ++ [Insert value w prefix]) → 0 < w →
    ∃ t', insert t value w prefix = Some t' ∧
      root t' = RPrefix [] ∧ subtrees t' ≠ [] ∧
      0 < weight t' ∧ weight t' ≤ weight t + w.
Proof.
  intros sym val Hsym Hval ops [r w0 ts] value w prefix Ht%built_wf_top _ Hw.
  destruct Ht as [Hr Hin]. cbn in Hr, Hin. subst r.
  destruct (insert_inner prefix [] w0 ts value w Hw Hin)
    as (t' & Hins & Hr & _ & Hpos & Hle).
  destruct (insert_returns prefix (Node (RPrefix []) w0 ts) value w Hw)
    as (t'' & Hins' & _ & Hne); [by eexists|].
  rewrite Hins in Hins'. injection Hins' as <-.
  exists t'. split_and!; [done..|]. cbn [weight].
  pose proof (inner_nonneg _ _ _ Hin) as Hw0.
  destruct ts; [rewrite Hle|]; qc_arith.
Qed.

Lemma insert_never_raises_witness :
  built scenario_C (tree_of scenario_C) ∧
  exact (scenario_C ++ [Insert "dog" (float 1.0) ["c"]]) ∧ 0 < float 1.0 ∧
  ∃ t', insert (tree_of scenario_C) "dog" (float 1.0) ["c"] = Some t' ∧
        weight t' ≤ weight (tree_of scenario_C) + float 1.0.
Proof.
  assert (built scenario_C (tree_of scenario_C)) as Ht.
  { apply (tree_of_built 0); [vm_compute; reflexivity|compute_done]. }
  assert (exact (scenario_C ++ [Insert "dog" (float 1.0) ["c"]])) as He.
  { exists 0%nat. compute_done. }
  assert (0 < float 1.0) as Hw by (vm_compute; reflexivity).
  split; [exact Ht|]. split; [exact He|]. split; [exact Hw|].
  destruct (insert_never_raises string string _ _ _ _ "dog" _ ["c"] Ht He Hw)
    as (t' & Hins & _ & _ & _ & Hle).
  exists t'. split; [exact Hins|exact Hle].
Defined.

(** X23. On a tree built by calls that meet their preconditions and
    compute without rounding, the weight of a node is never less than the
    sum of the weights of the leaves below it, and the weight of the tree is
    never less than the sum of the weights of its stored values: the weights
    that [remove] leaves behind err on the high side only. *)
Theorem weight_bounds_stored_weights :
  ∀ (sym val : Type) (Hsym : EqDecision sym) (Hval : EqDecision val)
    (ops : list (op sym val)) (t : tree sym val),
    built ops t →
    (∀ n, n ∈ nodes t → sum_weights (get_leaves n) ≤ weight n) ∧
    sum_list ((λ e, e.2) <$> stored t) ≤ weight t.
Proof.
  intros sym val Hsym Hval ops t Ht%built_wf_top. split.
  - intros n. by apply wf_top_nodes_leaf_sum.
  - by apply stored_weight_bound.
Qed.

Lemma weight_bounds_stored_weights_witness :
  built stale_weight_calls (tree_of stale_weight_calls) ∧
  sum_list ((λ e, e.2) <$> stored (tree_of stale_weight_calls))
    ≤ weight (tree_of stale_weight_calls).
Proof.
  assert (built stale_weight_calls (tree_of stale_weight_calls)) as Ht.
  { apply (tree_of_built 0); [vm_compute; reflexivity|compute_done]. }
  split; [exact Ht|].
  apply (weight_bounds_stored_weights string string _ _ _ _ Ht).
Defined.

(** X24. On a tree built by calls that meet their preconditions and compute
    without rounding, [autocomplete(prefix, None)] returns the pairs (root,
    weight) of the leaves whose prefix sequence begins with [prefix], sorted
    stably by non-increasing weight.  A leaf is what [is_leaf] accepts, a
    node without subtrees and with a positive weight; after insertions only,
    the leaves are the stored values. *)
Theorem built_autocomplete_unlimited :
  ∀ (sym val : Type) (Hsym : EqDecision sym) (Hval : EqDecision val)
    (ops : list (op sym val)) (t : tree sym val) (prefix : list sym),
    built ops t →
    autocomplete_call t prefix None
      = Some (sort_desc snd (leaf_pair <$> matching_leaves prefix t)) ∧
    autocomplete t prefix None ≡ₚ leaf_pair <$> matching_leaves prefix t ∧
    StronglySorted (desc snd) (autocomplete t prefix None) ∧
    (Forall is_insert ops →
     autocomplete t prefix None
       ≡ₚ (λ e, (RValue e.1.2, e.2))
            <$> filter (λ e, prefix `prefix_of` e.1.1) (stored t)).
Proof.
  intros sym val Hsym Hval ops t prefix Hb.
  pose proof (built_wf_top ops t Hb) as Ht.
  unfold autocomplete_call. rewrite decide_True by done.
  rewrite (autocomplete_matching t prefix None Ht). cbn [result_of].
  split_and!; [done|apply sort_desc_perm|apply sort_desc_sorted|].
  intros Hi. pose proof (built_insert_reachable ops t Hi Hb) as Hins.
  rewrite <-(insert_reachable_matching t prefix Hins).
  apply sort_desc_perm.
Qed.

Lemma built_autocomplete_unlimited_witness :
  built scenario_A (tree_of scenario_A) ∧
  StronglySorted (desc snd) (autocomplete (tree_of scenario_A) ["c"] None).
Proof.
  assert (built scenario_A (tree_of scenario_A)) as Ht.
  { apply (tree_of_built 0); [vm_compute; reflexivity|compute_done]. }
  split; [exact Ht|].
  apply (built_autocomplete_unlimited string string _ _ _ _ ["c"] Ht).
Defined.

(** X25. On a tree built by calls that meet their preconditions and compute
    without rounding, [autocomplete(prefix, limit)] with a positive limit
    returns the first [min(limit, number of matches)] leaves, in the sense
    of [is_leaf], met by the pre-order traversal that visits the subtrees in
    their stored order, without sorting them. *)
Theorem built_autocomplete_limited :
  ∀ (sym val : Type) (Hsym : EqDecision sym) (Hval : EqDecision val)
    (ops : list (op sym val)) (t : tree sym val) (prefix : list sym)
    (limit : Z),
    built ops t → (0 < limit)%Z →
    autocomplete_call t prefix (Some limit)
    = Some (leaf_pair <$>
              take (Z.to_nat limit `min` length (matching_leaves prefix t))
                   (matching_leaves prefix t)).
Proof.
  intros sym val Hsym Hval ops t prefix limit Ht%built_wf_top Hlimit.
  unfold autocomplete_call. rewrite decide_True by done.
  rewrite (autocomplete_matching t prefix (Some limit) Ht). cbn [result_of].
  do 3 f_equal. lia.
Qed.

Lemma built_autocomplete_limited_witness :
  built scenario_B (tree_of scenario_B) ∧ (0 < 2)%Z ∧
  autocomplete_call (tree_of scenario_B) ["c"] (Some 2%Z)
  = Some (leaf_pair <$>
            take (Z.to_nat 2
                    `min` length (matching_leaves ["c"] (tree_of scenario_B)))
                 (matching_leaves ["c"] (tree_of scenario_B))).
Proof.
  assert (built scenario_B (tree_of scenario_B)) as Ht.
  { apply (tree_of_built 0); [vm_compute; reflexivity|compute_done]. }
  assert (0 < 2)%Z as Hlimit by lia.
  split; [exact Ht|]. split; [exact Hlimit|].
  apply (built_autocomplete_limited string string _ _ _ _ ["c"] 2%Z Ht Hlimit).
Defined.

(** X26. On a tree built by calls that meet their preconditions, when these
    calls and the insertion compute without rounding, inserting a stored
    value again under its prefix sequence adds the weight to the leaf of
    that value and creates no second leaf: the stored values are the same
    apart from that weight, the size of the tree is unchanged, and
    [autocomplete] returns the value with the sum of the two weights. *)
Theorem built_insert_again_accumulates :
  ∀ (sym val : Type) (Hsym : EqDecision sym) (Hval : EqDecision val)
    (ops : list (op sym val)) (t : tree sym val) (prefix : list sym)
    (value : val) (w0 w : Qc),
    built ops t → exact (ops ++ [Insert value w prefix]) →
    (prefix, value, w0) ∈ stored t → 0 < w →
    ∃ t' rest,
      insert t value w prefix = Some t' ∧
      stored t ≡ₚ (prefix, value, w0) :: rest ∧
      stored t' ≡ₚ (prefix, value, w0 + w) :: rest ∧
      len t' = len t ∧
      (RValue value, w0 + w) ∈ autocomplete t' prefix None.
Proof.
  intros sym val Hsym Hval ops t prefix value w0 w Ht%built_wf_top _ Hst Hw.
  by apply insert_stored_again.
Qed.

Lemma built_insert_again_accumulates_witness :
  built [star (float 15.0)] (tree_of [star (float 15.0)]) ∧
  exact ([star (float 15.0)] ++ [star (float 6.5)]) ∧
  (["a"; "star"; "is"; "born"], "a star is born", float 15.0)
    ∈ stored (tree_of [star (float 15.0)]) ∧
  0 < float 6.5 ∧
  ∃ t' rest,
    insert (tree_of [star (float 15.0)]) "a star is born" (float 6.5)
      ["a"; "star"; "is"; "born"] = Some t' ∧
    stored (tree_of [star (float 15.0)])
      ≡ₚ (["a"; "star"; "is"; "born"], "a star is born", float 15.0) :: rest ∧
    stored t'
      ≡ₚ (["a"; "star"; "is"; "born"], "a star is born",
          float 15.0 + float 6.5) :: rest ∧
    len t' = len (tree_of [star (float 15.0)]) ∧
    (RValue "a star is born", float 15.0 + float 6.5)
      ∈ autocomplete t' ["a"; "star"; "is"; "born"] None.
Proof.
  assert (built [star (float 15.0)] (tree_of [star (float 15.0)])) as Ht.
  { apply (tree_of_built 0); [vm_compute; reflexivity|compute_done]. }
  assert (exact ([star (float 15.0)] ++ [star (float 6.5)])) as He.
  { exists 1%nat. compute_done. }
  assert ((["a"; "star"; "is"; "born"], "a star is born", float 15.0)
            ∈ stored (tree_of [star (float 15.0)])) as Hst.
  { compute_done. }
  assert (0 < float 6.5) as Hw by (vm_compute; reflexivity).
  split; [exact Ht|]. split; [exact He|]. split; [exact Hst|].
  split; [exact Hw|].
  apply (built_insert_again_accumulates string string _ _ _ _ _ _ _ _
           Ht He Hst Hw).
Defined.
